(** * RESCAL and TransR scoring models (poem.models.unimodal)

    A shallow embedding of [src/poem/models/unimodal/rescal.py] and
    [src/poem/models/unimodal/trans_r.py].

    Tensors of floats are modelled as nested lists of real numbers: the
    development describes the exact (real-number) arithmetic that the
    floating-point program approximates.  Every PyTorch primitive the two
    source files call ([nn.Embedding], [Tensor.view], [@], [torch.renorm],
    [torch.norm], [functional.normalize], broadcasting arithmetic) is given a
    definition of its own that follows the PyTorch documentation, and the
    methods of the two classes are then written line by line on top of them.

    Python exceptions are modelled by the [Err] results of an error monad.
    An [Err] result says nothing about the state an exception leaves behind. *)

From Stdlib Require Import Reals Lra Lia List Bool Arith ZArith.
Import ListNotations.

Open Scope R_scope.

(** ** Exceptions and the error monad *)

Inductive error : Type :=
| TypeError       (* calling [None] *)
| AttributeError  (* attribute of [None] *)
| IndexError      (* id outside a table *)
| RuntimeError.   (* shape mismatch *)

Inductive result (A : Type) : Type :=
| Ok (a : A)
| Err (e : error).
Arguments Ok {A} a.
Arguments Err {A} e.

Definition bind {A B : Type} (c : result A) (k : A -> result B) : result B :=
  match c with
  | Ok a => k a
  | Err e => Err e
  end.

Notation "x <- c ;; k" := (bind c (fun x => k))
  (at level 61, c at next level, right associativity).
Notation "' p <- c ;; k" := (bind c (fun x => match x with p => k end))
  (at level 61, p pattern, c at next level, right associativity).

Fixpoint mapM {A B : Type} (f : A -> result B) (l : list A) : result (list B) :=
  match l with
  | [] => Ok []
  | a :: l' => b <- f a ;; bs <- mapM f l' ;; Ok (b :: bs)
  end.

(** ** Tensors *)

Abbreviation T1 := (list R).
Abbreviation T2 := (list (list R)).
Abbreviation T3 := (list (list (list R))).

Definition Rsum (l : list R) : R := fold_right Rplus 0 l.

(** Sum of [f 0 + ... + f (n-1)]. *)
Definition sum_n (f : nat -> R) (n : nat) : R := Rsum (map f (seq 0 n)).

Definition sum_sq (v : list R) : R := Rsum (map (fun x => x * x) v).

(** The 2-norm of the entries of a (flattened) tensor. *)
Definition norm2 (v : list R) : R := sqrt (sum_sq v).

Definition dot (x y : T1) : R :=
  Rsum (map (fun p => fst p * snd p) (combine x y)).

Definition ncols (m : T2) : nat :=
  match m with
  | [] => O
  | r :: _ => length r
  end.

Definition col (j : nat) (m : T2) : T1 := map (fun r => nth j r 0) m.

(** The transpose of a matrix with [d] columns. *)
Definition transpose (d : nat) (m : T2) : T2 := map (fun j => col j m) (seq 0 d).

Definition scale1 (a : R) (v : T1) : T1 := map (fun x => a * x) v.

(** *** Broadcasting

    One level of PyTorch's broadcasting rule: two sizes are compatible when
    they are equal or one of them is 1. *)

Definition broadcast {A B C : Type} (f : A -> B -> result C)
    (x : list A) (y : list B) : result (list C) :=
  match x, y with
  | [a], _ => mapM (f a) y
  | _, [c] => mapM (fun a => f a c) x
  | _, _ =>
      if (length x =? length y)%nat
      then mapM (fun p => f (fst p) (snd p)) (combine x y)
      else Err RuntimeError
  end.

Definition add1 : T1 -> T1 -> result T1 := broadcast (fun a b => Ok (a + b)).
Definition add2 : T2 -> T2 -> result T2 := broadcast add1.
Definition add3 : T3 -> T3 -> result T3 := broadcast add2.
Definition sub1 : T1 -> T1 -> result T1 := broadcast (fun a b => Ok (a - b)).
Definition sub2 : T2 -> T2 -> result T2 := broadcast sub1.
Definition sub3 : T3 -> T3 -> result T3 := broadcast sub2.

(** *** Matrix product [a @ c]

    [a] is (p x k), [c] is (k x q).  The inner sizes must agree. *)

Definition vecmat (row : T1) (c : T2) : T1 :=
  map (fun j => dot row (col j c)) (seq 0 (ncols c)).

Definition matmul (a c : T2) : result T2 :=
  if forallb (fun row => (length row =? length c)%nat) a
  then Ok (map (fun row => vecmat row c) a)
  else Err RuntimeError.

(** Batched matrix product of two 3-d tensors; the batch sizes broadcast. *)
Definition bmm : T3 -> T3 -> result T3 := broadcast matmul.

(** *** [Tensor.view]

    A view re-reads the row-major sequence of entries under a new shape.
    [reshape cnt n l] cuts the first [cnt * n] entries of [l] into [cnt]
    consecutive pieces of length [n]. *)

Definition reshape {A : Type} (cnt n : nat) (l : list A) : list (list A) :=
  map (fun i => firstn n (skipn (i * n) l)) (seq 0 cnt).

Definition chunk {A : Type} (n : nat) (l : list A) : list (list A) :=
  reshape (length l / n) n l.

Definition flat2 (x : T2) : list R := concat x.
Definition flat3 (x : T3) : list R := concat (concat x).

(** [flat.view(-1, d)]: the size standing for [-1] is inferred; it is an
    error when [d] is 0 or does not divide the number of entries. *)
Definition view2 (d : nat) (flat : list R) : result T2 :=
  if (d =? 0)%nat || negb (length flat mod d =? 0)%nat
  then Err RuntimeError
  else Ok (chunk d flat).

(** [flat.view(-1, p, d)] *)
Definition view3 (p d : nat) (flat : list R) : result T3 :=
  if (p * d =? 0)%nat || negb (length flat mod (p * d) =? 0)%nat
  then Err RuntimeError
  else Ok (chunk p (chunk d flat)).

(** [flat.view(1, -1, d)] *)
Definition view3_1 (d : nat) (flat : list R) : result T3 :=
  rows <- view2 d flat ;; Ok [rows].

(** [flat.view(1, n, d)]: every size is given, their product must be the
    number of entries. *)
Definition view3_exact1 (n d : nat) (flat : list R) : result T3 :=
  if (length flat =? n * d)%nat
  then Ok [reshape n d flat]
  else Err RuntimeError.

(** [w.transpose(0, 1).view(1, d, n)] for a matrix [w].  The transposed
    matrix is not contiguous, and the view can only add a leading dimension
    of size 1 to it: the shape of [w] has to be (n, d).  The one exception is
    a matrix with a single row or a single column, whose transpose has its
    entries in the stored order and is viewed like a flat tensor. *)
Definition transpose_view (d n : nat) (w : T2) : result T3 :=
  if (length w =? n)%nat && forallb (fun row => (length row =? d)%nat) w
  then Ok [transpose d w]
  else if ((length w =? 1)%nat || forallb (fun row => (length row =? 1)%nat) w)
          && (length (concat w) =? d * n)%nat
  then Ok [reshape d n (concat w)]
  else Err RuntimeError.

(** [x[:, :, 0]] and [x[:, 0, :]] *)
Definition index_last0 (x : T3) : result T2 :=
  mapM (mapM (fun row : T1 => match row with
                              | v :: _ => Ok v
                              | [] => Err IndexError
                              end)) x.

Definition index_mid0 (x : T3) : result T2 :=
  mapM (fun m : T2 => match m with
                      | row :: _ => Ok row
                      | [] => Err IndexError
                      end) x.

(** *** [torch.norm(x, dim=-1)]: the 2-norm along the last dimension *)

Definition norm_last2_keepdim (x : T2) : T2 := map (fun row => [norm2 row]) x.
Definition norm_last3 (x : T3) : T2 := map (map norm2) x.

(** [x ** 2] and unary minus, entry by entry. *)
Definition pow2_2 (x : T2) : T2 := map (map (fun v => v ^ 2)) x.
Definition neg2 (x : T2) : T2 := map (map Ropp) x.

(** *** [torch.renorm(x, p=2, dim=-1, maxnorm)]

    PyTorch: "Returns a tensor where each sub-tensor of input along dimension
    dim is normalized such that the p-norm of the sub-tensor is lower than the
    value maxnorm."  The sub-tensors along [dim] are the slices obtained by
    fixing the index of dimension [dim]; the norm of a slice runs over all the
    other dimensions.  With [dim=-1] on a tensor of shape (b, p, d) there are
    [d] slices [x[:, :, j]], each with [b * p] entries.  A slice whose norm
    exceeds [maxnorm] is multiplied by [maxnorm / (norm + 1e-7)]; the others
    are multiplied by 1. *)

Definition renorm_eps : R := / 10000000.

Definition renorm_factor (maxnorm n : R) : R :=
  if Rgt_dec n maxnorm then maxnorm / (n + renorm_eps) else 1.

Definition mul_last (factors : list R) (row : T1) : T1 :=
  map (fun p => fst p * snd p) (combine row factors).

Definition renorm_factors (maxnorm : R) (rows : T2) : list R :=
  map (fun j => renorm_factor maxnorm (norm2 (col j rows))) (seq 0 (ncols rows)).

Definition renorm (maxnorm : R) (x : T3) : T3 :=
  let factors := renorm_factors maxnorm (concat x) in
  map (map (mul_last factors)) x.

(** *** [functional.normalize(x, p=2, dim=1, eps=1e-12)]

    Every row [v] becomes [v / max(norm(v), eps)]. *)

Definition normalize_eps : R := / 1000000000000.

Definition normalize_row (v : T1) : T1 :=
  map (fun x => x / Rmax (norm2 v) normalize_eps) v.

Definition normalize (x : T2) : T2 := map normalize_row x.

(** ** [nn.Embedding]

    The table is the (num_embeddings x embedding_dim) matrix [weight].  When
    [max_norm] is set, a lookup first rescales, in place, every row it is
    about to read whose 2-norm exceeds [max_norm] (to
    [max_norm / (norm + 1e-7)] times itself), and then reads the rows. *)

Record Embedding : Type := mkEmbedding {
  weight : T2;
  max_norm : option R
}.

Definition clip_row (mx : R) (row : T1) : T1 :=
  let n := norm2 row in
  if Rgt_dec n mx then map (fun x => x * (mx / (n + renorm_eps))) row else row.

Fixpoint renorm_rows_from (i : nat) (mx : R) (ids : list nat) (w : T2) : T2 :=
  match w with
  | [] => []
  | row :: w' =>
      (if existsb (Nat.eqb i) ids then clip_row mx row else row)
        :: renorm_rows_from (S i) mx ids w'
  end.

Definition embedding_renorm_ (w : T2) (ids : list nat) (mx : R) : result T2 :=
  if forallb (fun i => (i <? length w)%nat) ids
  then Ok (renorm_rows_from 0 mx ids w)
  else Err IndexError.

Definition gather (w : T2) (ids : list nat) : result T2 :=
  mapM (fun i => match nth_error w i with
                 | Some row => Ok row
                 | None => Err IndexError
                 end) ids.

(** [emb(ids)]: the rows read, and the table after the lookup. *)
Definition embedding_forward (emb : Embedding) (ids : list nat)
    : result (T2 * Embedding) :=
  match max_norm emb with
  | Some mx =>
      w' <- embedding_renorm_ (weight emb) ids mx ;;
      rows <- gather w' ids ;;
      Ok (rows, mkEmbedding w' (Some mx))
  | None =>
      rows <- gather (weight emb) ids ;;
      Ok (rows, emb)
  end.

(** Calling an attribute that may be [None]. *)
Definition call_embedding (e : option Embedding) (ids : list nat)
    : result (T2 * Embedding) :=
  match e with
  | Some emb => embedding_forward emb ids
  | None => Err TypeError
  end.

(** [e.weight] when [e] may be [None]. *)
Definition get_weight (e : option Embedding) : result T2 :=
  match e with
  | Some emb => Ok (weight emb)
  | None => Err AttributeError
  end.

(** ** The regularizer of [BaseModule] *)

(** Modelled from the spec: the regularizer and
    [BaseModule.regularize_if_necessary], which hands the operands of a
    scoring call to it, are not part of the two source files.  The spec
    describes the collaborator as [accumulate] taking the tensors, "invoked
    with whatever operands were used in a given scoring call; accumulation is
    additive", and the call as made "once per call, unconditionally".  The
    regularizer is modelled by the sequence of operand triples reported to
    it, oldest first. *)
Definition RegCall : Type := (T3 * T3 * T3)%type.
Definition Regularizer : Type := list RegCall.

(** Modelled from the spec: one report of the operands [h], [r], [t]. *)
Definition regularizer_update (reg : Regularizer) (h r t : T3) : Regularizer :=
  reg ++ [(h, r, t)].

(** Batches of ids: rows of a [LongTensor] of shape (b, 3) or (b, 2). *)
Abbreviation Triple := (nat * nat * nat)%type.
Abbreviation Pair := (nat * nat)%type.

Definition column0 (batch : list Triple) : list nat := map (fun x => fst (fst x)) batch.
Definition column1 (batch : list Triple) : list nat := map (fun x => snd (fst x)) batch.
Definition column2 (batch : list Triple) : list nat := map (fun x => snd x) batch.

(** ** RESCAL *)

Module RESCAL.

Record model : Type := mkModel {
  num_entities : nat;
  num_relations : nat;
  embedding_dim : nat;
  entity_embeddings : option Embedding;
  relation_embeddings : option Embedding;
  regularizer : Regularizer
}.

Definition set_tables (self : model) (ent rel : option Embedding) : model :=
  mkModel (num_entities self) (num_relations self) (embedding_dim self)
          ent rel (regularizer self).

(** Modelled from the spec: [BaseModule.regularize_if_necessary], absent
    from the source files, reports the three operands to the regularizer. *)
Definition regularize_if_necessary (self : model) (h r t : T3) : model :=
  mkModel (num_entities self) (num_relations self) (embedding_dim self)
          (entity_embeddings self) (relation_embeddings self)
          (regularizer_update (regularizer self) h r t).

Section Init.
(** [nn.Embedding(n, d)] fills its table from the random generator; the
    generator is a parameter. *)
Variable rng : Type.
Variable new_embedding_weight : nat -> nat -> rng -> T2 * rng.

Definition init_empty_weights_ (self : model) (g : rng) : model * rng :=
  let '(ent, g1) :=
    match entity_embeddings self with
    | None =>
        let '(w, g') := new_embedding_weight (num_entities self) (embedding_dim self) g in
        (Some (mkEmbedding w None), g')
    | Some e => (Some e, g)
    end in
  let '(rel, g2) :=
    match relation_embeddings self with
    | None =>
        let '(w, g') := new_embedding_weight (num_relations self)
                          (embedding_dim self ^ 2) g1 in
        (Some (mkEmbedding w None), g')
    | Some e => (Some e, g1)
    end in
  (set_tables self ent rel, g2).
End Init.

Definition clear_weights_ (self : model) : model := set_tables self None None.

(** The value [h @ r @ t] of the three operands. *)
Definition interaction (h r t : T3) : result T3 :=
  hr <- bmm h r ;; bmm hr t.

(** What [score_hrt] returns for given operands: [(h @ r @ t)[:, :, 0]]. *)
Definition hrt_scores (h r t : T3) : result T2 :=
  scores <- interaction h r t ;; index_last0 scores.

Definition score_hrt (self : model) (hrt_batch : list Triple) : result (T2 * model) :=
  let d := embedding_dim self in
  '(h0, ent1) <- call_embedding (entity_embeddings self) (column0 hrt_batch) ;;
  h <- view3 1 d (flat2 h0) ;;
  '(r0, rel1) <- call_embedding (relation_embeddings self) (column1 hrt_batch) ;;
  r <- view3 d d (flat2 r0) ;;
  '(t0, ent2) <- embedding_forward ent1 (column2 hrt_batch) ;;
  t <- view3 d 1 (flat2 t0) ;;
  scores <- interaction h r t ;;
  let self' := regularize_if_necessary (set_tables self (Some ent2) (Some rel1)) h r t in
  out <- index_last0 scores ;;
  Ok (out, self').

Definition score_t (self : model) (hr_batch : list Pair) : result (T2 * model) :=
  let d := embedding_dim self in
  '(h0, ent1) <- call_embedding (entity_embeddings self) (map fst hr_batch) ;;
  h <- view3 1 d (flat2 h0) ;;
  '(r0, rel1) <- call_embedding (relation_embeddings self) (map snd hr_batch) ;;
  r <- view3 d d (flat2 r0) ;;
  t <- transpose_view d (num_entities self) (weight ent1) ;;
  scores <- interaction h r t ;;
  let self' := regularize_if_necessary (set_tables self (Some ent1) (Some rel1)) h r t in
  out <- index_mid0 scores ;;
  Ok (out, self').

(** In [score_h] the operand [h] is a view of the table itself, not a copy:
    it shares the table's storage, so it shows the rows as the later lookup of
    [t] leaves them.  The shape of the view is checked where the source takes
    it; its entries are read from the table after the lookups. *)
Definition score_h (self : model) (rt_batch : list Pair) : result (T2 * model) :=
  let d := embedding_dim self in
  w <- get_weight (entity_embeddings self) ;;
  _ <- view3_exact1 (num_entities self) d (flat2 w) ;;
  '(r0, rel1) <- call_embedding (relation_embeddings self) (map fst rt_batch) ;;
  r <- view3 d d (flat2 r0) ;;
  '(t0, ent1) <- call_embedding (entity_embeddings self) (map snd rt_batch) ;;
  t <- view3 d 1 (flat2 t0) ;;
  h <- view3_exact1 (num_entities self) d (flat2 (weight ent1)) ;;
  scores <- interaction h r t ;;
  let self' := regularize_if_necessary (set_tables self (Some ent1) (Some rel1)) h r t in
  out <- index_last0 scores ;;
  Ok (out, self').

End RESCAL.

(** ** TransR *)

Module TransR.

Record model : Type := mkModel {
  num_entities : nat;
  num_relations : nat;
  embedding_dim : nat;
  relation_embedding_dim : nat;
  scoring_fct_norm : Z;
  entity_embeddings : option Embedding;
  relation_embeddings : option Embedding;
  relation_projections : option Embedding;
  regularizer : Regularizer
}.

Definition set_tables (self : model) (ent rel proj : option Embedding) : model :=
  mkModel (num_entities self) (num_relations self) (embedding_dim self)
          (relation_embedding_dim self) (scoring_fct_norm self)
          ent rel proj (regularizer self).

Definition set_scoring_fct_norm (p : Z) (self : model) : model :=
  mkModel (num_entities self) (num_relations self) (embedding_dim self)
          (relation_embedding_dim self) p
          (entity_embeddings self) (relation_embeddings self)
          (relation_projections self) (regularizer self).

Definition set_regularizer (reg : Regularizer) (self : model) : model :=
  mkModel (num_entities self) (num_relations self) (embedding_dim self)
          (relation_embedding_dim self) (scoring_fct_norm self)
          (entity_embeddings self) (relation_embeddings self)
          (relation_projections self) reg.

Section Init.
(** [nn.Embedding(n, d)] fills its table from the random generator, and
    [embedding_xavier_uniform_] (module [poem.models.init], not among the
    source files) refills a table from it; both are parameters. *)
Variable rng : Type.
Variable new_embedding_weight : nat -> nat -> rng -> T2 * rng.
Variable embedding_xavier_uniform_ : Embedding -> rng -> Embedding * rng.

Definition init_empty_weights_ (self : model) (g : rng) : model * rng :=
  let '(ent, g1) :=
    match entity_embeddings self with
    | None =>
        let '(w, g') := new_embedding_weight (num_entities self) (embedding_dim self) g in
        let '(e, g'') := embedding_xavier_uniform_ (mkEmbedding w (Some 1)) g' in
        (Some e, g'')
    | Some e => (Some e, g)
    end in
  let '(rel, g2) :=
    match relation_embeddings self with
    | None =>
        let '(w, g') := new_embedding_weight (num_relations self)
                          (relation_embedding_dim self) g1 in
        let '(e, g'') := embedding_xavier_uniform_ (mkEmbedding w (Some 1)) g' in
        (* Initialise relation embeddings to unit length *)
        (Some (mkEmbedding (normalize (weight e)) (max_norm e)), g'')
    | Some e => (Some e, g1)
    end in
  let '(proj, g3) :=
    match relation_projections self with
    | None =>
        let '(w, g') := new_embedding_weight (num_relations self)
                          (relation_embedding_dim self * embedding_dim self) g2 in
        (Some (mkEmbedding w None), g')
    | Some e => (Some e, g2)
    end in
  (set_tables self ent rel proj, g3).
End Init.

Definition clear_weights_ (self : model) : model :=
  set_tables self None None (relation_projections self).

Section PostParameterUpdate.
(** [BaseModule.post_parameter_update] is not among the source files; what
    it does to the inherited state is a parameter. *)
Variable super_post_parameter_update : Regularizer -> Regularizer.

Definition post_parameter_update (self : model) : result model :=
  (* Make sure to call super first *)
  let self1 := set_regularizer (super_post_parameter_update (regularizer self)) self in
  (* Normalize embeddings of entities *)
  match entity_embeddings self1 with
  | Some e =>
      Ok (set_tables self1 (Some (mkEmbedding (normalize (weight e)) (max_norm e)))
            (relation_embeddings self1) (relation_projections self1))
  | None => Err AttributeError
  end.
End PostParameterUpdate.

(** [-torch.norm(x, dim=-1, keepdim=True) ** 2] and [-torch.norm(x, dim=-1) ** 2] *)
Definition neg_sq_norm2 (x : T2) : T2 := neg2 (pow2_2 (norm_last2_keepdim x)).
Definition neg_sq_norm3 (x : T3) : T2 := neg2 (pow2_2 (norm_last3 x)).

Definition score_hrt (self : model) (hrt_batch : list Triple) : result (T2 * model) :=
  let d_e := embedding_dim self in
  let d_r := relation_embedding_dim self in
  (* Get embeddings *)
  '(h0, ent1) <- call_embedding (entity_embeddings self) (column0 hrt_batch) ;;
  h <- view3 1 d_e (flat2 h0) ;;
  '(r, rel1) <- call_embedding (relation_embeddings self) (column1 hrt_batch) ;;
  '(t0, ent2) <- embedding_forward ent1 (column2 hrt_batch) ;;
  t <- view3 1 d_e (flat2 t0) ;;
  '(m0, proj1) <- call_embedding (relation_projections self) (column1 hrt_batch) ;;
  m_r <- view3 d_e d_r (flat2 m0) ;;
  (* Project entities *)
  hm <- bmm h m_r ;;
  h_bot <- view2 d_r (flat3 (renorm 1 hm)) ;;
  tm <- bmm t m_r ;;
  t_bot <- view2 d_r (flat3 (renorm 1 tm)) ;;
  s <- add2 h_bot r ;;
  res <- sub2 s t_bot ;;
  Ok (neg_sq_norm2 res, set_tables self (Some ent2) (Some rel1) (Some proj1)).

Definition score_t (self : model) (hr_batch : list Pair) : result (T2 * model) :=
  let d_e := embedding_dim self in
  let d_r := relation_embedding_dim self in
  (* Get embeddings *)
  '(h0, ent1) <- call_embedding (entity_embeddings self) (map fst hr_batch) ;;
  h <- view3 1 d_e (flat2 h0) ;;
  '(r0, rel1) <- call_embedding (relation_embeddings self) (map snd hr_batch) ;;
  r <- view3 1 d_r (flat2 r0) ;;
  t <- view3_1 d_e (flat2 (weight ent1)) ;;
  '(m0, proj1) <- call_embedding (relation_projections self) (map snd hr_batch) ;;
  m_r <- view3 d_e d_r (flat2 m0) ;;
  (* Project entities *)
  hm <- bmm h m_r ;;
  h_bot <- view3 1 d_r (flat3 (renorm 1 hm)) ;;
  tm <- bmm t m_r ;;
  t_bot <- view3 (num_entities self) d_r (flat3 (renorm 1 tm)) ;;
  s <- add3 h_bot r ;;
  res <- sub3 s t_bot ;;
  Ok (neg_sq_norm3 res, set_tables self (Some ent1) (Some rel1) (Some proj1)).

(** As in RESCAL, [h] in [score_h] is a view of the entity table and shows
    the rows as the later lookup of [t] leaves them. *)
Definition score_h (self : model) (rt_batch : list Pair) : result (T2 * model) :=
  let d_e := embedding_dim self in
  let d_r := relation_embedding_dim self in
  (* Get embeddings *)
  w <- get_weight (entity_embeddings self) ;;
  _ <- view3_1 d_e (flat2 w) ;;
  '(r0, rel1) <- call_embedding (relation_embeddings self) (map fst rt_batch) ;;
  r <- view3 1 d_r (flat2 r0) ;;
  '(t0, ent1) <- call_embedding (entity_embeddings self) (map snd rt_batch) ;;
  t <- view3 1 d_e (flat2 t0) ;;
  h <- view3_1 d_e (flat2 (weight ent1)) ;;
  '(m0, proj1) <- call_embedding (relation_projections self) (map fst rt_batch) ;;
  m_r <- view3 d_e d_r (flat2 m0) ;;
  (* Project entities *)
  hm <- bmm h m_r ;;
  h_bot <- view3 (num_entities self) d_r (flat3 (renorm 1 hm)) ;;
  tm <- bmm t m_r ;;
  t_bot <- view3 1 d_r (flat3 (renorm 1 tm)) ;;
  s <- add3 h_bot r ;;
  res <- sub3 s t_bot ;;
  Ok (neg_sq_norm3 res, set_tables self (Some ent1) (Some rel1) (Some proj1)).

End TransR.

(** ** Reference formulas the claims are stated with *)

Definition rmap {A B : Type} (f : A -> B) (c : result A) : result B :=
  match c with
  | Ok a => Ok (f a)
  | Err e => Err e
  end.

(** The bilinear form [sum_i sum_j h_i * M_ij * t_j] of degree [d]. *)
Definition bilinear_form (d : nat) (h : T1) (M : T2) (t : T1) : R :=
  sum_n (fun i => sum_n (fun j => nth i h 0 * nth j (nth i M []) 0 * nth j t 0) d) d.

(** Row [i] of a table. *)
Definition row (w : T2) (i : nat) : T1 := nth i w [].

(** The operands of the three RESCAL scoring methods, for an entity table
    [E] and a relation table [Rl]. *)
Definition row_operand (w : T2) (ids : list nat) : T3 :=
  map (fun i => [row w i]) ids.
Definition matrix_operand (d : nat) (w : T2) (ids : list nat) : T3 :=
  map (fun i => reshape d d (row w i)) ids.
Definition column_operand (w : T2) (ids : list nat) : T3 :=
  map (fun i => map (fun v => [v]) (row w i)) ids.

(** A RESCAL model whose tables are present and shaped as
    [RESCAL.init_empty_weights_] creates them: an entity table [E] of shape
    (num_entities, d) and a relation table [Rl] of rows of length d * d,
    neither with a [max_norm]. *)
Definition rescal_ready (self : RESCAL.model) (E Rl : T2) : Prop :=
  (0 < RESCAL.embedding_dim self)%nat
  /\ RESCAL.entity_embeddings self = Some (mkEmbedding E None)
  /\ RESCAL.relation_embeddings self = Some (mkEmbedding Rl None)
  /\ length E = RESCAL.num_entities self
  /\ Forall (fun r => length r = RESCAL.embedding_dim self) E
  /\ Forall (fun r => length r
                      = (RESCAL.embedding_dim self * RESCAL.embedding_dim self)%nat) Rl.

Definition ids_in (w : T2) (ids : list nat) : Prop :=
  Forall (fun i => (i < length w)%nat) ids.

(** What a change of [scoring_fct_norm] does to a result. *)
Definition with_scoring_fct_norm (p : Z) (res : T2 * TransR.model) : T2 * TransR.model :=
  (fst res, TransR.set_scoring_fct_norm p (snd res)).

(** ** Models the examples are run on *)

(** The spec's worked example: embedding_dim = relation_dim = 2,
    h = (1, 0), t = (0, 1), r = (0, 0) and the identity projection. *)
Definition example_model : TransR.model :=
  TransR.mkModel 2 1 2 2 1
    (Some (mkEmbedding [[1; 0]; [0; 1]] (Some 1)))
    (Some (mkEmbedding [[0; 0]] (Some 1)))
    (Some (mkEmbedding [[1; 0; 0; 1]] None))
    [].

(** A model on which the clip of the projected head is not a clip of its
    norm: embedding_dim = 1, relation_dim = 2, h = (1), t = (0), r = (0, 0)
    and the projection (1 1), so that h projects to (1, 1). *)
Definition long_projection_model : TransR.model :=
  TransR.mkModel 2 1 1 2 1
    (Some (mkEmbedding [[1]; [0]] (Some 1)))
    (Some (mkEmbedding [[0; 0]] (Some 1)))
    (Some (mkEmbedding [[1; 1]] None))
    [].

(** A model whose second entity row is longer than [max_norm]:
    embedding_dim = relation_dim = 1, entities (0) and (2), r = (0) and the
    projection (1/2). *)
Definition long_row_model : TransR.model :=
  TransR.mkModel 2 1 1 1 1
    (Some (mkEmbedding [[0]; [2]] (Some 1)))
    (Some (mkEmbedding [[0]] (Some 1)))
    (Some (mkEmbedding [[/ 2]] None))
    [].

(** A model whose entity rows are all within [max_norm]:
    embedding_dim = relation_dim = 1, entities (1) and (3/4), r = (0) and the
    projection (1). *)
Definition short_rows_model : TransR.model :=
  TransR.mkModel 2 1 1 1 1
    (Some (mkEmbedding [[1]; [3 / 4]] (Some 1)))
    (Some (mkEmbedding [[0]] (Some 1)))
    (Some (mkEmbedding [[1]] None))
    [].

(** A model for a batch of two triples: embedding_dim = relation_dim = 1,
    entities (1), (3/4) and (0), r = (0) and the projection (1). *)
Definition batch_model : TransR.model :=
  TransR.mkModel 3 1 1 1 1
    (Some (mkEmbedding [[1]; [3 / 4]; [0]] (Some 1)))
    (Some (mkEmbedding [[0]] (Some 1)))
    (Some (mkEmbedding [[1]] None))
    [].

(** A RESCAL model with embedding_dim = 1, entities (2) and (3) and one
    relation with the 1 x 1 matrix (5). *)
Definition rescal_example : RESCAL.model :=
  RESCAL.mkModel 2 1 1
    (Some (mkEmbedding [[2]; [3]] None))
    (Some (mkEmbedding [[5]] None))
    [].

(** ** Definitions for the further properties *)

(** A RESCAL model with another regularizer state. *)
Definition rescal_set_regularizer (reg : Regularizer) (self : RESCAL.model)
    : RESCAL.model :=
  RESCAL.mkModel (RESCAL.num_entities self) (RESCAL.num_relations self)
    (RESCAL.embedding_dim self) (RESCAL.entity_embeddings self)
    (RESCAL.relation_embeddings self) reg.

(** The scores of a result, without the model. *)
Definition scores_of {M : Type} (res : result (T2 * M)) : result T2 := rmap fst res.

(** What a lookup with ids [ids] makes of row [i] of a table. *)
Definition looked_up_row (mx : option R) (ids : list nat) (i : nat) (r : T1) : T1 :=
  match mx with
  | Some m => if existsb (Nat.eqb i) ids then clip_row m r else r
  | None => r
  end.

(** The [max_norm] of a table, when it has one, is not negative. *)
Definition max_norm_nonneg (e : Embedding) : Prop :=
  match max_norm e with
  | Some m => 0 <= m
  | None => True
  end.

(** Row [i] of a table is within the table's [max_norm]. *)
Definition row_within (e : Embedding) (i : nat) : Prop :=
  match max_norm e with
  | Some m => norm2 (row (weight e) i) <= m
  | None => True
  end.

(** Two tables of the same shape and [max_norm]. *)
Definition same_shape (e e' : Embedding) : Prop :=
  max_norm e' = max_norm e
  /\ map (@length R) (weight e') = map (@length R) (weight e).

(** A table that is present before and after, with the same shape and
    [max_norm], and unchanged if it has no [max_norm]. *)
Definition table_kept (t t' : option Embedding) : Prop :=
  exists e e', t = Some e /\ t' = Some e' /\ same_shape e e'
               /\ (max_norm e = None -> e' = e).

(** The tables of a TransR model that are present have a [max_norm] that is
    not negative, or none. *)
Definition table_max_norm_nonneg (t : option Embedding) : Prop :=
  match t with
  | Some e => max_norm_nonneg e
  | None => True
  end.

Definition transr_max_norms_nonneg (self : TransR.model) : Prop :=
  table_max_norm_nonneg (TransR.entity_embeddings self)
  /\ table_max_norm_nonneg (TransR.relation_embeddings self)
  /\ table_max_norm_nonneg (TransR.relation_projections self).

(** [long_row_model] after a lookup of its second entity row. *)
Definition long_row_model_clipped : TransR.model :=
  TransR.mkModel 2 1 1 1 1
    (Some (mkEmbedding [[0]; [2 * (1 / (2 + renorm_eps))]] (Some 1)))
    (Some (mkEmbedding [[0]] (Some 1)))
    (Some (mkEmbedding [[/ 2]] None))
    [].

(** Shapes: a matrix with [n] rows of length [d], and a batch of [b] such
    matrices. *)
Definition shape2 (n d : nat) (x : T2) : Prop :=
  length x = n /\ Forall (fun r => length r = d) x.

Definition shape3 (b p d : nat) (x : T3) : Prop :=
  length x = b /\ Forall (shape2 p d) x.

Definition table_shape (t : option Embedding) (n d : nat) : Prop :=
  exists e, t = Some e /\ shape2 n d (weight e).

(** A TransR model whose three tables are present with the shapes its
    sizes ask for: (num_entities, d_e), (num_relations, d_r) and
    (num_relations, d_e * d_r), all sizes positive. *)
Definition transr_ready (self : TransR.model) : Prop :=
  (0 < TransR.embedding_dim self)%nat
  /\ (0 < TransR.relation_embedding_dim self)%nat
  /\ (0 < TransR.num_entities self)%nat
  /\ table_shape (TransR.entity_embeddings self)
       (TransR.num_entities self) (TransR.embedding_dim self)
  /\ table_shape (TransR.relation_embeddings self)
       (TransR.num_relations self) (TransR.relation_embedding_dim self)
  /\ table_shape (TransR.relation_projections self)
       (TransR.num_relations self)
       (TransR.embedding_dim self * TransR.relation_embedding_dim self).

(** A RESCAL model with embedding_dim = 1, entities (2) and (3) and three
    relations with the 1 x 1 matrices (5), (7) and (12). *)
Definition rescal_three_relations : RESCAL.model :=
  RESCAL.mkModel 2 3 1
    (Some (mkEmbedding [[2]; [3]] None))
    (Some (mkEmbedding [[5]; [7]; [12]] None))
    [].

(** * Properties *)

(** ** The error monad *)

Lemma mapM_ok {A B : Type} (f : A -> result B) (g : A -> B) (l : list A) :
  (forall a, In a l -> f a = Ok (g a)) -> mapM f l = Ok (map g l).
Proof.
  induction l as [|a l IH]; intros H; simpl.
  - reflexivity.
  - rewrite (H a (or_introl eq_refl)). simpl.
    rewrite IH by (intros; apply H; now right). reflexivity.
Qed.


Lemma mapM_map {A A' B : Type} (f : A' -> result B) (g : A -> A') (l : list A) :
  mapM f (map g l) = mapM (fun a => f (g a)) l.
Proof.
  induction l as [|a l IH]; simpl; [reflexivity|]. now rewrite IH.
Qed.

Lemma mapM_ext {A B : Type} (f g : A -> result B) (l : list A) :
  (forall a, f a = g a) -> mapM f l = mapM g l.
Proof.
  intros H. induction l as [|a l IH]; simpl; [reflexivity|]. now rewrite H, IH.
Qed.

(** ** Scaling commutes with the tensor operations *)


















(** Whatever [score_hrt] returns is [hrt_scores] of the three operands it
    reports to the regularizer. *)
Lemma rescal_score_hrt_is_hrt_scores (self : RESCAL.model) (batch : list Triple)
    (out : T2) (self' : RESCAL.model) :
  RESCAL.score_hrt self batch = Ok (out, self') ->
  exists h r t,
    RESCAL.hrt_scores h r t = Ok out
    /\ RESCAL.regularizer self' = RESCAL.regularizer self ++ [(h, r, t)].
Proof.
  unfold RESCAL.score_hrt, RESCAL.hrt_scores.
  destruct (call_embedding (RESCAL.entity_embeddings self) (column0 batch))
    as [[h0 ent1]|]; cbn [bind]; [|discriminate].
  destruct (view3 1 (RESCAL.embedding_dim self) (flat2 h0)) as [h|];
    cbn [bind]; [|discriminate].
  destruct (call_embedding (RESCAL.relation_embeddings self) (column1 batch))
    as [[r0 rel1]|]; cbn [bind]; [|discriminate].
  destruct (view3 _ _ (flat2 r0)) as [r|]; cbn [bind]; [|discriminate].
  destruct (embedding_forward ent1 (column2 batch)) as [[t0 ent2]|];
    cbn [bind]; [|discriminate].
  destruct (view3 _ 1 (flat2 t0)) as [t|]; cbn [bind]; [|discriminate].
  destruct (RESCAL.interaction h r t) as [scores|] eqn:Hs; cbn [bind];
    [|discriminate].
  destruct (index_last0 scores) as [o|] eqn:Ho; cbn [bind]; [|discriminate].
  intros H. injection H as <- <-.
  exists h, r, t. rewrite Hs. cbn [bind]. split; [exact Ho | reflexivity].
Qed.


(** ** Views of well-shaped tensors *)

Lemma reshape_S {A : Type} (cnt n : nat) (l : list A) :
  reshape (S cnt) n l = firstn n l :: reshape cnt n (skipn n l).
Proof.
  unfold reshape. simpl. f_equal.
  rewrite <- seq_shift, map_map. apply map_ext. intros i.
  rewrite skipn_skipn. do 2 f_equal. lia.
Qed.

Lemma reshape_length {A : Type} (cnt n : nat) (l : list A) :
  length (reshape cnt n l) = cnt.
Proof. unfold reshape. now rewrite length_map, length_seq. Qed.

Lemma reshape_concat {A : Type} (n : nat) (rows : list (list A)) :
  Forall (fun r => length r = n) rows ->
  reshape (length rows) n (concat rows) = rows.
Proof.
  induction 1 as [|r rows Hr _ IH]; [reflexivity|].
  simpl length. rewrite reshape_S. simpl concat.
  rewrite firstn_app, skipn_app, Hr, Nat.sub_diag, firstn_all2, skipn_all2 by lia.
  simpl. rewrite app_nil_r. f_equal. exact IH.
Qed.

Lemma concat_reshape {A : Type} (cnt n : nat) (l : list A) :
  length l = (cnt * n)%nat -> concat (reshape cnt n l) = l.
Proof.
  revert l. induction cnt as [|cnt IH]; intros l Hl.
  - destruct l; [reflexivity | discriminate].
  - rewrite reshape_S. simpl. rewrite IH.
    + apply firstn_skipn.
    + rewrite length_skipn. lia.
Qed.

Lemma reshape_rows_length {A : Type} (cnt n : nat) (l : list A) :
  length l = (cnt * n)%nat ->
  Forall (fun r => length r = n) (reshape cnt n l).
Proof.
  revert l. induction cnt as [|cnt IH]; intros l Hl.
  - constructor.
  - rewrite reshape_S. constructor.
    + rewrite length_firstn. lia.
    + apply IH. rewrite length_skipn. lia.
Qed.

Lemma length_concat_rows {A : Type} (n : nat) (rows : list (list A)) :
  Forall (fun r => length r = n) rows ->
  length (concat rows) = (length rows * n)%nat.
Proof.
  induction 1 as [|r rows Hr _ IH]; [reflexivity|].
  simpl. rewrite length_app, IH, Hr. reflexivity.
Qed.

Lemma chunk_concat {A : Type} (n : nat) (rows : list (list A)) :
  (0 < n)%nat -> Forall (fun r => length r = n) rows ->
  chunk n (concat rows) = rows.
Proof.
  intros Hn H. unfold chunk.
  rewrite (length_concat_rows n rows H), Nat.div_mul by lia.
  now apply reshape_concat.
Qed.

Lemma chunk_concat_pieces {A : Type} (p n : nat) (rows : list (list A)) :
  (0 < n)%nat -> Forall (fun r => length r = (p * n)%nat) rows ->
  chunk n (concat rows) = concat (map (reshape p n) rows).
Proof.
  intros Hn H.
  assert (E : concat rows = concat (concat (map (reshape p n) rows))).
  { clear Hn. induction H as [|r rows Hr _ IH]; [reflexivity|].
    simpl. rewrite concat_app, <- IH, concat_reshape by exact Hr. reflexivity. }
  rewrite E. apply chunk_concat; [exact Hn|].
  clear E. induction H as [|r rows Hr _ IH]; simpl; [constructor|].
  apply Forall_app. split; [now apply reshape_rows_length | exact IH].
Qed.

Lemma view3_rows (p d : nat) (x : T2) :
  (0 < p)%nat -> (0 < d)%nat ->
  Forall (fun r => length r = (p * d)%nat) x ->
  view3 p d (flat2 x) = Ok (map (reshape p d) x).
Proof.
  intros Hp Hd H. unfold view3, flat2.
  rewrite (length_concat_rows (p * d) x H), Nat.Div0.mod_mul.
  replace (p * d =? 0)%nat with false by (symmetry; apply Nat.eqb_neq; nia).
  simpl. f_equal.
  rewrite (chunk_concat_pieces p d x Hd H).
  apply chunk_concat; [exact Hp|].
  apply Forall_forall. intros m Hm.
  apply in_map_iff in Hm. destruct Hm as [r [<- _]]. apply reshape_length.
Qed.

Lemma reshape_1 (d : nat) (v : T1) : length v = d -> reshape 1 d v = [v].
Proof.
  intros H. unfold reshape. simpl. now rewrite firstn_all2 by lia.
Qed.

Lemma reshape_col {A : Type} (v : list A) :
  reshape (length v) 1 v = map (fun x => [x]) v.
Proof.
  rewrite <- (reshape_concat 1 (map (fun x => [x]) v)) at 1.
  - rewrite length_map. f_equal. clear. induction v; simpl; congruence.
  - apply Forall_forall. intros r Hr. apply in_map_iff in Hr.
    destruct Hr as [x [<- _]]. reflexivity.
Qed.

Lemma view3_exact1_rows (n d : nat) (w : T2) :
  length w = n -> Forall (fun r => length r = d) w ->
  view3_exact1 n d (flat2 w) = Ok [w].
Proof.
  intros Hn H. unfold view3_exact1, flat2.
  rewrite (length_concat_rows d w H), Hn, Nat.eqb_refl.
  rewrite <- Hn. now rewrite reshape_concat.
Qed.

Lemma transpose_view_rows (d n : nat) (w : T2) :
  length w = n -> Forall (fun r => length r = d) w ->
  transpose_view d n w = Ok [transpose d w].
Proof.
  intros Hn H. unfold transpose_view.
  rewrite Hn, Nat.eqb_refl. simpl.
  replace (forallb _ w) with true; [reflexivity|].
  symmetry. apply forallb_forall. intros r Hr. apply Nat.eqb_eq.
  revert r Hr. now apply Forall_forall.
Qed.

(** ** Lookups in a table without [max_norm] *)

Lemma gather_rows (w : T2) (ids : list nat) :
  Forall (fun i => (i < length w)%nat) ids ->
  gather w ids = Ok (map (row w) ids).
Proof.
  intros H. unfold gather. apply mapM_ok. intros i Hi.
  rewrite Forall_forall in H. specialize (H i Hi).
  unfold row. now rewrite (nth_error_nth' w [] H).
Qed.

Lemma embedding_forward_plain (w : T2) (ids : list nat) :
  Forall (fun i => (i < length w)%nat) ids ->
  embedding_forward (mkEmbedding w None) ids
  = Ok (map (row w) ids, mkEmbedding w None).
Proof.
  intros H. unfold embedding_forward. simpl.
  now rewrite gather_rows.
Qed.

Lemma rows_length (d : nat) (w : T2) (ids : list nat) :
  Forall (fun r => length r = d) w ->
  Forall (fun i => (i < length w)%nat) ids ->
  Forall (fun r => length r = d) (map (row w) ids).
Proof.
  intros Hw Hi. apply Forall_forall. intros r Hr.
  apply in_map_iff in Hr. destruct Hr as [i [<- Hin]].
  rewrite Forall_forall in Hw, Hi. apply Hw. unfold row.
  apply nth_In. now apply Hi.
Qed.

(** ** Broadcasting two batches of the same size, or one batch against one
    operand *)

Lemma broadcast_zip {A B C : Type} (f : A -> B -> result C)
    (x : list A) (y : list B) :
  length x = length y ->
  broadcast f x y = mapM (fun p => f (fst p) (snd p)) (combine x y).
Proof.
  intros H. unfold broadcast.
  destruct x as [|a [|a' x]]; destruct y as [|c [|c' y]]; try discriminate;
    try reflexivity.
  rewrite H, Nat.eqb_refl. reflexivity.
Qed.

Lemma broadcast_one_l {A B C : Type} (f : A -> B -> result C) (a : A) (y : list B) :
  broadcast f [a] y = mapM (f a) y.
Proof. reflexivity. Qed.

Lemma broadcast_one_r {A B C : Type} (f : A -> B -> result C) (x : list A) (c : B) :
  broadcast f x [c] = mapM (fun a => f a c) x.
Proof. destruct x as [|a [|a' x]]; reflexivity. Qed.

Lemma combine_map_map {A B C : Type} (f : A -> B) (g : A -> C) (l : list A) :
  combine (map f l) (map g l) = map (fun a => (f a, g a)) l.
Proof. induction l as [|a l IH]; simpl; [reflexivity|]. now rewrite IH. Qed.

Lemma mapM_zip_ok {A B C D : Type} (f : B -> C -> result D) (u : A -> B)
    (v : A -> C) (g : A -> D) (l : list A) :
  (forall a, In a l -> f (u a) (v a) = Ok (g a)) ->
  broadcast f (map u l) (map v l) = Ok (map g l).
Proof.
  intros H. rewrite broadcast_zip by now rewrite !length_map.
  rewrite combine_map_map, mapM_map. simpl. now apply mapM_ok.
Qed.

(** ** Matrix products of well-shaped operands *)

Lemma ncols_reshape (cnt d : nat) (l : list R) :
  (0 < cnt)%nat -> length l = (cnt * d)%nat -> ncols (reshape cnt d l) = d.
Proof.
  intros Hc Hl. destruct cnt as [|cnt]; [lia|].
  rewrite reshape_S. simpl. rewrite length_firstn. lia.
Qed.

Lemma matmul_row (v : T1) (c : T2) :
  length v = length c -> matmul [v] c = Ok [vecmat v c].
Proof.
  intros H. unfold matmul. simpl. rewrite H, Nat.eqb_refl. reflexivity.
Qed.

Lemma matmul_rows (d : nat) (a c : T2) :
  Forall (fun r => length r = d) a -> length c = d ->
  matmul a c = Ok (map (fun r => vecmat r c) a).
Proof.
  intros Ha Hc. unfold matmul.
  replace (forallb _ a) with true; [reflexivity|].
  symmetry. apply forallb_forall. intros r Hr. apply Nat.eqb_eq.
  rewrite Forall_forall in Ha. rewrite (Ha r Hr). now symmetry.
Qed.

Lemma vecmat_length (v : T1) (c : T2) : length (vecmat v c) = ncols c.
Proof. unfold vecmat. now rewrite length_map, length_seq. Qed.

Lemma col0_column (v : T1) : col 0 (map (fun x => [x]) v) = v.
Proof. unfold col. rewrite map_map. simpl. apply map_id. Qed.

Lemma vecmat_column (u v : T1) :
  (0 < length v)%nat -> vecmat u (map (fun x => [x]) v) = [dot u v].
Proof.
  intros H. unfold vecmat. destruct v as [|x v]; [simpl in H; lia|].
  change (ncols (map (fun x0 => [x0]) (x :: v))) with 1%nat. simpl seq. simpl map at 1.
  now rewrite col0_column.
Qed.

Lemma row_length (d : nat) (w : T2) (i : nat) :
  Forall (fun r => length r = d) w -> (i < length w)%nat -> length (row w i) = d.
Proof.
  intros Hw Hi. rewrite Forall_forall in Hw. apply Hw. now apply nth_In.
Qed.

(** ** The operands of RESCAL *)

Lemma view_row_operand (d : nat) (w : T2) (ids : list nat) :
  (0 < d)%nat -> Forall (fun r => length r = d) w -> ids_in w ids ->
  view3 1 d (flat2 (map (row w) ids)) = Ok (row_operand w ids).
Proof.
  intros Hd Hw Hi. rewrite view3_rows; try lia.
  - f_equal. unfold row_operand. rewrite map_map. apply map_ext_in.
    intros i Hin. apply reshape_1. apply row_length; [exact Hw|].
    unfold ids_in in Hi. rewrite Forall_forall in Hi. now apply Hi.
  - rewrite Nat.mul_1_l. now apply rows_length.
Qed.

Lemma view_matrix_operand (d : nat) (w : T2) (ids : list nat) :
  (0 < d)%nat -> Forall (fun r => length r = (d * d)%nat) w -> ids_in w ids ->
  view3 d d (flat2 (map (row w) ids)) = Ok (matrix_operand d w ids).
Proof.
  intros Hd Hw Hi. rewrite view3_rows; try lia.
  - f_equal. unfold matrix_operand. now rewrite map_map.
  - now apply rows_length.
Qed.

Lemma view_column_operand (d : nat) (w : T2) (ids : list nat) :
  (0 < d)%nat -> Forall (fun r => length r = d) w -> ids_in w ids ->
  view3 d 1 (flat2 (map (row w) ids)) = Ok (column_operand w ids).
Proof.
  intros Hd Hw Hi. rewrite view3_rows; try lia.
  - f_equal. unfold column_operand. rewrite map_map. apply map_ext_in.
    intros i Hin.
    assert (L : length (row w i) = d).
    { apply row_length; [exact Hw|].
      unfold ids_in in Hi. rewrite Forall_forall in Hi. now apply Hi. }
    rewrite <- L at 1. apply reshape_col.
  - rewrite Nat.mul_1_r. now apply rows_length.
Qed.

Lemma rescal_set_tables_same (self : RESCAL.model) :
  RESCAL.set_tables self (RESCAL.entity_embeddings self)
    (RESCAL.relation_embeddings self) = self.
Proof. destruct self; reflexivity. Qed.

(** The score of one triple, as the source computes it: [(h @ M) . t]. *)
Lemma rescal_interaction_hrt (d : nat) (E Rl : T2) (batch : list Triple) :
  (0 < d)%nat ->
  Forall (fun r => length r = d) E ->
  Forall (fun r => length r = (d * d)%nat) Rl ->
  ids_in E (column0 batch) -> ids_in Rl (column1 batch) -> ids_in E (column2 batch) ->
  RESCAL.interaction (row_operand E (column0 batch))
    (matrix_operand d Rl (column1 batch)) (column_operand E (column2 batch))
  = Ok (map (fun x => [[dot (vecmat (row E (fst (fst x)))
                                    (reshape d d (row Rl (snd (fst x)))))
                            (row E (snd x))]]) batch).
Proof.
  intros Hd HE HR H0 H1 H2.
  unfold ids_in, column0, column1, column2 in *.
  rewrite Forall_map in H0, H1, H2. rewrite Forall_forall in H0, H1, H2.
  unfold RESCAL.interaction, row_operand, matrix_operand, column_operand,
    column0, column1, column2.
  rewrite !map_map. unfold bmm.
  rewrite (mapM_zip_ok matmul _ _
             (fun x => [vecmat (row E (fst (fst x)))
                               (reshape d d (row Rl (snd (fst x))))])).
  2:{ intros x Hx. apply matmul_row.
      rewrite reshape_length. apply row_length; [exact HE | now apply H0]. }
  cbn [bind].
  apply mapM_zip_ok. intros x Hx.
  assert (Lt : length (row E (snd x)) = d)
    by (apply row_length; [exact HE | now apply H2]).
  rewrite matmul_row.
  - rewrite vecmat_column by lia. reflexivity.
  - rewrite vecmat_length, length_map, Lt.
    apply ncols_reshape; [exact Hd|].
    apply row_length; [exact HR | now apply H1].
Qed.

Lemma index_last0_singletons {A : Type} (f : A -> R) (l : list A) :
  index_last0 (map (fun x => [[f x]]) l) = Ok (map (fun x => [f x]) l).
Proof.
  unfold index_last0. rewrite mapM_map. apply mapM_ok. reflexivity.
Qed.

Lemma rescal_score_hrt_eval (self : RESCAL.model) (E Rl : T2) (batch : list Triple) :
  rescal_ready self E Rl ->
  ids_in E (column0 batch) -> ids_in Rl (column1 batch) -> ids_in E (column2 batch) ->
  RESCAL.score_hrt self batch
  = Ok (map (fun x => [dot (vecmat (row E (fst (fst x)))
                              (reshape (RESCAL.embedding_dim self) (RESCAL.embedding_dim self)
                                 (row Rl (snd (fst x)))))
                           (row E (snd x))]) batch,
        RESCAL.regularize_if_necessary self
          (row_operand E (column0 batch))
          (matrix_operand (RESCAL.embedding_dim self) Rl (column1 batch))
          (column_operand E (column2 batch))).
Proof.
  intros (Hd & HeE & HeR & Hn & HE & HR) H0 H1 H2.
  unfold RESCAL.score_hrt. rewrite HeE, HeR. cbn [call_embedding].
  rewrite !embedding_forward_plain by assumption. cbn [bind].
  rewrite view_row_operand by assumption. cbn [bind].
  rewrite view_matrix_operand by assumption. cbn [bind].
  rewrite embedding_forward_plain by assumption. cbn [bind].
  rewrite view_column_operand by assumption. cbn [bind].
  rewrite rescal_interaction_hrt by assumption. cbn [bind].
  rewrite index_last0_singletons. cbn [bind].
  rewrite <- HeE, <- HeR, rescal_set_tables_same. reflexivity.
Qed.

(** ** Finite sums *)

Lemma sum_n_S (f : nat -> R) (n : nat) :
  sum_n f (S n) = f O + sum_n (fun i => f (S i)) n.
Proof.
  unfold sum_n. simpl. now rewrite <- seq_shift, map_map.
Qed.

Lemma sum_n_ext (f g : nat -> R) (n : nat) :
  (forall i, (i < n)%nat -> f i = g i) -> sum_n f n = sum_n g n.
Proof.
  intros H. unfold sum_n. f_equal. apply map_ext_in.
  intros i Hi. apply in_seq in Hi. apply H. lia.
Qed.

Lemma sum_n_plus (f g : nat -> R) (n : nat) :
  sum_n (fun i => f i + g i) n = sum_n f n + sum_n g n.
Proof.
  revert f g. induction n as [|n IH]; intros f g.
  - unfold sum_n. simpl. lra.
  - rewrite !sum_n_S, IH. lra.
Qed.

Lemma sum_n_scale_r (f : nat -> R) (c : R) (n : nat) :
  sum_n (fun i => f i * c) n = sum_n f n * c.
Proof.
  revert f. induction n as [|n IH]; intros f.
  - unfold sum_n. simpl. lra.
  - rewrite !sum_n_S, IH. lra.
Qed.

Lemma sum_n_zero (n : nat) : sum_n (fun _ => 0) n = 0.
Proof.
  induction n as [|n IH]; [reflexivity|]. rewrite sum_n_S, IH. lra.
Qed.

Lemma sum_n_exchange (f : nat -> nat -> R) (n m : nat) :
  sum_n (fun i => sum_n (fun j => f i j) m) n
  = sum_n (fun j => sum_n (fun i => f i j) n) m.
Proof.
  revert f. induction n as [|n IH]; intros f.
  - unfold sum_n at 1. simpl. symmetry. apply sum_n_zero.
  - rewrite sum_n_S, IH, <- sum_n_plus.
    apply sum_n_ext. intros j _. now rewrite sum_n_S.
Qed.

Lemma dot_sum (n : nat) (x y : T1) :
  length x = n -> length y = n ->
  dot x y = sum_n (fun k => nth k x 0 * nth k y 0) n.
Proof.
  revert x y. induction n as [|n IH]; intros [|u x] [|v y] Hx Hy; try discriminate.
  - reflexivity.
  - rewrite sum_n_S. simpl nth. rewrite <- IH by (simpl in *; lia). reflexivity.
Qed.

Lemma nth_col (i j : nat) (m : T2) : nth i (col j m) 0 = nth j (nth i m []) 0.
Proof.
  unfold col. revert i. induction m as [|r m IH]; intros [|i]; simpl.
  - now destruct j.
  - now destruct j.
  - reflexivity.
  - apply IH.
Qed.

Lemma nth_vecmat (j : nat) (v : T1) (c : T2) :
  (j < ncols c)%nat -> nth j (vecmat v c) 0 = dot v (col j c).
Proof.
  intros H. unfold vecmat.
  rewrite (nth_indep _ 0 (dot v (col 0 c))) by now rewrite length_map, length_seq.
  rewrite (map_nth (fun j0 => dot v (col j0 c))), seq_nth by exact H.
  reflexivity.
Qed.

(** The source's [(h @ M) . t] is the bilinear form of [h], [M] and [t]. *)
Lemma dot_vecmat_bilinear (d : nat) (h : T1) (M : T2) (t : T1) :
  length h = d -> length M = d -> ncols M = d -> length t = d ->
  dot (vecmat h M) t = bilinear_form d h M t.
Proof.
  intros Hh HM Hc Ht. unfold bilinear_form.
  rewrite (dot_sum d) by (rewrite ?vecmat_length; assumption).
  rewrite sum_n_exchange. apply sum_n_ext. intros j Hj.
  rewrite nth_vecmat by lia.
  rewrite (dot_sum d) by (unfold col; rewrite ?length_map; assumption).
  rewrite <- sum_n_scale_r. apply sum_n_ext. intros i Hi.
  now rewrite nth_col.
Qed.

(** C2. On a RESCAL model with tables of the configured shapes and ids
    inside the tables, [score_hrt] reads [h] as a batch of 1 x d rows, [r] as a
    batch of d x d matrices and [t] as a batch of d x 1 columns, and returns
    one row per triple holding the single number
    [sum_i sum_j h_i * R_ij * t_j], the value of the bilinear form
    [h @ R @ t]: the result has shape (batch, 1). *)
Theorem rescal_score_hrt_bilinear (self : RESCAL.model) (E Rl : T2)
    (batch : list Triple) :
  rescal_ready self E Rl ->
  ids_in E (column0 batch) -> ids_in Rl (column1 batch) -> ids_in E (column2 batch) ->
  let d := RESCAL.embedding_dim self in
  let h := row_operand E (column0 batch) in
  let r := matrix_operand d Rl (column1 batch) in
  let t := column_operand E (column2 batch) in
  exists scores self',
    RESCAL.score_hrt self batch = Ok (scores, self')
    /\ RESCAL.regularizer self' = RESCAL.regularizer self ++ [(h, r, t)]
    /\ RESCAL.hrt_scores h r t = Ok scores
    /\ length scores = length batch
    /\ scores = map (fun x => [bilinear_form d (row E (fst (fst x)))
                                 (reshape d d (row Rl (snd (fst x))))
                                 (row E (snd x))]) batch.
Proof.
  intros Hready H0 H1 H2 d h r t.
  pose proof Hready as (Hd & HeE & HeR & Hn & HE & HR).
  assert (Eq : map (fun x : Triple =>
                      [dot (vecmat (row E (fst (fst x)))
                              (reshape d d (row Rl (snd (fst x))))) (row E (snd x))]) batch
               = map (fun x : Triple =>
                        [bilinear_form d (row E (fst (fst x)))
                           (reshape d d (row Rl (snd (fst x)))) (row E (snd x))]) batch).
  { apply map_ext_in. intros x Hx. f_equal.
    unfold ids_in, column0, column1, column2 in H0, H1, H2.
    rewrite Forall_map in H0, H1, H2. rewrite Forall_forall in H0, H1, H2.
    apply dot_vecmat_bilinear.
    - apply row_length; [exact HE | now apply H0].
    - apply reshape_length.
    - apply ncols_reshape; [exact Hd|]. apply row_length; [exact HR | now apply H1].
    - apply row_length; [exact HE | now apply H2]. }
  exists (map (fun x : Triple =>
                 [bilinear_form d (row E (fst (fst x)))
                    (reshape d d (row Rl (snd (fst x)))) (row E (snd x))]) batch).
  exists (RESCAL.regularize_if_necessary self h r t).
  split; [|split; [|split; [|split]]].
  - rewrite (rescal_score_hrt_eval self E Rl batch) by assumption.
    subst d h r t. now rewrite Eq.
  - reflexivity.
  - subst d h r t. unfold RESCAL.hrt_scores.
    rewrite rescal_interaction_hrt by assumption. cbn [bind].
    rewrite index_last0_singletons. now rewrite Eq.
  - now rewrite length_map.
  - reflexivity.
Qed.

(** ** RESCAL against the whole entity table *)

Lemma map_nth_seq (v : T1) : map (fun i => nth i v 0) (seq 0 (length v)) = v.
Proof.
  induction v as [|x v IH]; [reflexivity|].
  simpl. f_equal. rewrite <- seq_shift, map_map. exact IH.
Qed.

Lemma col_transpose (d : nat) (w : T2) (j : nat) :
  Forall (fun r => length r = d) w -> (j < length w)%nat ->
  col j (transpose d w) = row w j.
Proof.
  intros Hw Hj. unfold col, transpose. rewrite map_map.
  rewrite <- (row_length d w j Hw Hj).
  rewrite <- (map_nth_seq (row w j)) at 2.
  apply map_ext. intros i. apply nth_col.
Qed.

Lemma ncols_transpose (d : nat) (w : T2) :
  (0 < d)%nat -> ncols (transpose d w) = length w.
Proof.
  intros Hd. unfold transpose. destruct d as [|d]; [lia|].
  simpl. unfold col. apply length_map.
Qed.

Lemma vecmat_transpose (d : nat) (w : T2) (v : T1) :
  (0 < d)%nat -> Forall (fun r => length r = d) w ->
  vecmat v (transpose d w) = map (fun e => dot v (row w e)) (seq 0 (length w)).
Proof.
  intros Hd Hw. unfold vecmat. rewrite ncols_transpose by exact Hd.
  apply map_ext_in. intros j Hj. apply in_seq in Hj.
  rewrite col_transpose by (try exact Hw; lia). reflexivity.
Qed.

Lemma rescal_interaction_t (d : nat) (E Rl : T2) (batch : list Pair) :
  (0 < d)%nat ->
  Forall (fun r => length r = d) E ->
  Forall (fun r => length r = (d * d)%nat) Rl ->
  ids_in E (map fst batch) -> ids_in Rl (map snd batch) ->
  RESCAL.interaction (row_operand E (map fst batch))
    (matrix_operand d Rl (map snd batch)) [transpose d E]
  = Ok (map (fun x => [map (fun e => dot (vecmat (row E (fst x))
                                            (reshape d d (row Rl (snd x))))
                                         (row E e))
                           (seq 0 (length E))]) batch).
Proof.
  intros Hd HE HR H0 H1.
  unfold ids_in in *.
  rewrite Forall_map in H0, H1. rewrite Forall_forall in H0, H1.
  unfold RESCAL.interaction, row_operand, matrix_operand.
  rewrite !map_map. unfold bmm.
  rewrite (mapM_zip_ok matmul _ _
             (fun x => [vecmat (row E (fst x)) (reshape d d (row Rl (snd x)))])).
  2:{ intros x Hx. apply matmul_row.
      rewrite reshape_length. apply row_length; [exact HE | now apply H0]. }
  cbn [bind]. rewrite broadcast_one_r, mapM_map.
  apply mapM_ok. intros x Hx.
  rewrite matmul_row.
  - now rewrite vecmat_transpose.
  - rewrite vecmat_length. unfold transpose. rewrite length_map, length_seq.
    apply ncols_reshape; [exact Hd|].
    apply row_length; [exact HR | now apply H1].
Qed.

Lemma index_mid0_singletons {A : Type} (f : A -> T1) (l : list A) :
  index_mid0 (map (fun x => [f x]) l) = Ok (map f l).
Proof.
  unfold index_mid0. rewrite mapM_map. apply mapM_ok. reflexivity.
Qed.

Lemma rescal_score_t_eval (self : RESCAL.model) (E Rl : T2) (batch : list Pair) :
  rescal_ready self E Rl ->
  ids_in E (map fst batch) -> ids_in Rl (map snd batch) ->
  RESCAL.score_t self batch
  = Ok (map (fun x => map (fun e =>
                 dot (vecmat (row E (fst x))
                        (reshape (RESCAL.embedding_dim self) (RESCAL.embedding_dim self)
                           (row Rl (snd x))))
                     (row E e)) (seq 0 (RESCAL.num_entities self))) batch,
        RESCAL.regularize_if_necessary self
          (row_operand E (map fst batch))
          (matrix_operand (RESCAL.embedding_dim self) Rl (map snd batch))
          [transpose (RESCAL.embedding_dim self) E]).
Proof.
  intros (Hd & HeE & HeR & Hn & HE & HR) H0 H1.
  unfold RESCAL.score_t. rewrite HeE, HeR. cbn [call_embedding].
  rewrite !embedding_forward_plain by assumption. cbn [bind].
  rewrite view_row_operand by assumption. cbn [bind].
  rewrite view_matrix_operand by assumption. cbn [bind weight].
  rewrite transpose_view_rows by assumption. cbn [bind].
  rewrite rescal_interaction_t by assumption. cbn [bind].
  rewrite index_mid0_singletons. cbn [bind].
  rewrite <- HeE, <- HeR, rescal_set_tables_same, Hn. reflexivity.
Qed.

Lemma rescal_interaction_h (d : nat) (E Rl : T2) (batch : list Pair) :
  (0 < d)%nat ->
  Forall (fun r => length r = d) E ->
  Forall (fun r => length r = (d * d)%nat) Rl ->
  ids_in Rl (map fst batch) -> ids_in E (map snd batch) ->
  RESCAL.interaction [E] (matrix_operand d Rl (map fst batch))
    (column_operand E (map snd batch))
  = Ok (map (fun x => map (fun h => [dot (vecmat h (reshape d d (row Rl (fst x))))
                                         (row E (snd x))]) E) batch).
Proof.
  intros Hd HE HR H0 H1.
  unfold ids_in in *.
  rewrite Forall_map in H0, H1. rewrite Forall_forall in H0, H1.
  unfold RESCAL.interaction, matrix_operand, column_operand.
  rewrite !map_map. unfold bmm.
  rewrite broadcast_one_l, mapM_map.
  rewrite (mapM_ok _ (fun x => map (fun h => vecmat h (reshape d d (row Rl (fst x)))) E)).
  2:{ intros x Hx. apply (matmul_rows d); [exact HE | apply reshape_length]. }
  cbn [bind].
  apply mapM_zip_ok. intros x Hx.
  assert (Lt : length (row E (snd x)) = d)
    by (apply row_length; [exact HE | now apply H1]).
  rewrite (matmul_rows d).
  - f_equal. rewrite map_map. apply map_ext. intros h.
    apply vecmat_column. lia.
  - apply Forall_forall. intros u Hu. apply in_map_iff in Hu.
    destruct Hu as [h [<- _]]. rewrite vecmat_length.
    apply ncols_reshape; [exact Hd|].
    apply row_length; [exact HR | now apply H0].
  - now rewrite length_map.
Qed.

Lemma index_last0_columns {A B : Type} (f : A -> B -> R) (g : A -> list B) (l : list A) :
  index_last0 (map (fun x => map (fun h => [f x h]) (g x)) l)
  = Ok (map (fun x => map (fun h => f x h) (g x)) l).
Proof.
  unfold index_last0. rewrite mapM_map. apply mapM_ok. intros x _.
  rewrite mapM_map. apply mapM_ok. reflexivity.
Qed.

Lemma rescal_score_h_eval (self : RESCAL.model) (E Rl : T2) (batch : list Pair) :
  rescal_ready self E Rl ->
  ids_in Rl (map fst batch) -> ids_in E (map snd batch) ->
  RESCAL.score_h self batch
  = Ok (map (fun x => map (fun h =>
                 dot (vecmat h
                        (reshape (RESCAL.embedding_dim self) (RESCAL.embedding_dim self)
                           (row Rl (fst x))))
                     (row E (snd x))) E) batch,
        RESCAL.regularize_if_necessary self [E]
          (matrix_operand (RESCAL.embedding_dim self) Rl (map fst batch))
          (column_operand E (map snd batch))).
Proof.
  intros (Hd & HeE & HeR & Hn & HE & HR) H0 H1.
  unfold RESCAL.score_h. rewrite HeE, HeR. cbn [call_embedding get_weight bind weight].
  rewrite view3_exact1_rows by (try assumption; now symmetry). cbn [bind].
  rewrite !embedding_forward_plain by assumption. cbn [bind].
  rewrite view_matrix_operand by assumption. cbn [bind].
  rewrite view_column_operand by assumption. cbn [bind weight].
  rewrite view3_exact1_rows by (try assumption; now symmetry). cbn [bind].
  rewrite rescal_interaction_h by assumption. cbn [bind].
  rewrite (index_last0_columns
             (fun x h => dot (vecmat h (reshape _ _ (row Rl (fst x)))) (row E (snd x)))
             (fun _ => E)).
  cbn [bind].
  rewrite <- HeE, <- HeR, rescal_set_tables_same. reflexivity.
Qed.

Lemma nth_map_seq (f : nat -> R) (n k : nat) :
  (k < n)%nat -> nth k (map f (seq 0 n)) 0 = f k.
Proof.
  intros H. rewrite (nth_indep _ 0 (f O)) by now rewrite length_map, length_seq.
  now rewrite map_nth, seq_nth.
Qed.

Lemma nth_map_row (f : T1 -> R) (w : T2) (k : nat) :
  (k < length w)%nat -> nth k (map f w) 0 = f (row w k).
Proof.
  intros H. rewrite (nth_indep _ 0 (f [])) by now rewrite length_map.
  unfold row. now rewrite map_nth.
Qed.

(** X20. RESCAL's three scoring modes agree: on a batch of valid
    triples, the score [score_hrt] gives to the k-th triple (h, r, t) is the
    entry in column t of row k of [score_t] on the (h, r) pairs, and the entry
    in column h of row k of [score_h] on the (r, t) pairs. *)
Theorem rescal_modes_consistent (self : RESCAL.model) (E Rl : T2) (batch : list Triple) :
  rescal_ready self E Rl ->
  ids_in E (column0 batch) -> ids_in Rl (column1 batch) -> ids_in E (column2 batch) ->
  exists s_hrt s_t s_h m1 m2 m3,
    RESCAL.score_hrt self batch = Ok (s_hrt, m1)
    /\ RESCAL.score_t self (map (fun x => (fst (fst x), snd (fst x))) batch) = Ok (s_t, m2)
    /\ RESCAL.score_h self (map (fun x => (snd (fst x), snd x)) batch) = Ok (s_h, m3)
    /\ forall k x, nth_error batch k = Some x ->
         nth_error s_hrt k = Some [nth (snd x) (nth k s_t []) 0]
         /\ nth_error s_hrt k = Some [nth (fst (fst x)) (nth k s_h []) 0].
Proof.
  intros Hready H0 H1 H2.
  pose proof Hready as (Hd & HeE & HeR & Hn & HE & HR).
  unfold column0, column1, column2 in H0, H1, H2.
  do 6 eexists. split; [|split; [|split]].
  - now apply (rescal_score_hrt_eval self E Rl).
  - apply (rescal_score_t_eval self E Rl); [exact Hready | |];
      now rewrite map_map.
  - apply (rescal_score_h_eval self E Rl); [exact Hready | |];
      now rewrite map_map.
  - intros k x Hk. unfold ids_in in H0, H2.
    rewrite Forall_map in H0, H2. rewrite Forall_forall in H0, H2.
    pose proof (nth_error_In _ _ Hk) as Hin.
    rewrite !map_map.
    rewrite (map_nth_error _ _ _ Hk).
    split; f_equal; f_equal.
    + erewrite (nth_error_nth _ _ []) by (apply map_nth_error; exact Hk).
      cbn [fst snd]. rewrite nth_map_seq; [reflexivity|].
      rewrite <- Hn. now apply H2.
    + erewrite (nth_error_nth _ _ []) by (apply map_nth_error; exact Hk).
      cbn [fst snd]. rewrite nth_map_row; [reflexivity|]. now apply H0.
Qed.

(** C5. On a RESCAL model with tables of the configured shapes and ids
    inside the tables, each of [score_hrt], [score_t] and [score_h] reports to
    the regularizer exactly once, with the operands [h], [R] and [t] whose
    product it returns, and changes nothing else: the model after the call is
    the model before it with the one triple [(h, R, t)] appended to what the
    regularizer has received. *)
Theorem rescal_scoring_reports_operands_once (self : RESCAL.model) (E Rl : T2) :
  rescal_ready self E Rl ->
  let d := RESCAL.embedding_dim self in
  let after h r t :=
    RESCAL.mkModel (RESCAL.num_entities self) (RESCAL.num_relations self)
      (RESCAL.embedding_dim self) (RESCAL.entity_embeddings self)
      (RESCAL.relation_embeddings self)
      (RESCAL.regularizer self ++ [(h, r, t)]) in
  (forall batch : list Triple,
     ids_in E (column0 batch) -> ids_in Rl (column1 batch) -> ids_in E (column2 batch) ->
     let h := row_operand E (column0 batch) in
     let r := matrix_operand d Rl (column1 batch) in
     let t := column_operand E (column2 batch) in
     exists prod scores,
       RESCAL.interaction h r t = Ok prod /\ index_last0 prod = Ok scores
       /\ RESCAL.score_hrt self batch = Ok (scores, after h r t))
  /\ (forall batch : list Pair,
     ids_in E (map fst batch) -> ids_in Rl (map snd batch) ->
     let h := row_operand E (map fst batch) in
     let r := matrix_operand d Rl (map snd batch) in
     let t := [transpose d E] in
     exists prod scores,
       RESCAL.interaction h r t = Ok prod /\ index_mid0 prod = Ok scores
       /\ RESCAL.score_t self batch = Ok (scores, after h r t))
  /\ (forall batch : list Pair,
     ids_in Rl (map fst batch) -> ids_in E (map snd batch) ->
     let h := [E] in
     let r := matrix_operand d Rl (map fst batch) in
     let t := column_operand E (map snd batch) in
     exists prod scores,
       RESCAL.interaction h r t = Ok prod /\ index_last0 prod = Ok scores
       /\ RESCAL.score_h self batch = Ok (scores, after h r t)).
Proof.
  intros Hready d after.
  pose proof Hready as (Hd & HeE & HeR & Hn & HE & HR).
  split; [|split].
  - intros batch H0 H1 H2 h r t. subst h r t d after.
    do 2 eexists. split; [|split].
    + now apply rescal_interaction_hrt.
    + apply index_last0_singletons.
    + now rewrite (rescal_score_hrt_eval self E Rl).
  - intros batch H0 H1 h r t. subst h r t d after.
    do 2 eexists. split; [|split].
    + now apply rescal_interaction_t.
    + apply index_mid0_singletons.
    + rewrite (rescal_score_t_eval self E Rl) by assumption.
      now rewrite Hn.
  - intros batch H0 H1 h r t. subst h r t d after.
    do 2 eexists. split; [|split].
    + now apply rescal_interaction_h.
    + apply (index_last0_columns
               (fun x h => dot (vecmat h (reshape _ _ (row Rl (fst x)))) (row E (snd x)))
               (fun _ => E)).
    + now rewrite (rescal_score_h_eval self E Rl).
Qed.

(** ** Norms *)

Lemma sum_sq_nonneg (v : T1) : 0 <= sum_sq v.
Proof.
  unfold sum_sq. induction v as [|x v IH]; simpl; [lra | nra].
Qed.

Lemma norm2_nonneg (v : T1) : 0 <= norm2 v.
Proof. apply sqrt_pos. Qed.

Lemma norm2_sq (v : T1) : norm2 v * norm2 v = sum_sq v.
Proof. apply sqrt_sqrt, sum_sq_nonneg. Qed.

Lemma sum_sq_scale (c : R) (v : T1) : sum_sq (scale1 c v) = c * c * sum_sq v.
Proof.
  unfold sum_sq, scale1. induction v as [|x v IH]; simpl; [lra|].
  rewrite IH. lra.
Qed.

Lemma norm2_scale (c : R) (v : T1) : 0 <= c -> norm2 (scale1 c v) = c * norm2 v.
Proof.
  intros Hc. unfold norm2. rewrite sum_sq_scale.
  rewrite sqrt_mult_alt by nra. now rewrite sqrt_square.
Qed.

Lemma norm2_single (a : R) : 0 <= a -> norm2 [a] = a.
Proof.
  intros Ha. unfold norm2, sum_sq. simpl. rewrite Rplus_0_r. now apply sqrt_square.
Qed.

Lemma nth_sq_le_sum_sq (j : nat) (v : T1) : nth j v 0 * nth j v 0 <= sum_sq v.
Proof.
  revert j. induction v as [|x v IH]; intros [|j]; simpl.
  - unfold sum_sq. simpl. lra.
  - unfold sum_sq. simpl. lra.
  - pose proof (sum_sq_nonneg v). unfold sum_sq in *. simpl. lra.
  - specialize (IH j). pose proof (Rle_0_sqr x). unfold Rsqr, sum_sq in *.
    simpl. lra.
Qed.

(** ** [torch.renorm] *)

Lemma renorm_eps_pos : 0 < renorm_eps.
Proof. unfold renorm_eps. lra. Qed.

Lemma renorm_factor_nonneg (mx n : R) : 0 <= mx -> 0 <= renorm_factor mx n.
Proof.
  intros Hmx. unfold renorm_factor. destruct (Rgt_dec n mx) as [H|H]; [|lra].
  pose proof renorm_eps_pos. apply Rmult_le_pos; [exact Hmx|].
  left. apply Rinv_0_lt_compat. lra.
Qed.

(** After the rescaling the norm of a slice is within [maxnorm]. *)
Lemma renorm_factor_bound (mx n : R) :
  0 <= mx -> 0 <= n -> renorm_factor mx n * n <= mx.
Proof.
  intros Hmx Hn. unfold renorm_factor. destruct (Rgt_dec n mx) as [H|H]; [|lra].
  pose proof renorm_eps_pos as He.
  unfold Rdiv. rewrite Rmult_assoc.
  assert (B : / (n + renorm_eps) * n <= 1).
  { apply (Rmult_le_reg_l (n + renorm_eps)); [lra|].
    rewrite <- Rmult_assoc, Rinv_r by lra. lra. }
  assert (P : 0 <= / (n + renorm_eps) * n).
  { apply Rmult_le_pos; [|exact Hn]. left. apply Rinv_0_lt_compat. lra. }
  nra.
Qed.

(** The only division [torch.renorm] performs has a divisor above
    [maxnorm]. *)
Lemma renorm_factor_cases (mx n : R) :
  (n <= mx /\ renorm_factor mx n = 1)
  \/ (mx < n /\ renorm_factor mx n = mx / (n + renorm_eps) /\ mx < n + renorm_eps).
Proof.
  unfold renorm_factor. pose proof renorm_eps_pos.
  destruct (Rgt_dec n mx) as [H'|H']; [right | left]; repeat split; lra.
Qed.

Lemma nth_mul_last (factors : list R) (v : T1) (j : nat) :
  nth j (mul_last factors v) 0 = nth j v 0 * nth j factors 0.
Proof.
  unfold mul_last. revert factors j.
  induction v as [|x v IH]; intros [|f factors] [|j]; simpl;
    try lra; try (destruct j; simpl; lra).
  apply IH.
Qed.

Lemma mul_last_length (factors : list R) (v : T1) :
  (length (mul_last factors v) <= length factors)%nat.
Proof.
  unfold mul_last. rewrite length_map, length_combine. lia.
Qed.

Lemma mul_last_length_full (factors : list R) (v : T1) :
  length v = length factors -> length (mul_last factors v) = length v.
Proof.
  intros H. unfold mul_last. rewrite length_map, length_combine. lia.
Qed.

Lemma mul_last_ones (factors : list R) (v : T1) :
  (length v <= length factors)%nat ->
  (forall j, (j < length factors)%nat -> nth j factors 0 = 1) ->
  mul_last factors v = v.
Proof.
  unfold mul_last. revert factors.
  induction v as [|x v IH]; intros [|f factors] Hl Hf; simpl in *; try reflexivity;
    try lia.
  f_equal.
  - rewrite (Hf O) by lia. lra.
  - apply IH; [lia|]. intros j Hj. apply (Hf (S j)). lia.
Qed.

Lemma col_mul_last (factors : list R) (rows : T2) (j : nat) :
  col j (map (mul_last factors) rows) = scale1 (nth j factors 0) (col j rows).
Proof.
  unfold col, scale1. rewrite !map_map. apply map_ext.
  intros r. rewrite nth_mul_last. lra.
Qed.

Lemma renorm_factors_length (mx : R) (rows : T2) :
  length (renorm_factors mx rows) = ncols rows.
Proof. unfold renorm_factors. now rewrite length_map, length_seq. Qed.

Lemma nth_renorm_factors (mx : R) (rows : T2) (j : nat) :
  (j < ncols rows)%nat ->
  nth j (renorm_factors mx rows) 0 = renorm_factor mx (norm2 (col j rows)).
Proof.
  intros H. unfold renorm_factors.
  rewrite (nth_indep _ 0 (renorm_factor mx (norm2 (col 0 rows))))
    by now rewrite length_map, length_seq.
  now rewrite (map_nth (fun j0 => renorm_factor mx (norm2 (col j0 rows)))), seq_nth.
Qed.

Lemma ncols_mul_last (mx : R) (rows : T2) :
  ncols (map (mul_last (renorm_factors mx rows)) rows) = ncols rows.
Proof.
  destruct rows as [|r rows]; [reflexivity|].
  cbn [map ncols]. apply mul_last_length_full.
  now rewrite renorm_factors_length.
Qed.

Lemma concat_renorm (mx : R) (x : T3) :
  concat (renorm mx x) = map (mul_last (renorm_factors mx (concat x))) (concat x).
Proof. unfold renorm. symmetry. apply concat_map. Qed.

(** A tensor all of whose slices along the last dimension are within
    [maxnorm], and whose rows are no longer than the first one, is left as it
    is. *)
Lemma renorm_within (mx : R) (x : T3) :
  (forall j, (j < ncols (concat x))%nat -> norm2 (col j (concat x)) <= mx) ->
  Forall (fun r => (length r <= ncols (concat x))%nat) (concat x) ->
  renorm mx x = x.
Proof.
  intros Hn Hl. unfold renorm.
  assert (E : forall r, In r (concat x) ->
                mul_last (renorm_factors mx (concat x)) r = r).
  { intros r Hr. apply mul_last_ones.
    - rewrite renorm_factors_length. rewrite Forall_forall in Hl. now apply Hl.
    - intros j Hj. rewrite renorm_factors_length in Hj.
      rewrite nth_renorm_factors by exact Hj.
      unfold renorm_factor. destruct (Rgt_dec _ mx) as [H|H]; [|reflexivity].
      specialize (Hn j Hj). lra. }
  transitivity (map (fun m : T2 => m) x); [|apply map_id].
  apply map_ext_in. intros m Hm.
  transitivity (map (fun r : T1 => r) m); [|apply map_id].
  apply map_ext_in. intros r Hr.
  apply E. apply in_concat. exists m. split; assumption.
Qed.

(** [torch.renorm] is idempotent, on every tensor. *)
Lemma renorm_idempotent (mx : R) (x : T3) :
  0 <= mx -> renorm mx (renorm mx x) = renorm mx x.
Proof.
  intros Hmx. apply renorm_within.
  - rewrite concat_renorm, ncols_mul_last. intros j Hj.
    rewrite col_mul_last, nth_renorm_factors by exact Hj.
    rewrite norm2_scale by now apply renorm_factor_nonneg.
    apply renorm_factor_bound; [exact Hmx | apply norm2_nonneg].
  - rewrite concat_renorm, ncols_mul_last.
    apply Forall_forall. intros r Hr. apply in_map_iff in Hr.
    destruct Hr as [r0 [<- _]].
    rewrite <- (renorm_factors_length mx). apply mul_last_length.
Qed.

(** A single vector within [maxnorm] is left as it is. *)
Lemma renorm_single_within (mx : R) (v : T1) :
  norm2 v <= mx -> renorm mx [[v]] = [[v]].
Proof.
  intros H. apply renorm_within; simpl.
  - intros j Hj. unfold norm2 in *.
    eapply Rle_trans; [|exact H]. apply sqrt_le_1_alt.
    unfold sum_sq at 1. simpl. rewrite Rplus_0_r. apply nth_sq_le_sum_sq.
  - constructor; [lia | constructor].
Qed.

Lemma renorm_factor_lt_1 (mx n : R) : 0 < mx -> mx < n -> renorm_factor mx n < 1.
Proof.
  intros Hmx Hn. unfold renorm_factor. pose proof renorm_eps_pos as He.
  destruct (Rgt_dec n mx) as [H|H]; [|lra].
  apply (Rmult_lt_reg_r (n + renorm_eps)); [lra|].
  unfold Rdiv. rewrite Rmult_assoc, Rinv_l by lra. lra.
Qed.

Lemma norm2_gt_1 (v : T1) : 1 < sum_sq v -> 1 < norm2 v.
Proof.
  intros H. unfold norm2. rewrite <- sqrt_1 at 1. apply sqrt_lt_1_alt. lra.
Qed.

Lemma norm2_zero_entries (v : T1) : norm2 v = 0 -> Forall (fun a => a = 0) v.
Proof.
  intros H. unfold norm2 in H.
  apply sqrt_eq_0 in H; [|apply sum_sq_nonneg].
  induction v as [|x v IH]; constructor.
  - pose proof (sum_sq_nonneg v). unfold sum_sq in *. simpl in H. nra.
  - apply IH. pose proof (sum_sq_nonneg v). unfold sum_sq in *. simpl in H. nra.
Qed.

Lemma mul_last_zero (factors : list R) (v : T1) :
  Forall (fun a => a = 0) v -> (length v <= length factors)%nat ->
  mul_last factors v = v.
Proof.
  unfold mul_last. intros H. revert factors.
  induction H as [|x v Hx _ IH]; intros [|f factors] Hl; simpl in *;
    try reflexivity; try lia.
  f_equal; [subst x; lra | apply IH; lia].
Qed.

Lemma nth_renorm (mx : R) (x : T3) (i k : nat) :
  nth k (nth i (renorm mx x) []) []
  = mul_last (renorm_factors mx (concat x)) (nth k (nth i x []) []).
Proof.
  unfold renorm.
  change (@nil (list R)) with (map (mul_last (renorm_factors mx (concat x))) []) at 1.
  rewrite map_nth.
  change (@nil R) with (mul_last (renorm_factors mx (concat x)) []) at 1.
  now rewrite map_nth.
Qed.

(** The squared norm the scores are made of is the sum of squares. *)
Lemma neg_sq_norm2_sum_sq (x : T2) :
  TransR.neg_sq_norm2 x = map (fun r => [- sum_sq r]) x.
Proof.
  unfold TransR.neg_sq_norm2, neg2, pow2_2, norm_last2_keepdim.
  rewrite !map_map. apply map_ext. intros r. cbn [map]. unfold norm2.
  now rewrite pow2_sqrt by apply sum_sq_nonneg.
Qed.

Lemma neg_sq_norm3_sum_sq (x : T3) :
  TransR.neg_sq_norm3 x = map (map (fun r => - sum_sq r)) x.
Proof.
  unfold TransR.neg_sq_norm3, neg2, pow2_2, norm_last3.
  rewrite !map_map. apply map_ext. intros m. rewrite !map_map.
  apply map_ext. intros r. unfold norm2.
  now rewrite pow2_sqrt by apply sum_sq_nonneg.
Qed.

(** C6. The clip does not leave every vector of norm at most 1 as it is: in
    a batch of two projected vectors (1, 0) and (1, 0), of norm 1 each, both
    are rescaled, because the norm [torch.renorm(., p=2, dim=-1, maxnorm=1)]
    compares with 1 is that of a slice across the batch, here sqrt 2. *)
Lemma renorm_rescales_unit_vectors_in_batch :
  norm2 [1; 0] <= 1
  /\ renorm 1 [[[1; 0]]; [[1; 0]]] <> [[[1; 0]]; [[1; 0]]].
Proof.
  split.
  - unfold norm2, sum_sq. simpl.
    replace (1 * 1 + (0 * 0 + 0)) with 1 by lra. rewrite sqrt_1. lra.
  - intros H.
    assert (E : nth 0 (nth 0 (nth 0 (renorm 1 [[[1; 0]]; [[1; 0]]]) []) []) 0 = 1)
      by now rewrite H.
    rewrite nth_renorm, nth_mul_last, nth_renorm_factors in E by (simpl; lia).
    assert (L : renorm_factor 1 (norm2 (col 0 (concat [[[1; 0]]; [[1; 0]]]))) < 1).
    { apply renorm_factor_lt_1; [lra|]. apply norm2_gt_1.
      unfold sum_sq. simpl. lra. }
    simpl nth in E. lra.
Qed.

(** A projected vector that is exactly zero is left as it is by the clip,
    whatever else the batch holds. *)
Lemma renorm_zero_vector_unchanged (x : T3) (i k : nat) :
  norm2 (nth k (nth i x []) []) = 0 ->
  (length (nth k (nth i x []) []) <= ncols (concat x))%nat ->
  nth k (nth i (renorm 1 x) []) [] = nth k (nth i x []) [].
Proof.
  intros Hz Hl. rewrite nth_renorm.
  apply mul_last_zero.
  - now apply norm2_zero_entries.
  - now rewrite renorm_factors_length.
Qed.

(** C8. The clip is not a no-op on a near-zero vector inside a batch: the
    projected vector (1/1000, 0), next to the projected vector (2, 0) of
    another row, is in a slice of norm above 1 and is rescaled with it. *)
Lemma renorm_rescales_near_zero_vector_in_batch :
  norm2 [/ 1000; 0] <= / 1000
  /\ nth 0 (nth 0 (renorm 1 [[[/ 1000; 0]]; [[2; 0]]]) []) [] <> [/ 1000; 0].
Proof.
  split.
  - unfold norm2, sum_sq. simpl.
    replace (/ 1000 * / 1000 + (0 * 0 + 0)) with (/ 1000 * / 1000) by lra.
    rewrite sqrt_square; lra.
  - intros H.
    assert (E : nth 0 (nth 0 (nth 0 (renorm 1 [[[/ 1000; 0]]; [[2; 0]]]) []) []) 0
                = / 1000) by now rewrite H.
    rewrite nth_renorm, nth_mul_last, nth_renorm_factors in E by (simpl; lia).
    assert (L : renorm_factor 1 (norm2 (col 0 (concat [[[/ 1000; 0]]; [[2; 0]]]))) < 1).
    { apply renorm_factor_lt_1; [lra|]. apply norm2_gt_1.
      unfold sum_sq. simpl. lra. }
    simpl nth in E. nra.
Qed.

(** ** [functional.normalize] *)

Lemma normalize_eps_pos : 0 < normalize_eps.
Proof. unfold normalize_eps. lra. Qed.

Lemma sum_sq_div (c : R) (v : T1) :
  c <> 0 -> sum_sq (map (fun x => x / c) v) = sum_sq v / (c * c).
Proof.
  intros Hc. unfold sum_sq. induction v as [|x v IH]; simpl.
  - field. exact Hc.
  - rewrite IH. field. exact Hc.
Qed.

Lemma normalize_row_unit (v : T1) :
  normalize_eps <= norm2 v -> norm2 (normalize_row v) = 1.
Proof.
  intros H. pose proof normalize_eps_pos as He.
  unfold normalize_row. rewrite Rmax_left by exact H.
  unfold norm2 at 1. rewrite sum_sq_div by lra.
  rewrite <- norm2_sq.
  replace (norm2 v * norm2 v / (norm2 v * norm2 v)) with 1 by (field; lra).
  apply sqrt_1.
Qed.

Lemma row_normalize (w : T2) (i : nat) :
  row (normalize w) i = normalize_row (row w i).
Proof.
  unfold row, normalize.
  change (@nil R) with (normalize_row []) at 1. apply map_nth.
Qed.

(** C4 (amended). [post_parameter_update] replaces, in place, every row of
    the entity table by the row divided by [max(norm, 1e-12)] and leaves the
    relation and projection tables alone: every row whose norm was at least
    1e-12 has norm exactly 1 afterwards. *)
Theorem transr_post_parameter_update_unit_norm
    (super_post_parameter_update : Regularizer -> Regularizer)
    (self : TransR.model) (e : Embedding) :
  TransR.entity_embeddings self = Some e ->
  exists self',
    TransR.post_parameter_update super_post_parameter_update self = Ok self'
    /\ TransR.entity_embeddings self'
       = Some (mkEmbedding (normalize (weight e)) (max_norm e))
    /\ TransR.relation_embeddings self' = TransR.relation_embeddings self
    /\ TransR.relation_projections self' = TransR.relation_projections self
    /\ forall i, normalize_eps <= norm2 (row (weight e) i) ->
         norm2 (row (normalize (weight e)) i) = 1.
Proof.
  intros He. unfold TransR.post_parameter_update.
  cbn [TransR.set_regularizer TransR.entity_embeddings]. rewrite He.
  eexists. split; [reflexivity|]. cbn.
  repeat split.
  intros i Hi. rewrite row_normalize. now apply normalize_row_unit.
Qed.

Lemma transr_post_parameter_update_unit_norm_witness :
  exists self',
    TransR.post_parameter_update (fun reg => reg)
      (TransR.mkModel 1 1 1 1 1 (Some (mkEmbedding [[1]] (Some 1))) None None [])
    = Ok self'
    /\ TransR.entity_embeddings self' = Some (mkEmbedding (normalize [[1]]) (Some 1))
    /\ TransR.relation_embeddings self' = None
    /\ TransR.relation_projections self' = None
    /\ forall i, normalize_eps <= norm2 (row [[1]] i) ->
         norm2 (row (normalize [[1]]) i) = 1.
Proof.
  exact (transr_post_parameter_update_unit_norm (fun reg => reg)
           (TransR.mkModel 1 1 1 1 1 (Some (mkEmbedding [[1]] (Some 1))) None None [])
           (mkEmbedding [[1]] (Some 1)) eq_refl).
Defined.

(** C4, as stated, fails for a zero row: it is divided by 1e-12, stays zero,
    and its norm after the update is 0, not 1. *)
Lemma transr_post_parameter_update_zero_row :
  exists self' e',
    TransR.post_parameter_update (fun reg => reg)
      (TransR.mkModel 1 1 1 1 1 (Some (mkEmbedding [[0]] (Some 1))) None None [])
    = Ok self'
    /\ TransR.entity_embeddings self' = Some e'
    /\ norm2 (row (weight e') 0) <> 1.
Proof.
  eexists. eexists. split; [reflexivity|]. split; [reflexivity|].
  cbn [weight]. rewrite row_normalize. unfold row, normalize_row. cbn [nth map].
  unfold norm2, sum_sq. cbn [map Rsum fold_right].
  replace (0 / Rmax (sqrt (0 * 0 + 0)) normalize_eps
           * (0 / Rmax (sqrt (0 * 0 + 0)) normalize_eps) + 0) with 0
    by (unfold Rdiv; lra).
  rewrite sqrt_0. lra.
Qed.

(** ** TransR: the state the methods touch *)

(** C9. [clear_weights_] sets the entity and the relation table to [None]
    and keeps the projection table; [init_empty_weights_] after it creates a
    new entity table and a new relation table from the random generator and
    keeps the projection table it finds, the one from before the clearing. *)
Theorem transr_clear_keeps_projections
    (n r d_e d_r : nat) (p : Z) (ent rel : option Embedding) (P : Embedding)
    (reg : Regularizer)
    (rng : Type) (new_embedding_weight : nat -> nat -> rng -> T2 * rng)
    (embedding_xavier_uniform_ : Embedding -> rng -> Embedding * rng) (g : rng) :
  let self := TransR.mkModel n r d_e d_r p ent rel (Some P) reg in
  let cleared := TransR.clear_weights_ self in
  let draw1 := new_embedding_weight n d_e g in
  let init1 := embedding_xavier_uniform_ (mkEmbedding (fst draw1) (Some 1)) (snd draw1) in
  let draw2 := new_embedding_weight r d_r (snd init1) in
  let init2 := embedding_xavier_uniform_ (mkEmbedding (fst draw2) (Some 1)) (snd draw2) in
  cleared = TransR.mkModel n r d_e d_r p None None (Some P) reg
  /\ TransR.init_empty_weights_ rng new_embedding_weight embedding_xavier_uniform_
       cleared g
     = (TransR.mkModel n r d_e d_r p
          (Some (fst init1))
          (Some (mkEmbedding (normalize (weight (fst init2))) (max_norm (fst init2))))
          (Some P) reg,
        snd init2).
Proof.
  intros self cleared draw1 init1 draw2 init2.
  split; [reflexivity|].
  subst cleared self. unfold TransR.init_empty_weights_, TransR.clear_weights_.
  cbn [TransR.set_tables TransR.entity_embeddings TransR.relation_embeddings
       TransR.relation_projections TransR.num_entities TransR.num_relations
       TransR.embedding_dim TransR.relation_embedding_dim TransR.scoring_fct_norm
       TransR.regularizer].
  subst init2 draw2 init1 draw1.
  destruct (new_embedding_weight n d_e g) as [w1 g1]. cbn [fst snd].
  destruct (embedding_xavier_uniform_ (mkEmbedding w1 (Some 1)) g1) as [e1 g2].
  cbn [fst snd].
  destruct (new_embedding_weight r d_r g2) as [w2 g3]. cbn [fst snd].
  destruct (embedding_xavier_uniform_ (mkEmbedding w2 (Some 1)) g3) as [e2 g4].
  reflexivity.
Qed.

Ltac bind_step :=
  match goal with
  | |- context [bind ?c _] =>
      let a := fresh "a" in
      destruct c as [a|]; cbn [bind rmap];
      [ lazymatch type of a with
        | prod _ _ => destruct a
        | _ => idtac
        end
      | reflexivity ]
  end.

(** C10. The scores of TransR do not depend on [scoring_fct_norm]: a model
    with any other value of it returns, from each of the three scoring
    methods and on every input, the same scores (or the same error) and
    leaves the same tables behind. *)
Theorem transr_scores_ignore_scoring_fct_norm (p : Z) (self : TransR.model) :
  (forall batch,
      TransR.score_hrt (TransR.set_scoring_fct_norm p self) batch
      = rmap (with_scoring_fct_norm p) (TransR.score_hrt self batch))
  /\ (forall batch,
      TransR.score_t (TransR.set_scoring_fct_norm p self) batch
      = rmap (with_scoring_fct_norm p) (TransR.score_t self batch))
  /\ (forall batch,
      TransR.score_h (TransR.set_scoring_fct_norm p self) batch
      = rmap (with_scoring_fct_norm p) (TransR.score_h self batch)).
Proof.
  destruct self as [n r d_e d_r q ent rel proj reg].
  split; [|split]; intros batch.
  - unfold TransR.score_hrt, TransR.set_scoring_fct_norm.
    cbn [TransR.entity_embeddings TransR.relation_embeddings
         TransR.relation_projections TransR.num_entities TransR.num_relations
         TransR.embedding_dim TransR.relation_embedding_dim TransR.regularizer].
    repeat bind_step; reflexivity.
  - unfold TransR.score_t, TransR.set_scoring_fct_norm.
    cbn [TransR.entity_embeddings TransR.relation_embeddings
         TransR.relation_projections TransR.num_entities TransR.num_relations
         TransR.embedding_dim TransR.relation_embedding_dim TransR.regularizer].
    repeat bind_step; reflexivity.
  - unfold TransR.score_h, TransR.set_scoring_fct_norm.
    cbn [TransR.entity_embeddings TransR.relation_embeddings
         TransR.relation_projections TransR.num_entities TransR.num_relations
         TransR.embedding_dim TransR.relation_embedding_dim TransR.regularizer].
    repeat bind_step; reflexivity.
Qed.

(** ** Lookups in a table whose rows are within [max_norm] *)

Lemma clip_row_within (mx : R) (r : T1) : norm2 r <= mx -> clip_row mx r = r.
Proof.
  intros H. unfold clip_row. destruct (Rgt_dec (norm2 r) mx); [lra | reflexivity].
Qed.

Lemma renorm_rows_from_within (i : nat) (mx : R) (ids : list nat) (w : T2) :
  Forall (fun r => norm2 r <= mx) w -> renorm_rows_from i mx ids w = w.
Proof.
  intros H. revert i. induction H as [|r w Hr _ IH]; intros i; simpl.
  - reflexivity.
  - rewrite IH, clip_row_within by exact Hr. now destruct (existsb _ ids).
Qed.

Lemma ids_in_forallb (w : T2) (ids : list nat) :
  ids_in w ids -> forallb (fun i => (i <? length w)%nat) ids = true.
Proof.
  intros H. apply forallb_forall. intros i Hi. apply Nat.ltb_lt.
  unfold ids_in in H. rewrite Forall_forall in H. now apply H.
Qed.

Lemma embedding_forward_within (w : T2) (mx : R) (ids : list nat) :
  Forall (fun r => norm2 r <= mx) w -> ids_in w ids ->
  embedding_forward (mkEmbedding w (Some mx)) ids
  = Ok (map (row w) ids, mkEmbedding w (Some mx)).
Proof.
  intros Hw Hi. unfold embedding_forward, embedding_renorm_. cbn [max_norm weight].
  rewrite ids_in_forallb by exact Hi. cbn [bind].
  rewrite renorm_rows_from_within by exact Hw.
  rewrite gather_rows by exact Hi. reflexivity.
Qed.

Lemma norm2_le_1 (v : T1) : sum_sq v <= 1 -> norm2 v <= 1.
Proof.
  intros H. unfold norm2. rewrite <- sqrt_1. now apply sqrt_le_1_alt.
Qed.

Ltac norm_le_1 :=
  apply norm2_le_1; unfold sum_sq, renorm_eps; cbn [map Rsum fold_right]; lra.

Ltac rows_within :=
  repeat (apply Forall_cons; [norm_le_1|]); apply Forall_nil.

Ltac ids_ok :=
  unfold ids_in; repeat (apply Forall_cons; [cbn; lia|]); apply Forall_nil.

Lemma renorm_factor_within (mx n : R) : n <= mx -> renorm_factor mx n = 1.
Proof.
  intros H. unfold renorm_factor. destruct (Rgt_dec n mx); [lra | reflexivity].
Qed.

Arguments TransR.neg_sq_norm2 : simpl never.
Arguments TransR.neg_sq_norm3 : simpl never.

Lemma clip_row_single_exceeds (mx a : R) :
  0 <= a -> mx < a -> clip_row mx [a] = [a * (mx / (a + renorm_eps))].
Proof.
  intros Ha H. unfold clip_row. rewrite norm2_single by exact Ha.
  destruct (Rgt_dec a mx); [reflexivity | lra].
Qed.

Ltac eval_within :=
  repeat (cbn;
          first [ rewrite clip_row_within by norm_le_1
                | rewrite clip_row_single_exceeds by lra
                | rewrite renorm_factor_within by norm_le_1 ]).

Ltac finish_scores :=
  rewrite ?neg_sq_norm2_sum_sq, ?neg_sq_norm3_sum_sq;
  unfold sum_sq; cbn [map Rsum fold_right];
  apply f_equal; apply f_equal2; [repeat f_equal; lra | reflexivity].

Example transr_score_hrt_example :
  TransR.score_hrt example_model [(0, 0, 1)%nat] = Ok ([[-2]], example_model).
Proof.
  unfold TransR.score_hrt, example_model.
  eval_within. finish_scores.
Qed.

(** C1. On [long_projection_model] the head projects to (1, 1), of norm
    sqrt 2.  Each of its two coordinates, taken as a slice across the batch of
    one row, has norm 1, so [torch.renorm] leaves (1, 1) alone and
    [score_hrt] returns -2, the negated squared norm of (1, 1) itself.  No
    vector of norm at most 1 in the place of (1, 1) gives that score. *)
Theorem transr_score_hrt_projection_not_clipped :
  TransR.score_hrt long_projection_model [(0, 0, 1)%nat]
  = Ok ([[-2]], long_projection_model)
  /\ renorm 1 [[[1; 1]]] = [[[1; 1]]]
  /\ 1 < norm2 [1; 1]
  /\ forall h_proj : T1, norm2 h_proj <= 1 -> - sum_sq h_proj <> -2.
Proof.
  split; [|split; [|split]].
  - unfold TransR.score_hrt, long_projection_model.
    eval_within. finish_scores.
  - apply renorm_within.
    + cbn. intros j Hj.
      destruct j as [|[|j]]; [norm_le_1 | norm_le_1 | lia].
    + cbn. repeat constructor.
  - apply norm2_gt_1. unfold sum_sq. cbn [map Rsum fold_right]. lra.
  - intros h_proj H E.
    pose proof (norm2_sq h_proj) as S. pose proof (norm2_nonneg h_proj) as P.
    nra.
Qed.

(** C3. The scoring modes of TransR disagree.  On [long_row_model] the
    lookup of the tail in [score_hrt] clips the row (2) to norm 1 before
    projecting it, while [score_t] projects the rows of
    [entity_embeddings.weight] as they are stored: the score of (0, 0, 1) is
    about -1/4 from [score_hrt] and -1 in column 1 of [score_t]. *)
Lemma transr_score_hrt_differs_from_score_t :
  exists s row m1 m2,
    TransR.score_hrt long_row_model [(0, 0, 1)%nat] = Ok ([[s]], m1)
    /\ TransR.score_t long_row_model [(0, 0)%nat] = Ok ([row], m2)
    /\ s <> nth 1 row 0.
Proof.
  do 4 eexists. split; [|split].
  - unfold TransR.score_hrt, long_row_model.
    eval_within.
    rewrite neg_sq_norm2_sum_sq. unfold sum_sq. cbn [map Rsum fold_right].
    reflexivity.
  - unfold TransR.score_t, long_row_model.
    eval_within.
    rewrite neg_sq_norm3_sum_sq. unfold sum_sq. cbn [map Rsum fold_right].
    reflexivity.
  - cbn [nth]. unfold renorm_eps. lra.
Qed.

(** The same disagreement with every entity row within [max_norm]: entities
    (1) and (3/4), r = (0), projection (1).  In [score_t] the projected
    entity table is one slice of norm 5/4 and is rescaled as a whole; in
    [score_hrt] the projected tail is a slice of its own, of norm 3/4. *)
Lemma transr_score_t_rescales_across_entities :
  exists s row m1 m2,
    TransR.score_hrt short_rows_model [(0, 0, 1)%nat] = Ok ([[s]], m1)
    /\ TransR.score_t short_rows_model [(0, 0)%nat] = Ok ([row], m2)
    /\ s = - / 16
    /\ nth 1 row 0 < - / 8.
Proof.
  assert (N : norm2 [1 * 1 + 0; 3 / 4 * 1 + 0] = 5 / 4).
  { unfold norm2, sum_sq. cbn [map Rsum fold_right].
    replace ((1 * 1 + 0) * (1 * 1 + 0) + ((3 / 4 * 1 + 0) * (3 / 4 * 1 + 0) + 0))
      with (5 / 4 * (5 / 4)) by lra.
    apply sqrt_square. lra. }
  do 4 eexists. split; [|split; [|split]].
  - unfold TransR.score_hrt, short_rows_model.
    eval_within.
    rewrite neg_sq_norm2_sum_sq. unfold sum_sq. cbn [map Rsum fold_right].
    reflexivity.
  - unfold TransR.score_t, short_rows_model.
    eval_within. rewrite N. unfold renorm_factor.
    destruct (Rgt_dec (5 / 4) 1) as [_|H]; [|lra].
    eval_within.
    rewrite neg_sq_norm3_sum_sq. unfold sum_sq. cbn [map Rsum fold_right].
    reflexivity.
  - lra.
  - cbn [nth]. unfold renorm_eps. lra.
Qed.

(** The score [score_hrt] gives to a triple depends on the other rows of the
    batch: (0, 0, 2) scores -1 alone and above -2/3 next to (1, 0, 2),
    because the two projected heads, (1) and (3/4), form one slice of norm
    5/4 that is rescaled as a whole. *)
Lemma transr_score_hrt_depends_on_batch :
  TransR.score_hrt batch_model [(0, 0, 2)%nat] = Ok ([[-1]], batch_model)
  /\ exists s1 s2 m,
       TransR.score_hrt batch_model [(0, 0, 2)%nat; (1, 0, 2)%nat]
       = Ok ([[s1]; [s2]], m)
       /\ - 2 / 3 < s1.
Proof.
  assert (N : norm2 [1 * 1 + 0; 3 / 4 * 1 + 0] = 5 / 4).
  { unfold norm2, sum_sq. cbn [map Rsum fold_right].
    replace ((1 * 1 + 0) * (1 * 1 + 0) + ((3 / 4 * 1 + 0) * (3 / 4 * 1 + 0) + 0))
      with (5 / 4 * (5 / 4)) by lra.
    apply sqrt_square. lra. }
  split.
  - unfold TransR.score_hrt, batch_model.
    eval_within. finish_scores.
  - do 3 eexists. split.
    + unfold TransR.score_hrt, batch_model.
      eval_within. rewrite N. unfold renorm_factor.
      destruct (Rgt_dec (5 / 4) 1) as [_|H]; [|lra].
      eval_within.
      rewrite neg_sq_norm2_sum_sq. unfold sum_sq. cbn [map Rsum fold_right].
      reflexivity.
    + unfold renorm_eps. lra.
Qed.

(** ** The theorems at concrete inputs *)

Ltac ready_example :=
  unfold rescal_ready, rescal_example; cbn;
  repeat split; try lia; repeat (apply Forall_cons; [reflexivity|]); apply Forall_nil.

Example rescal_score_hrt_example :
  exists self', RESCAL.score_hrt rescal_example [(0, 0, 1)%nat] = Ok ([[30]], self').
Proof.
  eexists. unfold RESCAL.score_hrt, rescal_example. cbn.
  apply f_equal. apply f_equal2; [repeat f_equal; lra | reflexivity].
Qed.

Lemma rescal_score_hrt_bilinear_witness :
  rescal_ready rescal_example [[2]; [3]] [[5]]
  /\ exists scores self',
       RESCAL.score_hrt rescal_example [(0, 0, 1)%nat] = Ok (scores, self')
       /\ length scores = 1%nat
       /\ scores = [[bilinear_form 1 [2] [[5]] [3]]].
Proof.
  assert (Hr : rescal_ready rescal_example [[2]; [3]] [[5]]) by ready_example.
  split; [exact Hr|].
  destruct (rescal_score_hrt_bilinear rescal_example [[2]; [3]] [[5]] [(0, 0, 1)%nat] Hr
              ltac:(ids_ok) ltac:(ids_ok) ltac:(ids_ok))
    as (scores & self' & H1 & _ & _ & H3 & H4).
  exists scores, self'. split; [exact H1 | split; [exact H3 | exact H4]].
Defined.

Lemma rescal_modes_consistent_witness :
  rescal_ready rescal_example [[2]; [3]] [[5]]
  /\ exists s_hrt s_t s_h m1 m2 m3,
       RESCAL.score_hrt rescal_example [(0, 0, 1)%nat] = Ok (s_hrt, m1)
       /\ RESCAL.score_t rescal_example [(0, 0)%nat] = Ok (s_t, m2)
       /\ RESCAL.score_h rescal_example [(0, 1)%nat] = Ok (s_h, m3)
       /\ nth_error s_hrt 0 = Some [nth 1 (nth 0 s_t []) 0]
       /\ nth_error s_hrt 0 = Some [nth 0 (nth 0 s_h []) 0].
Proof.
  assert (Hr : rescal_ready rescal_example [[2]; [3]] [[5]]) by ready_example.
  split; [exact Hr|].
  destruct (rescal_modes_consistent rescal_example [[2]; [3]] [[5]] [(0, 0, 1)%nat] Hr
              ltac:(ids_ok) ltac:(ids_ok) ltac:(ids_ok))
    as (s_hrt & s_t & s_h & m1 & m2 & m3 & H1 & H2 & H3 & H4).
  exists s_hrt, s_t, s_h, m1, m2, m3.
  split; [exact H1 | split; [exact H2 | split; [exact H3|]]].
  exact (H4 0%nat (0, 0, 1)%nat eq_refl).
Defined.

Lemma rescal_scoring_reports_operands_once_witness :
  rescal_ready rescal_example [[2]; [3]] [[5]]
  /\ exists prod scores,
       RESCAL.interaction [[[2]]] [[[5]]] [[[3]]] = Ok prod
       /\ index_last0 prod = Ok scores
       /\ RESCAL.score_hrt rescal_example [(0, 0, 1)%nat]
          = Ok (scores,
                RESCAL.mkModel 2 1 1
                  (Some (mkEmbedding [[2]; [3]] None))
                  (Some (mkEmbedding [[5]] None))
                  [([[[2]]], [[[5]]], [[[3]]])]).
Proof.
  assert (Hr : rescal_ready rescal_example [[2]; [3]] [[5]]) by ready_example.
  split; [exact Hr|].
  exact (proj1 (rescal_scoring_reports_operands_once rescal_example [[2]; [3]] [[5]] Hr)
           [(0, 0, 1)%nat] ltac:(ids_ok) ltac:(ids_ok) ltac:(ids_ok)).
Defined.

(** * Further properties of the two models *)

(** ** Scoring a model with a missing table *)

Ltac bind_inv H :=
  cbn [bind] in H; try discriminate H;
  repeat match type of H with
         | bind ?c _ = Ok _ =>
             let a := fresh "a" in
             let E := fresh "E" in
             destruct c as [a|] eqn:E; cbn [bind] in H;
             [ try discriminate H;
               lazymatch type of a with
               | prod _ _ => destruct a
               | _ => idtac
               end
             | discriminate H ]
         end.

(** X1. A RESCAL model with a missing entity or relation table never
    returns scores: each of the three scoring methods raises. *)
Theorem rescal_missing_table_no_scores (self : RESCAL.model) :
  RESCAL.entity_embeddings self = None \/ RESCAL.relation_embeddings self = None ->
  (forall batch res, RESCAL.score_hrt self batch <> Ok res)
  /\ (forall batch res, RESCAL.score_t self batch <> Ok res)
  /\ (forall batch res, RESCAL.score_h self batch <> Ok res).
Proof.
  intros H. split; [|split]; intros batch res Hs.
  - unfold RESCAL.score_hrt in Hs.
    destruct H as [H|H]; rewrite H in Hs; cbn [call_embedding bind] in Hs;
      [discriminate|].
    bind_inv Hs.
  - unfold RESCAL.score_t in Hs.
    destruct H as [H|H]; rewrite H in Hs; cbn [call_embedding bind] in Hs;
      [discriminate|].
    bind_inv Hs.
  - unfold RESCAL.score_h in Hs.
    destruct H as [H|H]; rewrite H in Hs; cbn [call_embedding get_weight bind] in Hs;
      [discriminate|].
    bind_inv Hs.
Qed.

Lemma rescal_missing_table_no_scores_witness :
  RESCAL.entity_embeddings (RESCAL.clear_weights_ rescal_example) = None
  /\ forall batch res,
       RESCAL.score_hrt (RESCAL.clear_weights_ rescal_example) batch <> Ok res.
Proof.
  split; [reflexivity|].
  exact (proj1 (rescal_missing_table_no_scores (RESCAL.clear_weights_ rescal_example)
                  (or_introl eq_refl))).
Defined.

(** X2. A TransR model with a missing entity, relation or projection table
    never returns scores; in particular no scoring method works between
    [clear_weights_] and the next [init_empty_weights_], although the
    projection table is still there. *)
Theorem transr_missing_table_no_scores (self : TransR.model) :
  TransR.entity_embeddings self = None
  \/ TransR.relation_embeddings self = None
  \/ TransR.relation_projections self = None ->
  (forall batch res, TransR.score_hrt self batch <> Ok res)
  /\ (forall batch res, TransR.score_t self batch <> Ok res)
  /\ (forall batch res, TransR.score_h self batch <> Ok res).
Proof.
  intros H. split; [|split]; intros batch res Hs.
  - unfold TransR.score_hrt in Hs.
    destruct H as [H|[H|H]]; rewrite H in Hs;
      cbn [call_embedding get_weight] in Hs; bind_inv Hs.
  - unfold TransR.score_t in Hs.
    destruct H as [H|[H|H]]; rewrite H in Hs;
      cbn [call_embedding get_weight] in Hs; bind_inv Hs.
  - unfold TransR.score_h in Hs.
    destruct H as [H|[H|H]]; rewrite H in Hs;
      cbn [call_embedding get_weight] in Hs; bind_inv Hs.
Qed.

Lemma transr_missing_table_no_scores_witness :
  TransR.entity_embeddings (TransR.clear_weights_ example_model) = None
  /\ forall batch res,
       TransR.score_hrt (TransR.clear_weights_ example_model) batch <> Ok res.
Proof.
  split; [reflexivity|].
  exact (proj1 (transr_missing_table_no_scores (TransR.clear_weights_ example_model)
                  (or_introl eq_refl))).
Defined.

(** ** Ids outside the tables *)

Lemma ids_in_dec (w : T2) (ids : list nat) : {ids_in w ids} + {~ ids_in w ids}.
Proof.
  unfold ids_in. apply Forall_dec. intros i. apply lt_dec.
Qed.

Lemma gather_out_of_range (w : T2) (ids : list nat) :
  ~ ids_in w ids -> gather w ids = Err IndexError.
Proof.
  unfold ids_in, gather. induction ids as [|i ids IH]; intros H.
  - exfalso. apply H. constructor.
  - cbn [mapM]. destruct (nth_error w i) as [r|] eqn:E; cbn [bind]; [|reflexivity].
    rewrite IH; [reflexivity|].
    intros Hin. apply H. constructor; [|exact Hin].
    apply nth_error_Some. now rewrite E.
Qed.

Lemma embedding_forward_plain_out_of_range (w : T2) (ids : list nat) :
  ~ ids_in w ids -> embedding_forward (mkEmbedding w None) ids = Err IndexError.
Proof.
  intros H. unfold embedding_forward. cbn [max_norm weight].
  now rewrite gather_out_of_range.
Qed.

(** X3. On a RESCAL model with tables of the configured shapes, a batch
    holding an id outside its table makes each scoring method raise
    [IndexError]; with C2 and C5, the methods return scores exactly when
    every id is inside its table. *)
Theorem rescal_out_of_range_index_error (self : RESCAL.model) (E Rl : T2) :
  rescal_ready self E Rl ->
  (forall batch : list Triple,
      ~ (ids_in E (column0 batch) /\ ids_in Rl (column1 batch)
         /\ ids_in E (column2 batch)) ->
      RESCAL.score_hrt self batch = Err IndexError)
  /\ (forall batch : list Pair,
      ~ (ids_in E (map fst batch) /\ ids_in Rl (map snd batch)) ->
      RESCAL.score_t self batch = Err IndexError)
  /\ (forall batch : list Pair,
      ~ (ids_in Rl (map fst batch) /\ ids_in E (map snd batch)) ->
      RESCAL.score_h self batch = Err IndexError).
Proof.
  intros (Hd & HeE & HeR & Hn & HE & HR).
  split; [|split]; intros batch Hbad.
  - unfold RESCAL.score_hrt. rewrite HeE, HeR. cbn [call_embedding].
    destruct (ids_in_dec E (column0 batch)) as [H0|H0].
    2:{ now rewrite embedding_forward_plain_out_of_range. }
    rewrite embedding_forward_plain by exact H0. cbn [bind].
    rewrite view_row_operand by assumption. cbn [bind].
    destruct (ids_in_dec Rl (column1 batch)) as [H1|H1].
    2:{ now rewrite embedding_forward_plain_out_of_range. }
    rewrite embedding_forward_plain by exact H1. cbn [bind].
    rewrite view_matrix_operand by assumption. cbn [bind].
    rewrite embedding_forward_plain_out_of_range; [reflexivity|].
    intros H2. apply Hbad. repeat split; assumption.
  - unfold RESCAL.score_t. rewrite HeE, HeR. cbn [call_embedding].
    destruct (ids_in_dec E (map fst batch)) as [H0|H0].
    2:{ now rewrite embedding_forward_plain_out_of_range. }
    rewrite embedding_forward_plain by exact H0. cbn [bind].
    rewrite view_row_operand by assumption. cbn [bind].
    rewrite embedding_forward_plain_out_of_range; [reflexivity|].
    intros H1. apply Hbad. split; assumption.
  - unfold RESCAL.score_h. rewrite HeE, HeR.
    cbn [call_embedding get_weight bind weight].
    rewrite view3_exact1_rows by (try assumption; now symmetry). cbn [bind].
    destruct (ids_in_dec Rl (map fst batch)) as [H0|H0].
    2:{ now rewrite embedding_forward_plain_out_of_range. }
    rewrite embedding_forward_plain by exact H0. cbn [bind].
    rewrite view_matrix_operand by assumption. cbn [bind].
    rewrite embedding_forward_plain_out_of_range; [reflexivity|].
    intros H1. apply Hbad. split; assumption.
Qed.

Lemma rescal_out_of_range_index_error_witness :
  rescal_ready rescal_example [[2]; [3]] [[5]]
  /\ RESCAL.score_hrt rescal_example [(0, 0, 1)%nat; (0, 0, 7)%nat] = Err IndexError.
Proof.
  assert (Hr : rescal_ready rescal_example [[2]; [3]] [[5]]) by ready_example.
  split; [exact Hr|].
  apply (proj1 (rescal_out_of_range_index_error rescal_example [[2]; [3]] [[5]] Hr)).
  intros (_ & _ & H). unfold ids_in, column2 in H. cbn in H.
  inversion H as [|? ? _ H']. inversion H' as [|? ? Hlt _]. lia.
Defined.

(** ** Initialising twice *)

(** X4. [RESCAL.init_empty_weights_] only fills what is missing: a table
    that is present is kept as it is, both tables are present afterwards, and
    a second call changes nothing and draws nothing from the generator. *)
Theorem rescal_init_empty_weights_fills_missing_only
    (rng : Type) (new_embedding_weight : nat -> nat -> rng -> T2 * rng)
    (self : RESCAL.model) (g : rng) :
  let init := RESCAL.init_empty_weights_ rng new_embedding_weight in
  (forall e, RESCAL.entity_embeddings self = Some e ->
             RESCAL.entity_embeddings (fst (init self g)) = Some e)
  /\ (forall e, RESCAL.relation_embeddings self = Some e ->
                RESCAL.relation_embeddings (fst (init self g)) = Some e)
  /\ RESCAL.entity_embeddings (fst (init self g)) <> None
  /\ RESCAL.relation_embeddings (fst (init self g)) <> None
  /\ forall g', init (fst (init self g)) g' = (fst (init self g), g').
Proof.
  intros init. subst init. unfold RESCAL.init_empty_weights_.
  destruct self as [n r d ent rel reg].
  cbn [RESCAL.entity_embeddings RESCAL.relation_embeddings RESCAL.num_entities
       RESCAL.num_relations RESCAL.embedding_dim].
  destruct ent as [e1|]; destruct rel as [e2|];
    repeat match goal with
           | |- context [new_embedding_weight ?a ?b ?c] =>
               destruct (new_embedding_weight a b c)
           end;
    cbn; repeat split; try congruence; try discriminate.
Qed.

Lemma rescal_init_empty_weights_fills_missing_only_witness :
  RESCAL.entity_embeddings
    (fst (RESCAL.init_empty_weights_ unit (fun _ _ g => ([], g)) rescal_example tt))
  = Some (mkEmbedding [[2]; [3]] None).
Proof.
  exact (proj1 (rescal_init_empty_weights_fills_missing_only unit
                  (fun _ _ g => ([], g)) rescal_example tt)
           (mkEmbedding [[2]; [3]] None) eq_refl).
Defined.

(** X5. [TransR.init_empty_weights_] only fills what is missing: each of
    the three tables that is present is kept as it is, all three are present
    afterwards, and a second call changes nothing and draws nothing from the
    generator. *)
Theorem transr_init_empty_weights_fills_missing_only
    (rng : Type) (new_embedding_weight : nat -> nat -> rng -> T2 * rng)
    (embedding_xavier_uniform_ : Embedding -> rng -> Embedding * rng)
    (self : TransR.model) (g : rng) :
  let init :=
    TransR.init_empty_weights_ rng new_embedding_weight embedding_xavier_uniform_ in
  (forall e, TransR.entity_embeddings self = Some e ->
             TransR.entity_embeddings (fst (init self g)) = Some e)
  /\ (forall e, TransR.relation_embeddings self = Some e ->
                TransR.relation_embeddings (fst (init self g)) = Some e)
  /\ (forall e, TransR.relation_projections self = Some e ->
                TransR.relation_projections (fst (init self g)) = Some e)
  /\ TransR.entity_embeddings (fst (init self g)) <> None
  /\ TransR.relation_embeddings (fst (init self g)) <> None
  /\ TransR.relation_projections (fst (init self g)) <> None
  /\ forall g', init (fst (init self g)) g' = (fst (init self g), g').
Proof.
  intros init. subst init. unfold TransR.init_empty_weights_.
  destruct self as [n r d_e d_r p ent rel proj reg].
  cbn [TransR.entity_embeddings TransR.relation_embeddings
       TransR.relation_projections TransR.num_entities TransR.num_relations
       TransR.embedding_dim TransR.relation_embedding_dim].
  destruct ent as [e1|]; destruct rel as [e2|]; destruct proj as [e3|];
    repeat match goal with
           | |- context [new_embedding_weight ?a ?b ?c] =>
               destruct (new_embedding_weight a b c)
           | |- context [embedding_xavier_uniform_ ?a ?b] =>
               destruct (embedding_xavier_uniform_ a b)
           end;
    cbn; repeat split; try congruence; try discriminate.
Qed.

Lemma transr_init_empty_weights_fills_missing_only_witness :
  TransR.relation_projections
    (fst (TransR.init_empty_weights_ unit (fun _ _ g => ([], g)) (fun e g => (e, g))
            example_model tt))
  = Some (mkEmbedding [[1; 0; 0; 1]] None).
Proof.
  exact (proj1 (proj2 (proj2
           (transr_init_empty_weights_fills_missing_only unit
              (fun _ _ g => ([], g)) (fun e g => (e, g)) example_model tt)))
           (mkEmbedding [[1; 0; 0; 1]] None) eq_refl).
Defined.

(** ** RESCAL against all entities *)

(** X6. On a RESCAL model with tables of the configured shapes and ids
    inside the tables, [score_t] and [score_h] return one row of
    [num_entities] scores per pair; entry [e] of the row of a pair (h, r) in
    [score_t] is the bilinear form of h, R and entity [e], and entry [e] of
    the row of a pair (r, t) in [score_h] is the bilinear form of entity [e],
    R and t. *)
Theorem rescal_score_t_score_h_entries (self : RESCAL.model) (E Rl : T2) :
  rescal_ready self E Rl ->
  let d := RESCAL.embedding_dim self in
  let n := RESCAL.num_entities self in
  (forall batch : list Pair,
      ids_in E (map fst batch) -> ids_in Rl (map snd batch) ->
      exists scores self',
        RESCAL.score_t self batch = Ok (scores, self')
        /\ length scores = length batch
        /\ Forall (fun r => length r = n) scores
        /\ forall k x e, nth_error batch k = Some x -> (e < n)%nat ->
             nth e (nth k scores []) 0
             = bilinear_form d (row E (fst x)) (reshape d d (row Rl (snd x))) (row E e))
  /\ (forall batch : list Pair,
      ids_in Rl (map fst batch) -> ids_in E (map snd batch) ->
      exists scores self',
        RESCAL.score_h self batch = Ok (scores, self')
        /\ length scores = length batch
        /\ Forall (fun r => length r = n) scores
        /\ forall k x e, nth_error batch k = Some x -> (e < n)%nat ->
             nth e (nth k scores []) 0
             = bilinear_form d (row E e) (reshape d d (row Rl (fst x))) (row E (snd x))).
Proof.
  intros Hready d n.
  pose proof Hready as (Hd & HeE & HeR & Hn & HE & HR).
  split; intros batch H0 H1.
  - do 2 eexists. split; [now apply (rescal_score_t_eval self E Rl)|].
    split; [now rewrite length_map|]. split.
    + apply Forall_forall. intros r Hr. apply in_map_iff in Hr.
      destruct Hr as [x [<- _]]. now rewrite length_map, length_seq.
    + intros k x e Hk He.
      unfold ids_in in H0, H1. rewrite Forall_map in H0, H1.
      rewrite Forall_forall in H0, H1.
      pose proof (nth_error_In _ _ Hk) as Hin.
      erewrite (nth_error_nth _ _ []) by (apply map_nth_error; exact Hk).
      rewrite nth_map_seq by exact He.
      apply dot_vecmat_bilinear.
      * apply row_length; [exact HE | now apply H0].
      * apply reshape_length.
      * apply ncols_reshape; [exact Hd|]. apply row_length; [exact HR | now apply H1].
      * apply row_length; [exact HE|]. subst n. lia.
  - do 2 eexists. split; [now apply (rescal_score_h_eval self E Rl)|].
    split; [now rewrite length_map|]. split.
    + apply Forall_forall. intros r Hr. apply in_map_iff in Hr.
      destruct Hr as [x [<- _]]. now rewrite length_map.
    + intros k x e Hk He.
      unfold ids_in in H0, H1. rewrite Forall_map in H0, H1.
      rewrite Forall_forall in H0, H1.
      pose proof (nth_error_In _ _ Hk) as Hin.
      erewrite (nth_error_nth _ _ []) by (apply map_nth_error; exact Hk).
      rewrite nth_map_row by (subst n; lia).
      apply dot_vecmat_bilinear.
      * apply row_length; [exact HE|]. subst n. lia.
      * apply reshape_length.
      * apply ncols_reshape; [exact Hd|]. apply row_length; [exact HR | now apply H0].
      * apply row_length; [exact HE | now apply H1].
Qed.

Lemma rescal_score_t_score_h_entries_witness :
  rescal_ready rescal_example [[2]; [3]] [[5]]
  /\ exists scores self',
       RESCAL.score_t rescal_example [(0, 0)%nat] = Ok (scores, self')
       /\ length scores = 1%nat
       /\ nth 1 (nth 0 scores []) 0 = bilinear_form 1 [2] [[5]] [3].
Proof.
  assert (Hr : rescal_ready rescal_example [[2]; [3]] [[5]]) by ready_example.
  split; [exact Hr|].
  destruct (proj1 (rescal_score_t_score_h_entries rescal_example [[2]; [3]] [[5]] Hr)
              [(0, 0)%nat] ltac:(ids_ok) ltac:(ids_ok))
    as (scores & self' & H1 & H2 & _ & H4).
  exists scores, self'. split; [exact H1 | split; [exact H2|]].
  exact (H4 0%nat (0, 0)%nat 1%nat eq_refl ltac:(cbn; lia)).
Defined.

(** ** RESCAL scores row by row *)

Lemma ids_in_app (w : T2) (a b : list nat) :
  ids_in w a -> ids_in w b -> ids_in w (a ++ b).
Proof. unfold ids_in. intros Ha Hb. apply Forall_app. now split. Qed.

(** X7. In RESCAL the score of a row does not depend on the rest of the
    batch: on a model with tables of the configured shapes and no
    [max_norm], scoring two batches of valid ids one after the other in one
    call gives the scores of the first followed by the scores of the second,
    for each of the three scoring methods. *)
Theorem rescal_scores_of_concatenated_batches (self : RESCAL.model) (E Rl : T2) :
  rescal_ready self E Rl ->
  (forall b1 b2 : list Triple,
      ids_in E (column0 b1) -> ids_in Rl (column1 b1) -> ids_in E (column2 b1) ->
      ids_in E (column0 b2) -> ids_in Rl (column1 b2) -> ids_in E (column2 b2) ->
      exists s1 s2 m1 m2 m,
        RESCAL.score_hrt self b1 = Ok (s1, m1)
        /\ RESCAL.score_hrt self b2 = Ok (s2, m2)
        /\ RESCAL.score_hrt self (b1 ++ b2) = Ok (s1 ++ s2, m))
  /\ (forall b1 b2 : list Pair,
      ids_in E (map fst b1) -> ids_in Rl (map snd b1) ->
      ids_in E (map fst b2) -> ids_in Rl (map snd b2) ->
      exists s1 s2 m1 m2 m,
        RESCAL.score_t self b1 = Ok (s1, m1)
        /\ RESCAL.score_t self b2 = Ok (s2, m2)
        /\ RESCAL.score_t self (b1 ++ b2) = Ok (s1 ++ s2, m))
  /\ (forall b1 b2 : list Pair,
      ids_in Rl (map fst b1) -> ids_in E (map snd b1) ->
      ids_in Rl (map fst b2) -> ids_in E (map snd b2) ->
      exists s1 s2 m1 m2 m,
        RESCAL.score_h self b1 = Ok (s1, m1)
        /\ RESCAL.score_h self b2 = Ok (s2, m2)
        /\ RESCAL.score_h self (b1 ++ b2) = Ok (s1 ++ s2, m)).
Proof.
  intros Hready. split; [|split].
  - intros b1 b2 A0 A1 A2 B0 B1 B2.
    do 5 eexists. split; [|split].
    + now apply (rescal_score_hrt_eval self E Rl).
    + now apply (rescal_score_hrt_eval self E Rl).
    + rewrite (rescal_score_hrt_eval self E Rl); try exact Hready;
        unfold column0, column1, column2 in *; rewrite ?map_app;
        try (now apply ids_in_app).
      reflexivity.
  - intros b1 b2 A0 A1 B0 B1.
    do 5 eexists. split; [|split].
    + now apply (rescal_score_t_eval self E Rl).
    + now apply (rescal_score_t_eval self E Rl).
    + rewrite (rescal_score_t_eval self E Rl); try exact Hready;
        rewrite ?map_app; try (now apply ids_in_app).
      reflexivity.
  - intros b1 b2 A0 A1 B0 B1.
    do 5 eexists. split; [|split].
    + now apply (rescal_score_h_eval self E Rl).
    + now apply (rescal_score_h_eval self E Rl).
    + rewrite (rescal_score_h_eval self E Rl); try exact Hready;
        rewrite ?map_app; try (now apply ids_in_app).
      reflexivity.
Qed.

Lemma rescal_scores_of_concatenated_batches_witness :
  rescal_ready rescal_example [[2]; [3]] [[5]]
  /\ exists s1 s2 m1 m2 m,
       RESCAL.score_hrt rescal_example [(0, 0, 1)%nat] = Ok (s1, m1)
       /\ RESCAL.score_hrt rescal_example [(1, 0, 1)%nat] = Ok (s2, m2)
       /\ RESCAL.score_hrt rescal_example [(0, 0, 1)%nat; (1, 0, 1)%nat]
          = Ok (s1 ++ s2, m).
Proof.
  assert (Hr : rescal_ready rescal_example [[2]; [3]] [[5]]) by ready_example.
  split; [exact Hr|].
  exact (proj1 (rescal_scores_of_concatenated_batches rescal_example [[2]; [3]] [[5]] Hr)
           [(0, 0, 1)%nat] [(1, 0, 1)%nat]
           ltac:(ids_ok) ltac:(ids_ok) ltac:(ids_ok)
           ltac:(ids_ok) ltac:(ids_ok) ltac:(ids_ok)).
Defined.

(** ** RESCAL: one call after another *)

Lemma embedding_forward_plain_inv (w : T2) (ids : list nat) (rows : T2) (e : Embedding) :
  embedding_forward (mkEmbedding w None) ids = Ok (rows, e) -> e = mkEmbedding w None.
Proof.
  unfold embedding_forward. cbn [max_norm weight]. intros H.
  destruct (gather w ids); cbn [bind] in H; [|discriminate].
  now injection H as _ <-.
Qed.

Lemma rescal_scores_ignore_regularizer (reg : Regularizer) (self : RESCAL.model) :
  (forall batch, scores_of (RESCAL.score_hrt (rescal_set_regularizer reg self) batch)
                 = scores_of (RESCAL.score_hrt self batch))
  /\ (forall batch, scores_of (RESCAL.score_t (rescal_set_regularizer reg self) batch)
                    = scores_of (RESCAL.score_t self batch))
  /\ (forall batch, scores_of (RESCAL.score_h (rescal_set_regularizer reg self) batch)
                    = scores_of (RESCAL.score_h self batch)).
Proof.
  destruct self as [n r d ent rel reg0]. unfold scores_of.
  split; [|split]; intros batch.
  - unfold RESCAL.score_hrt, rescal_set_regularizer.
    cbn [RESCAL.entity_embeddings RESCAL.relation_embeddings RESCAL.num_entities
         RESCAL.num_relations RESCAL.embedding_dim].
    repeat bind_step; reflexivity.
  - unfold RESCAL.score_t, rescal_set_regularizer.
    cbn [RESCAL.entity_embeddings RESCAL.relation_embeddings RESCAL.num_entities
         RESCAL.num_relations RESCAL.embedding_dim].
    repeat bind_step; reflexivity.
  - unfold RESCAL.score_h, rescal_set_regularizer.
    cbn [RESCAL.entity_embeddings RESCAL.relation_embeddings RESCAL.num_entities
         RESCAL.num_relations RESCAL.embedding_dim].
    repeat bind_step; reflexivity.
Qed.

Ltac plain_tables :=
  repeat match goal with
         | H : embedding_forward (mkEmbedding _ None) _ = Ok (_, ?e) |- _ =>
             apply embedding_forward_plain_inv in H; subst e
         end.

Lemma rescal_after_scoring (self : RESCAL.model) (E Rl : T2) (s : T2)
    (m1 : RESCAL.model) :
  rescal_ready self E Rl ->
  (exists b, RESCAL.score_hrt self b = Ok (s, m1))
  \/ (exists b, RESCAL.score_t self b = Ok (s, m1))
  \/ (exists b, RESCAL.score_h self b = Ok (s, m1)) ->
  exists c, m1 = rescal_set_regularizer (RESCAL.regularizer self ++ [c]) self.
Proof.
  intros (Hd & HeE & HeR & Hn & HE & HR) [[b H]|[[b H]|[b H]]].
  - unfold RESCAL.score_hrt in H. rewrite HeE, HeR in H. cbn [call_embedding] in H.
    bind_inv H. plain_tables.
    injection H as _ <-. eexists.
    unfold RESCAL.regularize_if_necessary, rescal_set_regularizer, regularizer_update.
    cbn. now rewrite HeE, HeR.
  - unfold RESCAL.score_t in H. rewrite HeE, HeR in H. cbn [call_embedding] in H.
    bind_inv H. plain_tables.
    injection H as _ <-. eexists.
    unfold RESCAL.regularize_if_necessary, rescal_set_regularizer, regularizer_update.
    cbn. now rewrite HeE, HeR.
  - unfold RESCAL.score_h in H. rewrite HeE, HeR in H.
    cbn [call_embedding get_weight] in H.
    bind_inv H. plain_tables.
    injection H as _ <-. eexists.
    unfold RESCAL.regularize_if_necessary, rescal_set_regularizer, regularizer_update.
    cbn. now rewrite HeE, HeR.
Qed.

(** X8. RESCAL scoring can be repeated: on a model with tables of the
    configured shapes and no [max_norm], after any scoring call that
    returned, the tables are as before, the regularizer has received exactly
    one more report, and every later scoring call returns the scores (or the
    error) it would have returned before. *)
Theorem rescal_scoring_repeatable (self : RESCAL.model) (E Rl : T2) (s : T2)
    (m1 : RESCAL.model) :
  rescal_ready self E Rl ->
  (exists b, RESCAL.score_hrt self b = Ok (s, m1))
  \/ (exists b, RESCAL.score_t self b = Ok (s, m1))
  \/ (exists b, RESCAL.score_h self b = Ok (s, m1)) ->
  rescal_ready m1 E Rl
  /\ length (RESCAL.regularizer m1) = S (length (RESCAL.regularizer self))
  /\ (forall batch, scores_of (RESCAL.score_hrt m1 batch)
                    = scores_of (RESCAL.score_hrt self batch))
  /\ (forall batch, scores_of (RESCAL.score_t m1 batch)
                    = scores_of (RESCAL.score_t self batch))
  /\ (forall batch, scores_of (RESCAL.score_h m1 batch)
                    = scores_of (RESCAL.score_h self batch)).
Proof.
  intros Hready Hcall.
  destruct (rescal_after_scoring self E Rl s m1 Hready Hcall) as [c ->].
  split; [exact Hready|]. split.
  - cbn. rewrite length_app. cbn. lia.
  - apply rescal_scores_ignore_regularizer.
Qed.

Lemma rescal_scoring_repeatable_witness :
  exists s m1,
    RESCAL.score_hrt rescal_example [(0, 0, 1)%nat] = Ok (s, m1)
    /\ rescal_ready m1 [[2]; [3]] [[5]]
    /\ scores_of (RESCAL.score_t m1 [(1, 0)%nat])
       = scores_of (RESCAL.score_t rescal_example [(1, 0)%nat]).
Proof.
  assert (Hr : rescal_ready rescal_example [[2]; [3]] [[5]]) by ready_example.
  pose proof (rescal_score_hrt_eval rescal_example [[2]; [3]] [[5]] [(0, 0, 1)%nat] Hr
                ltac:(ids_ok) ltac:(ids_ok) ltac:(ids_ok)) as Hs.
  do 2 eexists. split; [exact Hs|].
  destruct (rescal_scoring_repeatable rescal_example [[2]; [3]] [[5]] _ _ Hr
              (or_introl (ex_intro _ [(0, 0, 1)%nat] Hs)))
    as (H1 & _ & _ & H4 & _).
  split; [exact H1 | apply H4].
Defined.

(** ** TransR: what every returned result has *)

Lemma neg_sq_norm2_nonpositive (x : T2) :
  Forall (Forall (fun s => s <= 0)) (TransR.neg_sq_norm2 x).
Proof.
  rewrite neg_sq_norm2_sum_sq. apply Forall_forall. intros r Hr.
  apply in_map_iff in Hr. destruct Hr as [v [<- _]].
  constructor; [|constructor]. pose proof (sum_sq_nonneg v). lra.
Qed.

Lemma neg_sq_norm3_nonpositive (x : T3) :
  Forall (Forall (fun s => s <= 0)) (TransR.neg_sq_norm3 x).
Proof.
  rewrite neg_sq_norm3_sum_sq. apply Forall_forall. intros r Hr.
  apply in_map_iff in Hr. destruct Hr as [m [<- _]].
  apply Forall_forall. intros s Hs.
  apply in_map_iff in Hs. destruct Hs as [v [<- _]].
  pose proof (sum_sq_nonneg v). lra.
Qed.

(** X9. A score of TransR is never positive: whatever the three scoring
    methods return, every entry is at most 0 (it is a negated squared
    norm). *)
Theorem transr_scores_nonpositive (self : TransR.model) :
  (forall batch out m, TransR.score_hrt self batch = Ok (out, m) ->
                       Forall (Forall (fun s => s <= 0)) out)
  /\ (forall batch out m, TransR.score_t self batch = Ok (out, m) ->
                          Forall (Forall (fun s => s <= 0)) out)
  /\ (forall batch out m, TransR.score_h self batch = Ok (out, m) ->
                          Forall (Forall (fun s => s <= 0)) out).
Proof.
  split; [|split]; intros batch out m H.
  - unfold TransR.score_hrt in H. bind_inv H. injection H as <- _.
    apply neg_sq_norm2_nonpositive.
  - unfold TransR.score_t in H. bind_inv H. injection H as <- _.
    apply neg_sq_norm3_nonpositive.
  - unfold TransR.score_h in H. bind_inv H. injection H as <- _.
    apply neg_sq_norm3_nonpositive.
Qed.

Lemma transr_scores_nonpositive_witness :
  TransR.score_hrt example_model [(0, 0, 1)%nat] = Ok ([[-2]], example_model)
  /\ Forall (Forall (fun s => s <= 0)) [[-2]].
Proof.
  split; [exact transr_score_hrt_example|].
  exact (proj1 (transr_scores_nonpositive example_model) _ _ _
           transr_score_hrt_example).
Defined.

(** ** What a lookup does to a table *)

Lemma clip_row_length (mx : R) (r : T1) : length (clip_row mx r) = length r.
Proof.
  unfold clip_row. destruct (Rgt_dec (norm2 r) mx); [apply length_map | reflexivity].
Qed.

Lemma norm2_map_mult_r (c : R) (r : T1) :
  0 <= c -> norm2 (map (fun x => x * c) r) = c * norm2 r.
Proof.
  intros Hc. rewrite <- (norm2_scale c r Hc). f_equal. unfold scale1.
  apply map_ext. intros x. lra.
Qed.

Lemma clip_row_bound (mx : R) (r : T1) : 0 <= mx -> norm2 (clip_row mx r) <= mx.
Proof.
  intros Hmx. unfold clip_row. pose proof renorm_eps_pos as He.
  pose proof (norm2_nonneg r) as Hn.
  destruct (Rgt_dec (norm2 r) mx) as [H|H]; [|lra].
  assert (Hc : 0 <= mx / (norm2 r + renorm_eps)).
  { apply Rmult_le_pos; [exact Hmx|]. left. apply Rinv_0_lt_compat. lra. }
  rewrite norm2_map_mult_r by exact Hc.
  pose proof (renorm_factor_bound mx (norm2 r) Hmx Hn) as B.
  unfold renorm_factor in B. destruct (Rgt_dec (norm2 r) mx); [exact B | lra].
Qed.

Lemma row_renorm_rows_from (k : nat) (mx : R) (ids : list nat) (w : T2) (i : nat) :
  (i < length w)%nat ->
  row (renorm_rows_from k mx ids w) i
  = looked_up_row (Some mx) ids (k + i) (row w i).
Proof.
  unfold row, looked_up_row. revert k i.
  induction w as [|r w IH]; intros k i Hi; [simpl in Hi; lia|].
  destruct i as [|i]; cbn [renorm_rows_from nth].
  - now rewrite Nat.add_0_r.
  - rewrite IH by (simpl in Hi; lia). now rewrite Nat.add_succ_r.
Qed.

Lemma renorm_rows_from_length (k : nat) (mx : R) (ids : list nat) (w : T2) :
  length (renorm_rows_from k mx ids w) = length w.
Proof.
  revert k. induction w as [|r w IH]; intros k; cbn; [reflexivity|]. now rewrite IH.
Qed.

Lemma renorm_rows_from_lengths (k : nat) (mx : R) (ids : list nat) (w : T2) :
  map (@length R) (renorm_rows_from k mx ids w) = map (@length R) w.
Proof.
  revert k. induction w as [|r w IH]; intros k; cbn [renorm_rows_from map];
    [reflexivity|].
  rewrite IH. f_equal. destruct (existsb _ ids); [apply clip_row_length | reflexivity].
Qed.

Lemma forallb_ids_in (w : T2) (ids : list nat) :
  forallb (fun i => (i <? length w)%nat) ids = true -> ids_in w ids.
Proof.
  intros H. unfold ids_in. apply Forall_forall. intros i Hi.
  rewrite forallb_forall in H. apply Nat.ltb_lt. now apply H.
Qed.

Lemma gather_inv (w : T2) (ids : list nat) (rows : T2) :
  gather w ids = Ok rows -> ids_in w ids /\ rows = map (row w) ids.
Proof.
  intros H. destruct (ids_in_dec w ids) as [Hi|Hi].
  - split; [exact Hi|]. rewrite gather_rows in H by exact Hi. now injection H as <-.
  - rewrite gather_out_of_range in H by exact Hi. discriminate.
Qed.

(** A lookup that returns has read rows inside the table; it returns the
    rows of the table it leaves behind, which has the shape and [max_norm] of
    the table it found and differs from it in the looked-up rows only, each
    clipped to [max_norm]. *)
Lemma embedding_forward_inv (e e' : Embedding) (ids : list nat) (rows : T2) :
  embedding_forward e ids = Ok (rows, e') ->
  ids_in (weight e) ids
  /\ same_shape e e'
  /\ rows = map (row (weight e')) ids
  /\ forall i, (i < length (weight e))%nat ->
       row (weight e') i = looked_up_row (max_norm e) ids i (row (weight e) i).
Proof.
  unfold embedding_forward, same_shape. destruct e as [w [mx|]]; cbn [max_norm weight].
  - unfold embedding_renorm_.
    destruct (forallb _ ids) eqn:Hf; cbn [bind]; [|discriminate].
    intros H. destruct (gather _ ids) as [rows'|] eqn:Hg; cbn [bind] in H;
      [|discriminate].
    injection H as <- <-. cbn [max_norm weight].
    apply gather_inv in Hg. destruct Hg as [_ ->].
    repeat split.
    + now apply forallb_ids_in.
    + apply renorm_rows_from_lengths.
    + intros i Hi. now rewrite row_renorm_rows_from.
  - intros H. destruct (gather w ids) as [rows'|] eqn:Hg; cbn [bind] in H;
      [|discriminate].
    injection H as <- <-. cbn [max_norm weight].
    apply gather_inv in Hg. destruct Hg as [Hi ->].
    repeat split. exact Hi.
Qed.

Lemma embedding_forward_kept (e e' : Embedding) (ids : list nat) (rows : T2) :
  embedding_forward e ids = Ok (rows, e') ->
  same_shape e e' /\ (max_norm e = None -> e' = e).
Proof.
  intros H. split; [now apply (embedding_forward_inv e e' ids rows)|].
  intros Hn. unfold embedding_forward in H. rewrite Hn in H.
  destruct (gather (weight e) ids); cbn [bind] in H; [|discriminate].
  now injection H as _ <-.
Qed.

Lemma same_shape_trans (e1 e2 e3 : Embedding) :
  same_shape e1 e2 -> same_shape e2 e3 -> same_shape e1 e3.
Proof. unfold same_shape. intros [A B] [C D]. split; congruence. Qed.

Lemma table_kept_one (t : option Embedding) (ids : list nat) (rows : T2)
    (e' : Embedding) :
  call_embedding t ids = Ok (rows, e') -> table_kept t (Some e').
Proof.
  destruct t as [e|]; cbn [call_embedding]; [|discriminate].
  intros H. apply embedding_forward_kept in H. destruct H as [A B].
  exists e, e'. repeat split; try assumption; apply A.
Qed.

Lemma table_kept_two (t : option Embedding) (ids ids' : list nat) (rows rows' : T2)
    (e1 e2 : Embedding) :
  call_embedding t ids = Ok (rows, e1) ->
  embedding_forward e1 ids' = Ok (rows', e2) ->
  table_kept t (Some e2).
Proof.
  destruct t as [e|]; cbn [call_embedding]; [|discriminate].
  intros H1 H2. apply embedding_forward_kept in H1, H2.
  destruct H1 as [A B], H2 as [C D].
  exists e, e2. split; [reflexivity|]. split; [reflexivity|]. split.
  - now apply (same_shape_trans e e1 e2).
  - intros Hn. rewrite <- (B Hn). apply D. destruct A as [A _]. congruence.
Qed.

(** X10. A scoring call of TransR that returns leaves the sizes,
    [scoring_fct_norm] and the regularizer as they were (TransR never reports
    to the regularizer), and keeps every table present with its shape and
    [max_norm]; a table without [max_norm], as the projection table that
    [init_empty_weights_] creates, is not changed at all. *)
Theorem transr_scoring_frame (self m : TransR.model) (out : T2) :
  (exists b, TransR.score_hrt self b = Ok (out, m))
  \/ (exists b, TransR.score_t self b = Ok (out, m))
  \/ (exists b, TransR.score_h self b = Ok (out, m)) ->
  TransR.num_entities m = TransR.num_entities self
  /\ TransR.num_relations m = TransR.num_relations self
  /\ TransR.embedding_dim m = TransR.embedding_dim self
  /\ TransR.relation_embedding_dim m = TransR.relation_embedding_dim self
  /\ TransR.scoring_fct_norm m = TransR.scoring_fct_norm self
  /\ TransR.regularizer m = TransR.regularizer self
  /\ table_kept (TransR.entity_embeddings self) (TransR.entity_embeddings m)
  /\ table_kept (TransR.relation_embeddings self) (TransR.relation_embeddings m)
  /\ table_kept (TransR.relation_projections self) (TransR.relation_projections m).
Proof.
  intros [[b H]|[[b H]|[b H]]].
  - unfold TransR.score_hrt in H. bind_inv H. injection H as _ <-.
    cbn. repeat split;
      eauto using table_kept_one, table_kept_two.
  - unfold TransR.score_t in H. bind_inv H. injection H as _ <-.
    cbn. repeat split;
      eauto using table_kept_one, table_kept_two.
  - unfold TransR.score_h in H. bind_inv H. injection H as _ <-.
    cbn. repeat split;
      eauto using table_kept_one, table_kept_two.
Qed.

Lemma transr_scoring_frame_witness :
  TransR.score_hrt example_model [(0, 0, 1)%nat] = Ok ([[-2]], example_model)
  /\ TransR.regularizer example_model = []
  /\ table_kept (TransR.relation_projections example_model)
       (TransR.relation_projections example_model).
Proof.
  split; [exact transr_score_hrt_example|].
  destruct (transr_scoring_frame example_model example_model [[-2]]
              (or_introl (ex_intro _ [(0, 0, 1)%nat] transr_score_hrt_example)))
    as (_ & _ & _ & _ & _ & H6 & _ & _ & H9).
  split; [reflexivity | exact H9].
Defined.

(** ** A second lookup *)

Lemma renorm_rows_from_settled (k : nat) (mx : R) (ids : list nat) (w : T2) :
  (forall i, (i < length w)%nat -> existsb (Nat.eqb (k + i)) ids = true ->
             norm2 (row w i) <= mx) ->
  renorm_rows_from k mx ids w = w.
Proof.
  revert k. induction w as [|r w IH]; intros k H; cbn [renorm_rows_from];
    [reflexivity|].
  f_equal.
  - destruct (existsb (Nat.eqb k) ids) eqn:Ex; [|reflexivity].
    apply clip_row_within. apply (H 0%nat); [simpl; lia|].
    now rewrite Nat.add_0_r.
  - apply IH. intros i Hi Ex. apply (H (S i)); [simpl; lia|].
    now rewrite Nat.add_succ_r.
Qed.

Lemma existsb_eqb_in (i : nat) (ids : list nat) :
  existsb (Nat.eqb i) ids = true <-> In i ids.
Proof.
  rewrite existsb_exists. split.
  - intros [x [Hx E]]. apply Nat.eqb_eq in E. now subst.
  - intros H. exists i. split; [exact H | apply Nat.eqb_refl].
Qed.

(** A lookup of rows that are within [max_norm] changes nothing. *)
Lemma embedding_forward_settled (e : Embedding) (ids : list nat) :
  ids_in (weight e) ids ->
  (forall i, In i ids -> row_within e i) ->
  embedding_forward e ids = Ok (map (row (weight e)) ids, e).
Proof.
  intros Hi Hw. unfold embedding_forward, row_within in *.
  destruct e as [w [mx|]]; cbn [max_norm weight] in *.
  - unfold embedding_renorm_. rewrite ids_in_forallb by exact Hi. cbn [bind].
    rewrite renorm_rows_from_settled.
    + now rewrite gather_rows.
    + intros i _ Ex. apply Hw. now apply existsb_eqb_in.
  - now rewrite gather_rows.
Qed.

Lemma same_shape_length (e e' : Embedding) :
  same_shape e e' -> length (weight e') = length (weight e).
Proof.
  intros [_ H]. apply (f_equal (@length nat)) in H. now rewrite !length_map in H.
Qed.

(** After a lookup the rows it read are within [max_norm]. *)
Lemma embedding_forward_rows_within (e e' : Embedding) (ids : list nat) (rows : T2) :
  embedding_forward e ids = Ok (rows, e') -> max_norm_nonneg e ->
  forall i, In i ids -> row_within e' i.
Proof.
  intros H Hn i Hi.
  destruct (embedding_forward_inv e e' ids rows H) as (Hin & [Hm _] & _ & Hrow).
  unfold row_within, max_norm_nonneg in *. rewrite Hm.
  destruct (max_norm e) as [mx|]; [|exact I].
  unfold ids_in in Hin. rewrite Forall_forall in Hin.
  rewrite Hrow by now apply Hin.
  unfold looked_up_row. apply existsb_eqb_in in Hi. rewrite Hi.
  now apply clip_row_bound.
Qed.

(** A lookup leaves the rows that are within [max_norm] as they are. *)
Lemma embedding_forward_keeps_within (e e' : Embedding) (ids : list nat) (rows : T2)
    (i : nat) :
  embedding_forward e ids = Ok (rows, e') -> row_within e i ->
  row (weight e') i = row (weight e) i /\ row_within e' i.
Proof.
  intros H Hw.
  destruct (embedding_forward_inv e e' ids rows H) as (Hin & Hs & _ & Hrow).
  assert (E : row (weight e') i = row (weight e) i).
  { destruct (Nat.lt_ge_cases i (length (weight e))) as [Hi|Hi].
    - rewrite Hrow by exact Hi. unfold looked_up_row, row_within in *.
      destruct (max_norm e) as [mx|]; [|reflexivity].
      destruct (existsb _ ids); [now apply clip_row_within | reflexivity].
    - unfold row. rewrite !nth_overflow; try reflexivity; try exact Hi.
      now rewrite (same_shape_length e e' Hs). }
  split; [exact E|].
  unfold row_within in *. destruct Hs as [Hm _]. rewrite Hm, E. exact Hw.
Qed.

Lemma embedding_forward_again (e e' : Embedding) (ids : list nat) (rows : T2) :
  embedding_forward e ids = Ok (rows, e') -> max_norm_nonneg e ->
  embedding_forward e' ids = Ok (rows, e').
Proof.
  intros H Hn.
  destruct (embedding_forward_inv e e' ids rows H) as (Hin & Hs & -> & _).
  apply embedding_forward_settled.
  - unfold ids_in in *. now rewrite (same_shape_length e e' Hs).
  - now apply (embedding_forward_rows_within e e' ids _ H).
Qed.

Lemma embedding_forward_again_first (e e1 e2 : Embedding) (ids1 ids2 : list nat)
    (rows1 rows2 : T2) :
  embedding_forward e ids1 = Ok (rows1, e1) ->
  embedding_forward e1 ids2 = Ok (rows2, e2) ->
  max_norm_nonneg e ->
  embedding_forward e2 ids1 = Ok (rows1, e2).
Proof.
  intros H1 H2 Hn.
  destruct (embedding_forward_inv e e1 ids1 rows1 H1) as (Hin1 & Hs1 & -> & _).
  destruct (embedding_forward_inv e1 e2 ids2 rows2 H2) as (_ & Hs2 & _ & _).
  assert (K : forall i, In i ids1 ->
                row (weight e2) i = row (weight e1) i /\ row_within e2 i).
  { intros i Hi. apply (embedding_forward_keeps_within e1 e2 ids2 rows2 i H2).
    now apply (embedding_forward_rows_within e e1 ids1 _ H1). }
  rewrite embedding_forward_settled.
  - do 2 f_equal. apply map_ext_in. intros i Hi. now apply K.
  - unfold ids_in in *.
    now rewrite (same_shape_length e1 e2 Hs2), (same_shape_length e e1 Hs1).
  - intros i Hi. now apply K.
Qed.

Ltac replay :=
  repeat match goal with
         | H : ?c = Ok _ |- context [bind ?c _] => rewrite H; cbn [bind]
         end.

Lemma call_embedding_some (t : option Embedding) (ids : list nat) (rows : T2)
    (e' : Embedding) :
  call_embedding t ids = Ok (rows, e') ->
  exists e, t = Some e /\ embedding_forward e ids = Ok (rows, e').
Proof.
  destruct t as [e|]; cbn [call_embedding]; [|discriminate].
  intros H. now exists e.
Qed.

Lemma max_norm_nonneg_forward (e e' : Embedding) (ids : list nat) (rows : T2) :
  embedding_forward e ids = Ok (rows, e') -> max_norm_nonneg e -> max_norm_nonneg e'.
Proof.
  intros H N. destruct (embedding_forward_inv _ _ _ _ H) as (_ & [Hm _] & _).
  unfold max_norm_nonneg in *. now rewrite Hm.
Qed.

Ltac open_calls :=
  repeat match goal with
         | H : call_embedding ?t _ = Ok _ |- _ =>
             let e := fresh "tbl" in
             let Ht := fresh "Ht" in
             apply call_embedding_some in H; destruct H as (e & Ht & H);
             rewrite Ht in *
         end.

Ltac nonneg_tables :=
  repeat match goal with
         | H : embedding_forward ?e _ = Ok (_, ?e'), N : max_norm_nonneg ?e |- _ =>
             lazymatch goal with
             | _ : max_norm_nonneg e' |- _ => fail
             | _ => pose proof (max_norm_nonneg_forward _ _ _ _ H N)
             end
         end.

Ltac lookup_again :=
  match goal with
  | H1 : embedding_forward ?e ?ids1 = Ok (_, ?e1),
    H2 : embedding_forward ?e1 _ = Ok (_, ?e2),
    N : max_norm_nonneg ?e |- context [embedding_forward ?e2 ?ids1] =>
      rewrite (embedding_forward_again_first _ _ _ _ _ _ _ H1 H2 N); cbn [bind]
  | H : embedding_forward ?e ?ids = Ok (_, ?e'),
    N : max_norm_nonneg ?e |- context [embedding_forward ?e' ?ids] =>
      rewrite (embedding_forward_again _ _ _ _ H N); cbn [bind]
  end.

(** X11. The side effect of TransR scoring settles after one call: when the
    tables' [max_norm] is not negative and a scoring method returns scores
    and the model it leaves behind, the same call on that model returns the
    same scores and leaves the model as it is. *)
Theorem transr_second_call_same (self m : TransR.model) (out : T2) :
  transr_max_norms_nonneg self ->
  (forall b, TransR.score_hrt self b = Ok (out, m) ->
             TransR.score_hrt m b = Ok (out, m))
  /\ (forall b, TransR.score_t self b = Ok (out, m) ->
                TransR.score_t m b = Ok (out, m))
  /\ (forall b, TransR.score_h self b = Ok (out, m) ->
                TransR.score_h m b = Ok (out, m)).
Proof.
  unfold transr_max_norms_nonneg.
  intros (Ne & Nr & Np). split; [|split]; intros b H.
  - unfold TransR.score_hrt in H. bind_inv H. injection H as <- <-.
    open_calls. cbn [table_max_norm_nonneg] in *. nonneg_tables.
    unfold TransR.score_hrt. cbn [TransR.set_tables TransR.entity_embeddings
      TransR.relation_embeddings TransR.relation_projections TransR.embedding_dim
      TransR.relation_embedding_dim TransR.num_entities call_embedding].
    repeat first [lookup_again | progress replay]. reflexivity.
  - unfold TransR.score_t in H. bind_inv H. injection H as <- <-.
    open_calls. cbn [table_max_norm_nonneg] in *. nonneg_tables.
    unfold TransR.score_t. cbn [TransR.set_tables TransR.entity_embeddings
      TransR.relation_embeddings TransR.relation_projections TransR.embedding_dim
      TransR.relation_embedding_dim TransR.num_entities call_embedding].
    repeat first [lookup_again | progress replay]. reflexivity.
  - unfold TransR.score_h in H. bind_inv H. injection H as <- <-.
    open_calls. cbn [table_max_norm_nonneg] in *. nonneg_tables.
    unfold TransR.score_h. cbn [TransR.set_tables TransR.entity_embeddings
      TransR.relation_embeddings TransR.relation_projections TransR.embedding_dim
      TransR.relation_embedding_dim TransR.num_entities call_embedding get_weight
      bind].
    repeat first [lookup_again | progress replay]. reflexivity.
Qed.

Example transr_score_hrt_clips_looked_up_row :
  exists s, TransR.score_hrt long_row_model [(0, 0, 1)%nat]
            = Ok ([[s]], long_row_model_clipped).
Proof.
  eexists. unfold TransR.score_hrt, long_row_model.
  eval_within.
  rewrite neg_sq_norm2_sum_sq. unfold sum_sq. cbn [map Rsum fold_right].
  reflexivity.
Qed.

Lemma transr_second_call_same_witness :
  transr_max_norms_nonneg long_row_model
  /\ exists s,
       TransR.score_hrt long_row_model [(0, 0, 1)%nat]
       = Ok ([[s]], long_row_model_clipped)
       /\ TransR.score_hrt long_row_model_clipped [(0, 0, 1)%nat]
          = Ok ([[s]], long_row_model_clipped).
Proof.
  assert (N : transr_max_norms_nonneg long_row_model).
  { unfold transr_max_norms_nonneg, long_row_model, table_max_norm_nonneg,
      max_norm_nonneg. cbn. repeat split; lra. }
  split; [exact N|].
  destruct transr_score_hrt_clips_looked_up_row as [s Hs].
  exists s. split; [exact Hs|].
  exact (proj1 (transr_second_call_same long_row_model long_row_model_clipped [[s]] N)
           _ Hs).
Defined.

(** ** After [post_parameter_update] *)

Lemma normalize_row_norm (v : T1) :
  norm2 (normalize_row v) = norm2 v / Rmax (norm2 v) normalize_eps.
Proof.
  pose proof normalize_eps_pos as He.
  assert (Hm : 0 < Rmax (norm2 v) normalize_eps).
  { eapply Rlt_le_trans; [exact He | apply Rmax_r]. }
  unfold normalize_row.
  change (map (fun x => x / Rmax (norm2 v) normalize_eps) v)
    with (map (fun x => x * / Rmax (norm2 v) normalize_eps) v).
  rewrite norm2_map_mult_r by (left; now apply Rinv_0_lt_compat).
  unfold Rdiv. lra.
Qed.

Lemma normalize_row_norm_le_1 (v : T1) : norm2 (normalize_row v) <= 1.
Proof.
  rewrite normalize_row_norm.
  pose proof normalize_eps_pos as He.
  assert (Hm : 0 < Rmax (norm2 v) normalize_eps).
  { eapply Rlt_le_trans; [exact He | apply Rmax_r]. }
  apply (Rmult_le_reg_r (Rmax (norm2 v) normalize_eps)); [exact Hm|].
  unfold Rdiv. rewrite Rmult_assoc, Rinv_l by lra.
  rewrite Rmult_1_r, Rmult_1_l. apply Rmax_l.
Qed.

Lemma normalize_length (w : T2) : length (normalize w) = length w.
Proof. apply length_map. Qed.

(** X12. [post_parameter_update] needs the entity table and nothing else:
    it raises [AttributeError] when the entity table is missing, as it is
    after [clear_weights_], and it returns after [init_empty_weights_].  When
    it returns it has touched the entity rows only: the sizes,
    [scoring_fct_norm], the relation table and the projection table are as
    before (the relation rows are not normalized again), the entity table
    keeps its [max_norm] and its shape, and the regularizer is the one the
    update of the base class leaves. *)
Theorem transr_post_parameter_update_frame
    (super_post_parameter_update : Regularizer -> Regularizer)
    (rng : Type) (new_embedding_weight : nat -> nat -> rng -> T2 * rng)
    (embedding_xavier_uniform_ : Embedding -> rng -> Embedding * rng)
    (self : TransR.model) :
  let update := TransR.post_parameter_update super_post_parameter_update in
  update (TransR.clear_weights_ self) = Err AttributeError
  /\ (forall g, exists m,
        update (fst (TransR.init_empty_weights_ rng new_embedding_weight
                       embedding_xavier_uniform_ self g)) = Ok m)
  /\ (TransR.entity_embeddings self = None -> update self = Err AttributeError)
  /\ forall m, update self = Ok m ->
       TransR.num_entities m = TransR.num_entities self
       /\ TransR.num_relations m = TransR.num_relations self
       /\ TransR.embedding_dim m = TransR.embedding_dim self
       /\ TransR.relation_embedding_dim m = TransR.relation_embedding_dim self
       /\ TransR.scoring_fct_norm m = TransR.scoring_fct_norm self
       /\ TransR.regularizer m = super_post_parameter_update (TransR.regularizer self)
       /\ TransR.relation_embeddings m = TransR.relation_embeddings self
       /\ TransR.relation_projections m = TransR.relation_projections self
       /\ exists e e',
            TransR.entity_embeddings self = Some e
            /\ TransR.entity_embeddings m = Some e'
            /\ same_shape e e'.
Proof.
  intros update. subst update. split; [|split; [|split]].
  - reflexivity.
  - intros g. unfold TransR.post_parameter_update, TransR.init_empty_weights_.
    destruct self as [n r d_e d_r p ent rel proj reg].
    cbn [TransR.entity_embeddings TransR.relation_embeddings
         TransR.relation_projections TransR.num_entities TransR.num_relations
         TransR.embedding_dim TransR.relation_embedding_dim].
    destruct ent as [e1|]; destruct rel as [e2|]; destruct proj as [e3|];
      repeat match goal with
             | |- context [new_embedding_weight ?a ?b ?c] =>
                 destruct (new_embedding_weight a b c)
             | |- context [embedding_xavier_uniform_ ?a ?b] =>
                 destruct (embedding_xavier_uniform_ a b)
             end;
      cbn; eexists; reflexivity.
  - intros H. unfold TransR.post_parameter_update.
    cbn [TransR.set_regularizer TransR.entity_embeddings]. now rewrite H.
  - intros m H. unfold TransR.post_parameter_update in H.
    cbn [TransR.set_regularizer TransR.entity_embeddings] in H.
    destruct (TransR.entity_embeddings self) as [e|] eqn:He; [|discriminate H].
    injection H as <-. cbn. repeat split.
    exists e, (mkEmbedding (normalize (weight e)) (max_norm e)).
    repeat split. cbn [weight]. unfold normalize. rewrite map_map.
    apply map_ext. intros v. apply length_map.
Qed.

Lemma transr_post_parameter_update_frame_witness :
  exists m,
    TransR.post_parameter_update (fun reg => reg) long_row_model = Ok m
    /\ TransR.relation_embeddings m = Some (mkEmbedding [[0]] (Some 1))
    /\ TransR.relation_projections m = Some (mkEmbedding [[/ 2]] None).
Proof.
  eexists. split; [reflexivity|].
  destruct (proj2 (proj2 (proj2
              (transr_post_parameter_update_frame (fun reg => reg) unit
                 (fun _ _ g => ([], g)) (fun e g => (e, g)) long_row_model)))
              _ eq_refl)
    as (_ & _ & _ & _ & _ & _ & H7 & H8 & _).
  split; [exact H7 | exact H8].
Defined.

(** ** The relation table that [init_empty_weights_] creates *)

(** X14. The relation table that [TransR.init_empty_weights_] creates has
    rows of norm at most 1, whatever the generator draws: each row is the
    drawn row divided by [max(norm, 1e-12)], of norm exactly 1 when the drawn
    row has a norm of at least 1e-12. *)
Theorem transr_init_relation_rows_unit
    (n r d_e d_r : nat) (p : Z) (ent proj : option Embedding) (reg : Regularizer)
    (rng : Type) (new_embedding_weight : nat -> nat -> rng -> T2 * rng)
    (embedding_xavier_uniform_ : Embedding -> rng -> Embedding * rng) (g : rng) :
  let self := TransR.mkModel n r d_e d_r p ent None proj reg in
  let g1 :=
    match ent with
    | Some _ => g
    | None =>
        let draw := new_embedding_weight n d_e g in
        snd (embedding_xavier_uniform_ (mkEmbedding (fst draw) (Some 1)) (snd draw))
    end in
  let draw := new_embedding_weight r d_r g1 in
  let drawn :=
    fst (embedding_xavier_uniform_ (mkEmbedding (fst draw) (Some 1)) (snd draw)) in
  TransR.relation_embeddings
    (fst (TransR.init_empty_weights_ rng new_embedding_weight
            embedding_xavier_uniform_ self g))
  = Some (mkEmbedding (normalize (weight drawn)) (max_norm drawn))
  /\ (forall i, norm2 (row (normalize (weight drawn)) i) <= 1)
  /\ forall i, normalize_eps <= norm2 (row (weight drawn) i) ->
       norm2 (row (normalize (weight drawn)) i) = 1.
Proof.
  intros self g1 draw drawn. split; [|split].
  - subst self drawn draw g1. unfold TransR.init_empty_weights_.
    cbn [TransR.entity_embeddings TransR.relation_embeddings
         TransR.relation_projections TransR.num_entities TransR.num_relations
         TransR.embedding_dim TransR.relation_embedding_dim].
    cbv zeta.
    destruct ent as [e1|].
    + destruct (new_embedding_weight r d_r g) as [w2 g2]. cbn [fst snd].
      destruct (embedding_xavier_uniform_ (mkEmbedding w2 (Some 1)) g2) as [e2 g3].
      cbn [fst snd].
      destruct proj as [e3|]; [reflexivity|].
      destruct (new_embedding_weight r (d_r * d_e)%nat g3). reflexivity.
    + destruct (new_embedding_weight n d_e g) as [w1 g1]. cbn [fst snd].
      destruct (embedding_xavier_uniform_ (mkEmbedding w1 (Some 1)) g1) as [e1 g2].
      cbn [fst snd].
      destruct (new_embedding_weight r d_r g2) as [w2 g3]. cbn [fst snd].
      destruct (embedding_xavier_uniform_ (mkEmbedding w2 (Some 1)) g3) as [e2 g4].
      cbn [fst snd].
      destruct proj as [e3|]; [reflexivity|].
      destruct (new_embedding_weight r (d_r * d_e)%nat g4). reflexivity.
  - intros i. rewrite row_normalize. apply normalize_row_norm_le_1.
  - intros i Hi. rewrite row_normalize. now apply normalize_row_unit.
Qed.

Lemma transr_init_relation_rows_unit_witness :
  TransR.relation_embeddings
    (fst (TransR.init_empty_weights_ unit (fun _ _ g => ([[1]], g)) (fun e g => (e, g))
            (TransR.mkModel 1 1 1 1 1 None None None []) tt))
  = Some (mkEmbedding (normalize [[1]]) (Some 1))
  /\ norm2 (row (normalize [[1]]) 0) = 1.
Proof.
  destruct (transr_init_relation_rows_unit 1 1 1 1 1 None None [] unit
              (fun _ _ g => ([[1]], g)) (fun e g => (e, g)) tt) as (H1 & _ & H3).
  split; [exact H1|].
  apply H3. cbn [fst snd weight row nth].
  rewrite norm2_single by lra. unfold normalize_eps. lra.
Defined.

(** ** Shapes through the tensor operations *)

Lemma shape2_lengths (n d : nat) (x : T2) :
  shape2 n d x <-> map (@length R) x = repeat d n.
Proof.
  unfold shape2. split.
  - intros [<- H]. induction H as [|r x Hr _ IH]; [reflexivity|].
    cbn. now rewrite Hr, IH.
  - intros H. split.
    + apply (f_equal (@length nat)) in H. now rewrite length_map, repeat_length in H.
    + apply Forall_forall. intros r Hr.
      apply (repeat_spec n d). rewrite <- H. now apply in_map.
Qed.

Lemma mapM_total {A B : Type} (f : A -> result B) (P : B -> Prop) (l : list A) :
  (forall a, In a l -> exists b, f a = Ok b /\ P b) ->
  exists bs, mapM f l = Ok bs /\ length bs = length l /\ Forall P bs.
Proof.
  induction l as [|a l IH]; intros H.
  - exists []. repeat split. constructor.
  - destruct (H a (or_introl eq_refl)) as (b & Hb & Pb).
    destruct IH as (bs & Hbs & Hl & HP); [intros; apply H; now right|].
    exists (b :: bs). cbn [mapM]. rewrite Hb. cbn [bind]. rewrite Hbs. cbn [bind].
    repeat split; [cbn; now rewrite Hl | now constructor].
Qed.

Lemma broadcast_total_zip {A B C : Type} (f : A -> B -> result C) (P : C -> Prop)
    (x : list A) (y : list B) :
  length x = length y ->
  (forall a c, In a x -> In c y -> exists z, f a c = Ok z /\ P z) ->
  exists zs, broadcast f x y = Ok zs /\ length zs = length x /\ Forall P zs.
Proof.
  intros Hl H. rewrite broadcast_zip by exact Hl.
  destruct (mapM_total (fun p => f (fst p) (snd p)) P (combine x y))
    as (zs & Hz & Hlen & HP).
  - intros [a c] Hin. apply H; [now apply in_combine_l in Hin
                               | now apply in_combine_r in Hin].
  - exists zs. repeat split; try assumption.
    rewrite Hlen, length_combine. lia.
Qed.

Lemma broadcast_total_l {A B C : Type} (f : A -> B -> result C) (P : C -> Prop)
    (a : A) (y : list B) :
  (forall c, In c y -> exists z, f a c = Ok z /\ P z) ->
  exists zs, broadcast f [a] y = Ok zs /\ length zs = length y /\ Forall P zs.
Proof. intros H. rewrite broadcast_one_l. now apply mapM_total. Qed.

Lemma matmul_shape (p k q : nat) (a c : T2) :
  (0 < k)%nat -> shape2 p k a -> shape2 k q c ->
  exists z, matmul a c = Ok z /\ shape2 p q z.
Proof.
  intros Hk [La Ha] [Lc Hc].
  rewrite (matmul_rows k) by assumption.
  eexists. split; [reflexivity|]. split; [now rewrite length_map|].
  apply Forall_forall. intros r Hr. apply in_map_iff in Hr.
  destruct Hr as [u [<- _]]. rewrite vecmat_length.
  destruct c as [|c0 c]; [simpl in Lc; lia|].
  cbn [ncols]. now inversion Hc.
Qed.

Lemma bmm_shape_zip (b p k q : nat) (x y : T3) :
  (0 < k)%nat -> shape3 b p k x -> shape3 b k q y ->
  exists z, bmm x y = Ok z /\ shape3 b p q z.
Proof.
  intros Hk [Lx Hx] [Ly Hy]. unfold bmm.
  destruct (broadcast_total_zip matmul (shape2 p q) x y) as (z & Hz & Hl & HP).
  - congruence.
  - intros a c Ha Hc. rewrite Forall_forall in Hx, Hy.
    apply (matmul_shape p k q); auto.
  - exists z. repeat split; try assumption. congruence.
Qed.

Lemma bmm_shape_l (b p k q : nat) (a : T2) (y : T3) :
  (0 < k)%nat -> shape2 p k a -> shape3 b k q y ->
  exists z, bmm [a] y = Ok z /\ shape3 b p q z.
Proof.
  intros Hk Sa [Ly Hy]. unfold bmm.
  destruct (broadcast_total_l matmul (shape2 p q) a y) as (z & Hz & Hl & HP).
  - intros c Hc. rewrite Forall_forall in Hy. apply (matmul_shape p k q); auto.
  - exists z. repeat split; try assumption. congruence.
Qed.

Lemma shape3_rows (b p d : nat) (x : T3) :
  shape3 b p d x -> shape2 (b * p) d (concat x).
Proof.
  intros [Lx Hx]. split.
  - rewrite (length_concat_rows p), Lx; [reflexivity|].
    eapply Forall_impl; [|exact Hx]. now intros m [Hm _].
  - apply Forall_concat. eapply Forall_impl; [|exact Hx]. now intros m [_ Hm].
Qed.

Lemma renorm_shape (mx : R) (b p d : nat) (x : T3) :
  shape3 b p d x -> shape3 b p d (renorm mx x).
Proof.
  intros S. pose proof (shape3_rows b p d x S) as [_ Hrows].
  destruct S as [Lx Hx]. unfold renorm. split; [now rewrite length_map|].
  apply Forall_forall. intros m' Hm'. apply in_map_iff in Hm'.
  destruct Hm' as [m [<- Hm]]. rewrite Forall_forall in Hx.
  destruct (Hx m Hm) as [Lm Fm]. split; [now rewrite length_map|].
  apply Forall_forall. intros r' Hr'. apply in_map_iff in Hr'.
  destruct Hr' as [r [<- Hr]].
  assert (Hin : In r (concat x)) by (apply in_concat; now exists m).
  rewrite Forall_forall in Hrows, Fm.
  rewrite mul_last_length_full; [now apply Fm|].
  rewrite renorm_factors_length, (Fm r Hr).
  destruct (concat x) as [|r0 rest]; [contradiction|].
  cbn [ncols]. symmetry. apply Hrows. now left.
Qed.

Lemma view2_rows (d : nat) (rows : T2) :
  (0 < d)%nat -> Forall (fun r => length r = d) rows ->
  view2 d (concat rows) = Ok rows.
Proof.
  intros Hd H. unfold view2.
  rewrite (length_concat_rows d rows H), Nat.Div0.mod_mul.
  replace (d =? 0)%nat with false by (symmetry; apply Nat.eqb_neq; lia).
  cbn. now rewrite chunk_concat.
Qed.

Lemma view3_flat3 (b p d : nat) (x : T3) :
  (0 < p)%nat -> (0 < d)%nat -> shape3 b p d x ->
  view3 p d (flat3 x) = Ok x.
Proof.
  intros Hp Hd S. pose proof (shape3_rows b p d x S) as [Lr Hr].
  destruct S as [Lx Hx]. unfold view3, flat3.
  rewrite (length_concat_rows d (concat x) Hr), Lr.
  replace (b * p * d)%nat with (b * (p * d))%nat by lia.
  rewrite Nat.Div0.mod_mul.
  replace (p * d =? 0)%nat with false by (symmetry; apply Nat.eqb_neq; nia).
  cbn. rewrite chunk_concat by assumption.
  rewrite chunk_concat; [reflexivity | exact Hp |].
  eapply Forall_impl; [|exact Hx]. now intros m [Hm _].
Qed.

Lemma view3_shape (b p d : nat) (x : T2) :
  (0 < p)%nat -> (0 < d)%nat -> shape2 b (p * d) x ->
  exists z, view3 p d (flat2 x) = Ok z /\ shape3 b p d z.
Proof.
  intros Hp Hd [Lx Hx]. rewrite view3_rows by assumption.
  eexists. split; [reflexivity|]. split; [now rewrite length_map|].
  apply Forall_forall. intros m Hm. apply in_map_iff in Hm.
  destruct Hm as [r [<- Hr]]. rewrite Forall_forall in Hx.
  split; [apply reshape_length | apply reshape_rows_length; now apply Hx].
Qed.

Lemma ew1_shape (g : R -> R -> R) (d : nat) (u v : T1) :
  length u = d -> length v = d ->
  exists z, broadcast (fun a b => Ok (g a b)) u v = Ok z /\ length z = d.
Proof.
  intros Hu Hv.
  destruct (broadcast_total_zip (fun a b => Ok (g a b)) (fun _ => True) u v)
    as (z & Hz & Hl & _).
  - congruence.
  - intros a c _ _. now exists (g a c).
  - exists z. split; [exact Hz | congruence].
Qed.

Lemma ew2_shape (g : R -> R -> R) (b d : nat) (x y : T2) :
  shape2 b d x -> shape2 b d y ->
  exists z, broadcast (broadcast (fun a c => Ok (g a c))) x y = Ok z /\ shape2 b d z.
Proof.
  intros [Lx Hx] [Ly Hy].
  destruct (broadcast_total_zip (broadcast (fun a c => Ok (g a c)))
              (fun r => length r = d) x y) as (z & Hz & Hl & HP).
  - congruence.
  - intros u v Hu Hv. rewrite Forall_forall in Hx, Hy.
    apply ew1_shape; auto.
  - exists z. repeat split; try assumption. congruence.
Qed.

Lemma ew3_shape (g : R -> R -> R) (b p d : nat) (x y : T3) :
  shape3 b p d x -> shape3 b p d y ->
  exists z, broadcast (broadcast (broadcast (fun a c => Ok (g a c)))) x y = Ok z
            /\ shape3 b p d z.
Proof.
  intros [Lx Hx] [Ly Hy].
  destruct (broadcast_total_zip (broadcast (broadcast (fun a c => Ok (g a c))))
              (shape2 p d) x y) as (z & Hz & Hl & HP).
  - congruence.
  - intros u v Hu Hv. rewrite Forall_forall in Hx, Hy.
    apply ew2_shape; auto.
  - exists z. repeat split; try assumption. congruence.
Qed.

Lemma ew3_shape_broadcast (g : R -> R -> R) (b n d : nat) (x y : T3) :
  shape3 b 1 d x -> shape3 b n d y ->
  exists z, broadcast (broadcast (broadcast (fun a c => Ok (g a c)))) x y = Ok z
            /\ shape3 b n d z.
Proof.
  intros [Lx Hx] [Ly Hy].
  destruct (broadcast_total_zip (broadcast (broadcast (fun a c => Ok (g a c))))
              (shape2 n d) x y) as (z & Hz & Hl & HP).
  - congruence.
  - intros u v Hu Hv. rewrite Forall_forall in Hx, Hy.
    destruct (Hx u Hu) as [Lu Fu], (Hy v Hv) as [Lv Fv].
    destruct u as [|u0 [|u1 u]]; try discriminate.
    destruct (broadcast_total_l (broadcast (fun a c => Ok (g a c)))
                (fun r => length r = d) u0 v) as (z & Hz & Hl & HP).
    + intros c Hc. rewrite Forall_forall in Fv. apply ew1_shape.
      * now inversion Fu.
      * now apply Fv.
    + exists z. repeat split; try assumption. congruence.
  - exists z. repeat split; try assumption. congruence.
Qed.

Lemma broadcast_total_r {A B C : Type} (f : A -> B -> result C) (P : C -> Prop)
    (x : list A) (c : B) :
  (forall a, In a x -> exists z, f a c = Ok z /\ P z) ->
  exists zs, broadcast f x [c] = Ok zs /\ length zs = length x /\ Forall P zs.
Proof. intros H. rewrite broadcast_one_r. now apply mapM_total. Qed.

Lemma ew3_shape_broadcast_r (g : R -> R -> R) (b n d : nat) (x y : T3) :
  shape3 b n d x -> shape3 b 1 d y ->
  exists z, broadcast (broadcast (broadcast (fun a c => Ok (g a c)))) x y = Ok z
            /\ shape3 b n d z.
Proof.
  intros [Lx Hx] [Ly Hy].
  destruct (broadcast_total_zip (broadcast (broadcast (fun a c => Ok (g a c))))
              (shape2 n d) x y) as (z & Hz & Hl & HP).
  - congruence.
  - intros u v Hu Hv. rewrite Forall_forall in Hx, Hy.
    destruct (Hx u Hu) as [Lu Fu], (Hy v Hv) as [Lv Fv].
    destruct v as [|v0 [|v1 v]]; try discriminate.
    destruct (broadcast_total_r (broadcast (fun a c => Ok (g a c)))
                (fun r => length r = d) u v0) as (z & Hz & Hl & HP).
    + intros a Ha. rewrite Forall_forall in Fu. apply ew1_shape.
      * now apply Fu.
      * now inversion Fv.
    + exists z. repeat split; try assumption. congruence.
  - exists z. repeat split; try assumption. congruence.
Qed.

Lemma neg_sq_norm2_shape (b d : nat) (x : T2) :
  shape2 b d x -> shape2 b 1 (TransR.neg_sq_norm2 x).
Proof.
  intros [Lx _]. rewrite neg_sq_norm2_sum_sq. split; [now rewrite length_map|].
  apply Forall_forall. intros r Hr. apply in_map_iff in Hr.
  now destruct Hr as [v [<- _]].
Qed.

Lemma neg_sq_norm3_shape (b n d : nat) (x : T3) :
  shape3 b n d x -> shape2 b n (TransR.neg_sq_norm3 x).
Proof.
  intros [Lx Hx]. rewrite neg_sq_norm3_sum_sq. split; [now rewrite length_map|].
  apply Forall_forall. intros r Hr. apply in_map_iff in Hr.
  destruct Hr as [m [<- Hm]]. rewrite length_map.
  rewrite Forall_forall in Hx. now destruct (Hx m Hm).
Qed.

Lemma embedding_forward_shape (n d : nat) (e : Embedding) (ids : list nat) :
  shape2 n d (weight e) -> ids_in (weight e) ids ->
  exists rows e',
    embedding_forward e ids = Ok (rows, e')
    /\ shape2 (length ids) d rows
    /\ shape2 n d (weight e').
Proof.
  intros S Hi.
  assert (T : exists rows e', embedding_forward e ids = Ok (rows, e')).
  { unfold embedding_forward. destruct e as [w [mx|]]; cbn [max_norm weight] in *.
    - unfold embedding_renorm_. rewrite ids_in_forallb by exact Hi. cbn [bind].
      rewrite gather_rows; [cbn [bind]; eauto|].
      unfold ids_in in *. now rewrite renorm_rows_from_length.
    - rewrite gather_rows by exact Hi. cbn [bind]. eauto. }
  destruct T as (rows & e' & H). exists rows, e'. split; [exact H|].
  destruct (embedding_forward_inv e e' ids rows H) as (_ & Hs & -> & _).
  assert (S' : shape2 n d (weight e')).
  { apply shape2_lengths. destruct Hs as [_ Hs]. rewrite Hs.
    now apply shape2_lengths. }
  split; [|exact S'].
  split; [now rewrite length_map|].
  apply rows_length; [apply S'|].
  unfold ids_in in *. now rewrite (same_shape_length e e' Hs).
Qed.

Lemma ids_in_below (n d : nat) (w : T2) (ids : list nat) :
  shape2 n d w -> Forall (fun i => (i < n)%nat) ids -> ids_in w ids.
Proof. intros [<- _] H. exact H. Qed.

Lemma view2_flat3_shape (mx : R) (b d : nat) (x : T3) :
  (0 < d)%nat -> shape3 b 1 d x ->
  exists z, view2 d (flat3 (renorm mx x)) = Ok z /\ shape2 b d z.
Proof.
  intros Hd S. apply (renorm_shape mx) in S. apply shape3_rows in S.
  rewrite Nat.mul_1_r in S. unfold flat3.
  exists (concat (renorm mx x)). split; [|exact S].
  apply view2_rows; [exact Hd | apply S].
Qed.

Lemma view3_flat3_shape (mx : R) (b p d : nat) (x : T3) :
  (0 < p)%nat -> (0 < d)%nat -> shape3 b p d x ->
  exists z, view3 p d (flat3 (renorm mx x)) = Ok z /\ shape3 b p d z.
Proof.
  intros Hp Hd S. apply (renorm_shape mx) in S.
  exists (renorm mx x). split; [|exact S]. now apply (view3_flat3 b).
Qed.

Lemma view3_1_shape (n d : nat) (w : T2) :
  (0 < d)%nat -> shape2 n d w ->
  view3_1 d (flat2 w) = Ok [w].
Proof.
  intros Hd [_ H]. unfold view3_1, flat2. now rewrite view2_rows.
Qed.

Ltac step_with L :=
  let z := fresh "z" in
  let Hz := fresh "Hz" in
  let Sz := fresh "Sz" in
  destruct L as (z & Hz & Sz); rewrite Hz; cbn [bind].

Ltac lookup_with L :=
  let rows := fresh "rows" in
  let tbl := fresh "tbl" in
  let Hz := fresh "Hz" in
  let Sr := fresh "Sr" in
  let St := fresh "St" in
  destruct L as (rows & tbl & Hz & Sr & St); rewrite Hz; cbn [bind].

(** X15. On a TransR model whose tables are present with the configured
    shapes, a batch of ids inside the tables never makes a scoring method
    raise: [score_hrt] returns one score per triple, shape (batch, 1),
    [score_t] and [score_h] return one row of [num_entities] scores per pair,
    shape (batch, num_entities), and the model left behind has tables of the
    same shapes again. *)
Theorem transr_scoring_total_with_shapes (self : TransR.model) :
  transr_ready self ->
  (forall batch : list Triple,
      Forall (fun i => (i < TransR.num_entities self)%nat) (column0 batch) ->
      Forall (fun i => (i < TransR.num_relations self)%nat) (column1 batch) ->
      Forall (fun i => (i < TransR.num_entities self)%nat) (column2 batch) ->
      exists out m,
        TransR.score_hrt self batch = Ok (out, m)
        /\ shape2 (length batch) 1 out /\ transr_ready m)
  /\ (forall batch : list Pair,
      Forall (fun i => (i < TransR.num_entities self)%nat) (map fst batch) ->
      Forall (fun i => (i < TransR.num_relations self)%nat) (map snd batch) ->
      exists out m,
        TransR.score_t self batch = Ok (out, m)
        /\ shape2 (length batch) (TransR.num_entities self) out /\ transr_ready m)
  /\ (forall batch : list Pair,
      Forall (fun i => (i < TransR.num_relations self)%nat) (map fst batch) ->
      Forall (fun i => (i < TransR.num_entities self)%nat) (map snd batch) ->
      exists out m,
        TransR.score_h self batch = Ok (out, m)
        /\ shape2 (length batch) (TransR.num_entities self) out /\ transr_ready m).
Proof.
  intros (Hde & Hdr & Hn & (e0 & He & Se) & (r0 & Hr & Sr0) & (p0 & Hp & Sp)).
  set (d_e := TransR.embedding_dim self) in *.
  set (d_r := TransR.relation_embedding_dim self) in *.
  set (n := TransR.num_entities self) in *.
  split; [|split].
  - intros batch H0 H1 H2.
    unfold TransR.score_hrt. fold d_e d_r. rewrite He, Hr, Hp. cbn [call_embedding].
    lookup_with (embedding_forward_shape n d_e e0 (column0 batch) Se
                   (ids_in_below _ _ _ _ Se H0)).
    rewrite <- (Nat.mul_1_l d_e) in Sr at 1.
    step_with (view3_shape _ 1 d_e rows ltac:(lia) Hde Sr).
    lookup_with (embedding_forward_shape _ d_r r0 (column1 batch) Sr0
                   (ids_in_below _ _ _ _ Sr0 H1)).
    lookup_with (embedding_forward_shape n d_e tbl (column2 batch) St
                   (ids_in_below _ _ _ _ St H2)).
    rewrite <- (Nat.mul_1_l d_e) in Sr2 at 1.
    step_with (view3_shape _ 1 d_e rows1 ltac:(lia) Hde Sr2).
    lookup_with (embedding_forward_shape _ _ p0 (column1 batch) Sp
                   (ids_in_below _ _ _ _ Sp H1)).
    step_with (view3_shape _ d_e d_r rows2 Hde Hdr Sr3).
    unfold column0, column1, column2 in *. rewrite !length_map in *.
    step_with (bmm_shape_zip _ 1 d_e d_r z z1 Hde Sz Sz1).
    step_with (view2_flat3_shape 1 _ d_r z2 Hdr Sz2).
    step_with (bmm_shape_zip _ 1 d_e d_r z0 z1 Hde Sz0 Sz1).
    step_with (view2_flat3_shape 1 _ d_r z4 Hdr Sz4).
    unfold add2, add1, sub2, sub1.
    step_with (ew2_shape Rplus _ d_r z3 rows0 Sz3 Sr1).
    step_with (ew2_shape Rminus _ d_r z6 z5 Sz6 Sz5).
    do 2 eexists. split; [reflexivity|]. split.
    + now apply (neg_sq_norm2_shape _ d_r).
    + unfold transr_ready, table_shape. cbn. fold d_e d_r n.
      repeat split; eauto.
  - intros batch H0 H1.
    unfold TransR.score_t. fold d_e d_r n. rewrite He, Hr, Hp. cbn [call_embedding].
    lookup_with (embedding_forward_shape n d_e e0 (map fst batch) Se
                   (ids_in_below _ _ _ _ Se H0)).
    rewrite <- (Nat.mul_1_l d_e) in Sr at 1.
    step_with (view3_shape _ 1 d_e rows ltac:(lia) Hde Sr).
    lookup_with (embedding_forward_shape _ d_r r0 (map snd batch) Sr0
                   (ids_in_below _ _ _ _ Sr0 H1)).
    rewrite <- (Nat.mul_1_l d_r) in Sr1 at 1.
    step_with (view3_shape _ 1 d_r rows0 ltac:(lia) Hdr Sr1).
    rewrite (view3_1_shape n d_e (weight tbl) Hde St). cbn [bind].
    lookup_with (embedding_forward_shape _ _ p0 (map snd batch) Sp
                   (ids_in_below _ _ _ _ Sp H1)).
    step_with (view3_shape _ d_e d_r rows1 Hde Hdr Sr2).
    rewrite !length_map in *.
    step_with (bmm_shape_zip _ 1 d_e d_r z z1 Hde Sz Sz1).
    step_with (view3_flat3_shape 1 _ 1 d_r z2 ltac:(lia) Hdr Sz2).
    step_with (bmm_shape_l _ n d_e d_r (weight tbl) z1 Hde St Sz1).
    step_with (view3_flat3_shape 1 _ n d_r z4 Hn Hdr Sz4).
    unfold add3, add2, add1, sub3, sub2, sub1.
    step_with (ew3_shape Rplus _ 1 d_r z3 z0 Sz3 Sz0).
    step_with (ew3_shape_broadcast Rminus _ n d_r z6 z5 Sz6 Sz5).
    do 2 eexists. split; [reflexivity|]. split.
    + now apply (neg_sq_norm3_shape _ n d_r).
    + unfold transr_ready, table_shape. cbn. fold d_e d_r n.
      repeat split; eauto.
  - intros batch H0 H1.
    unfold TransR.score_h. fold d_e d_r n. rewrite He, Hr, Hp.
    cbn [call_embedding get_weight bind].
    rewrite (view3_1_shape n d_e (weight e0) Hde Se). cbn [bind].
    lookup_with (embedding_forward_shape _ d_r r0 (map fst batch) Sr0
                   (ids_in_below _ _ _ _ Sr0 H0)).
    rewrite <- (Nat.mul_1_l d_r) in Sr at 1.
    step_with (view3_shape _ 1 d_r rows ltac:(lia) Hdr Sr).
    lookup_with (embedding_forward_shape n d_e e0 (map snd batch) Se
                   (ids_in_below _ _ _ _ Se H1)).
    rewrite <- (Nat.mul_1_l d_e) in Sr1 at 1.
    step_with (view3_shape _ 1 d_e rows0 ltac:(lia) Hde Sr1).
    rewrite (view3_1_shape n d_e (weight tbl0) Hde St0). cbn [bind].
    lookup_with (embedding_forward_shape _ _ p0 (map fst batch) Sp
                   (ids_in_below _ _ _ _ Sp H0)).
    step_with (view3_shape _ d_e d_r rows1 Hde Hdr Sr2).
    rewrite !length_map in *.
    step_with (bmm_shape_l _ n d_e d_r (weight tbl0) z1 Hde St0 Sz1).
    step_with (view3_flat3_shape 1 _ n d_r z2 Hn Hdr Sz2).
    step_with (bmm_shape_zip _ 1 d_e d_r z0 z1 Hde Sz0 Sz1).
    step_with (view3_flat3_shape 1 _ 1 d_r z4 ltac:(lia) Hdr Sz4).
    unfold add3, add2, add1, sub3, sub2, sub1.
    step_with (ew3_shape_broadcast_r Rplus _ n d_r z3 z Sz3 Sz).
    step_with (ew3_shape_broadcast_r Rminus _ n d_r z6 z5 Sz6 Sz5).
    do 2 eexists. split; [reflexivity|]. split.
    + now apply (neg_sq_norm3_shape _ n d_r).
    + unfold transr_ready, table_shape. cbn. fold d_e d_r n.
      repeat split; eauto.
Qed.

Ltac ready_transr_example :=
  unfold transr_ready, table_shape, shape2, example_model; cbn;
  repeat split; try lia; eauto;
  try (eexists; split; [reflexivity|]; split; [reflexivity|];
       repeat (apply Forall_cons; [reflexivity|]); apply Forall_nil).

Lemma transr_scoring_total_with_shapes_witness :
  transr_ready example_model
  /\ exists out m,
       TransR.score_t example_model [(0, 0)%nat] = Ok (out, m)
       /\ shape2 1 2 out /\ transr_ready m.
Proof.
  assert (Hr : transr_ready example_model) by ready_transr_example.
  split; [exact Hr|].
  apply (proj1 (proj2 (transr_scoring_total_with_shapes example_model Hr))
           [(0, 0)%nat]).
  - repeat (apply Forall_cons; [cbn; lia|]); apply Forall_nil.
  - repeat (apply Forall_cons; [cbn; lia|]); apply Forall_nil.
Defined.

(** ** TransR: ids outside the tables *)

Lemma embedding_forward_out_of_range (e : Embedding) (ids : list nat) :
  ~ ids_in (weight e) ids -> embedding_forward e ids = Err IndexError.
Proof.
  intros H. unfold embedding_forward. destruct e as [w [mx|]]; cbn [max_norm weight] in *.
  - unfold embedding_renorm_. destruct (forallb _ ids) eqn:Hf; [|reflexivity].
    exfalso. apply H. now apply forallb_ids_in.
  - now rewrite gather_out_of_range.
Qed.

Lemma below_dec (n : nat) (ids : list nat) :
  {Forall (fun i => (i < n)%nat) ids} + {~ Forall (fun i => (i < n)%nat) ids}.
Proof. apply Forall_dec. intros i. apply lt_dec. Qed.

Lemma not_ids_in_below (n d : nat) (w : T2) (ids : list nat) :
  shape2 n d w -> ~ Forall (fun i => (i < n)%nat) ids -> ~ ids_in w ids.
Proof. intros [<- _] H. exact H. Qed.

(** X16. On a TransR model whose tables are present with the configured
    shapes, a batch holding an entity id that is not below [num_entities] or
    a relation id that is not below [num_relations] makes each scoring method
    raise [IndexError]; with X15, the methods return scores exactly when
    every id is inside its table. *)
Theorem transr_out_of_range_index_error (self : TransR.model) :
  transr_ready self ->
  (forall batch : list Triple,
      ~ (Forall (fun i => (i < TransR.num_entities self)%nat) (column0 batch)
         /\ Forall (fun i => (i < TransR.num_relations self)%nat) (column1 batch)
         /\ Forall (fun i => (i < TransR.num_entities self)%nat) (column2 batch)) ->
      TransR.score_hrt self batch = Err IndexError)
  /\ (forall batch : list Pair,
      ~ (Forall (fun i => (i < TransR.num_entities self)%nat) (map fst batch)
         /\ Forall (fun i => (i < TransR.num_relations self)%nat) (map snd batch)) ->
      TransR.score_t self batch = Err IndexError)
  /\ (forall batch : list Pair,
      ~ (Forall (fun i => (i < TransR.num_relations self)%nat) (map fst batch)
         /\ Forall (fun i => (i < TransR.num_entities self)%nat) (map snd batch)) ->
      TransR.score_h self batch = Err IndexError).
Proof.
  intros (Hde & Hdr & Hn & (e0 & He & Se) & (r0 & Hr & Sr0) & (p0 & Hp & Sp)).
  set (d_e := TransR.embedding_dim self) in *.
  set (d_r := TransR.relation_embedding_dim self) in *.
  set (n := TransR.num_entities self) in *.
  split; [|split]; intros batch Hbad.
  - unfold TransR.score_hrt. fold d_e d_r. rewrite He, Hr, Hp. cbn [call_embedding].
    destruct (below_dec n (column0 batch)) as [H0|H0].
    2:{ now rewrite (embedding_forward_out_of_range e0 _
                       (not_ids_in_below _ _ _ _ Se H0)). }
    lookup_with (embedding_forward_shape n d_e e0 (column0 batch) Se
                   (ids_in_below _ _ _ _ Se H0)).
    rewrite <- (Nat.mul_1_l d_e) in Sr at 1.
    step_with (view3_shape _ 1 d_e rows ltac:(lia) Hde Sr).
    destruct (below_dec (TransR.num_relations self) (column1 batch)) as [H1|H1].
    2:{ now rewrite (embedding_forward_out_of_range r0 _
                       (not_ids_in_below _ _ _ _ Sr0 H1)). }
    lookup_with (embedding_forward_shape _ d_r r0 (column1 batch) Sr0
                   (ids_in_below _ _ _ _ Sr0 H1)).
    rewrite (embedding_forward_out_of_range tbl (column2 batch)); [reflexivity|].
    apply (not_ids_in_below n d_e); [exact St|].
    intros H2. apply Hbad. repeat split; assumption.
  - unfold TransR.score_t. fold d_e d_r n. rewrite He, Hr, Hp. cbn [call_embedding].
    destruct (below_dec n (map fst batch)) as [H0|H0].
    2:{ now rewrite (embedding_forward_out_of_range e0 _
                       (not_ids_in_below _ _ _ _ Se H0)). }
    lookup_with (embedding_forward_shape n d_e e0 (map fst batch) Se
                   (ids_in_below _ _ _ _ Se H0)).
    rewrite <- (Nat.mul_1_l d_e) in Sr at 1.
    step_with (view3_shape _ 1 d_e rows ltac:(lia) Hde Sr).
    rewrite (embedding_forward_out_of_range r0 (map snd batch)); [reflexivity|].
    apply (not_ids_in_below (TransR.num_relations self) d_r); [exact Sr0|].
    intros H1. apply Hbad. split; assumption.
  - unfold TransR.score_h. fold d_e d_r n. rewrite He, Hr, Hp.
    cbn [call_embedding get_weight bind].
    rewrite (view3_1_shape n d_e (weight e0) Hde Se). cbn [bind].
    destruct (below_dec (TransR.num_relations self) (map fst batch)) as [H0|H0].
    2:{ now rewrite (embedding_forward_out_of_range r0 _
                       (not_ids_in_below _ _ _ _ Sr0 H0)). }
    lookup_with (embedding_forward_shape _ d_r r0 (map fst batch) Sr0
                   (ids_in_below _ _ _ _ Sr0 H0)).
    rewrite <- (Nat.mul_1_l d_r) in Sr at 1.
    step_with (view3_shape _ 1 d_r rows ltac:(lia) Hdr Sr).
    rewrite (embedding_forward_out_of_range e0 (map snd batch)); [reflexivity|].
    apply (not_ids_in_below n d_e); [exact Se|].
    intros H1. apply Hbad. split; assumption.
Qed.

Lemma transr_out_of_range_index_error_witness :
  transr_ready example_model
  /\ TransR.score_hrt example_model [(0, 3, 1)%nat] = Err IndexError.
Proof.
  assert (Hr : transr_ready example_model) by ready_transr_example.
  split; [exact Hr|].
  apply (proj1 (transr_out_of_range_index_error example_model Hr)).
  intros (_ & H & _). cbn in H. inversion H as [|? ? Hlt _]. lia.
Defined.

(** ** RESCAL: swapping head and tail *)

Lemma bilinear_form_transpose (d : nat) (h t : T1) (M M' : T2) :
  (forall i j, (i < d)%nat -> (j < d)%nat ->
               nth j (nth i M' []) 0 = nth i (nth j M []) 0) ->
  bilinear_form d h M t = bilinear_form d t M' h.
Proof.
  intros H. unfold bilinear_form. rewrite sum_n_exchange.
  apply sum_n_ext. intros i Hi. apply sum_n_ext. intros j Hj.
  rewrite (H i j Hi Hj). lra.
Qed.

(** X17. RESCAL scores a triple with head and tail swapped as it scores the
    triple under the transposed relation matrix: if the matrix of relation
    [r'] is the transpose of the matrix of [r], then (t, r', h) gets the score
    of (h, r, t).  In particular a relation with a symmetric matrix cannot
    tell (h, r, t) from (t, r, h). *)
Theorem rescal_transposed_relation_swaps_head_and_tail
    (self : RESCAL.model) (E Rl : T2) (h r r' t : nat) :
  rescal_ready self E Rl ->
  (h < length E)%nat -> (t < length E)%nat ->
  (r < length Rl)%nat -> (r' < length Rl)%nat ->
  let d := RESCAL.embedding_dim self in
  (forall i j, (i < d)%nat -> (j < d)%nat ->
               nth j (nth i (reshape d d (row Rl r')) []) 0
               = nth i (nth j (reshape d d (row Rl r)) []) 0) ->
  exists s m1 m2,
    RESCAL.score_hrt self [(h, r, t)] = Ok ([[s]], m1)
    /\ RESCAL.score_hrt self [(t, r', h)] = Ok ([[s]], m2).
Proof.
  intros Hready Hh Ht Hr Hr' d Hsym.
  pose proof Hready as (Hd & HeE & HeR & Hn & HE & HR).
  do 3 eexists. split.
  - rewrite (rescal_score_hrt_eval self E Rl) by
      (try exact Hready; unfold ids_in; now repeat constructor).
    cbn [map fst snd]. reflexivity.
  - rewrite (rescal_score_hrt_eval self E Rl) by
      (try exact Hready; unfold ids_in; now repeat constructor).
    cbn [map fst snd]. do 4 f_equal. fold d.
    rewrite !(dot_vecmat_bilinear d);
      try (apply row_length; assumption);
      try apply reshape_length;
      try (apply ncols_reshape; [exact Hd | apply row_length; assumption]).
    symmetry. now apply bilinear_form_transpose.
Qed.

Lemma rescal_transposed_relation_swaps_head_and_tail_witness :
  rescal_ready rescal_example [[2]; [3]] [[5]]
  /\ exists s m1 m2,
       RESCAL.score_hrt rescal_example [(0, 0, 1)%nat] = Ok ([[s]], m1)
       /\ RESCAL.score_hrt rescal_example [(1, 0, 0)%nat] = Ok ([[s]], m2).
Proof.
  assert (Hr : rescal_ready rescal_example [[2]; [3]] [[5]]) by ready_example.
  split; [exact Hr|].
  apply (rescal_transposed_relation_swaps_head_and_tail rescal_example
           [[2]; [3]] [[5]] 0 0 0 1 Hr); try (cbn; lia).
  intros i j Hi Hj. cbn in Hi, Hj.
  assert (i = 0%nat) by lia. assert (j = 0%nat) by lia. subst. reflexivity.
Defined.

(** ** TransR: triples whose head and tail coincide *)

Lemma add1_sub1_cancel (u v : T1) :
  length u = length v ->
  exists s, add1 u v = Ok s /\ sub1 s u = Ok v.
Proof.
  intros H. exists (map (fun p => fst p + snd p) (combine u v)). split.
  - unfold add1. rewrite broadcast_zip by exact H.
    apply mapM_ok. reflexivity.
  - unfold sub1. rewrite broadcast_zip
      by (rewrite length_map, length_combine; lia).
    rewrite (mapM_ok _ (fun p => fst p - snd p)) by reflexivity.
    f_equal. revert v H.
    induction u as [|a u IH]; intros [|c v] H; try discriminate; [reflexivity|].
    cbn [combine map fst snd]. f_equal; [lra|]. apply IH. simpl in H. lia.
Qed.

Lemma zip_add_sub_cancel (d : nat) (x y : T2) :
  length x = length y ->
  Forall (fun r => length r = d) x -> Forall (fun r => length r = d) y ->
  exists s,
    mapM (fun p => add1 (fst p) (snd p)) (combine x y) = Ok s
    /\ length s = length x
    /\ mapM (fun p => sub1 (fst p) (snd p)) (combine s x) = Ok y.
Proof.
  revert y. induction x as [|a x IH]; intros [|c y] H Fx Fy; try discriminate.
  - exists []. repeat split.
  - inversion Fx as [|? ? La Fx']; inversion Fy as [|? ? Lc Fy']; subst.
    destruct (add1_sub1_cancel a c) as (s1 & A1 & B1); [congruence|].
    destruct (IH y) as (s & A & L & B); [simpl in H; lia | exact Fx' | exact Fy' |].
    exists (s1 :: s). cbn [combine mapM fst snd length].
    rewrite A1, A, B1, B. cbn [bind]. repeat split. now rewrite L.
Qed.

Lemma add2_sub2_cancel (b d : nat) (x y : T2) :
  shape2 b d x -> shape2 b d y ->
  exists s, add2 x y = Ok s /\ sub2 s x = Ok y.
Proof.
  intros [Lx Fx] [Ly Fy].
  destruct (zip_add_sub_cancel d x y) as (s & A & L & B);
    [congruence | exact Fx | exact Fy |].
  exists s. unfold add2, sub2. split.
  - rewrite broadcast_zip by congruence. exact A.
  - rewrite broadcast_zip by exact L. exact B.
Qed.

(** X18. TransR gives a triple whose head and tail are the same entity the
    score -||r||^2, whatever the entity's embedding and the projection: on a
    model with its tables in the configured shapes and no negative
    [max_norm], a batch of in-range triples with equal head and tail columns
    is scored by the looked-up relation rows alone. *)
Theorem transr_same_head_and_tail_scores (self : TransR.model)
    (batch : list Triple) :
  transr_ready self -> transr_max_norms_nonneg self ->
  Forall (fun i => (i < TransR.num_entities self)%nat) (column0 batch) ->
  Forall (fun i => (i < TransR.num_relations self)%nat) (column1 batch) ->
  column2 batch = column0 batch ->
  exists r rel1 m,
    call_embedding (TransR.relation_embeddings self) (column1 batch) = Ok (r, rel1)
    /\ TransR.score_hrt self batch = Ok (map (fun v => [- sum_sq v]) r, m).
Proof.
  intros (Hde & Hdr & Hn & (e0 & He & Se) & (r0 & Hr & Sr0) & (p0 & Hp & Sp))
         (Ne & _ & _) H0 H1 H2.
  rewrite He in Ne. cbn [table_max_norm_nonneg] in Ne.
  set (d_e := TransR.embedding_dim self) in *.
  set (d_r := TransR.relation_embedding_dim self) in *.
  set (n := TransR.num_entities self) in *.
  unfold TransR.score_hrt. fold d_e d_r. rewrite He, Hr, Hp, H2.
  cbn [call_embedding].
  destruct (embedding_forward_shape n d_e e0 (column0 batch) Se
              (ids_in_below _ _ _ _ Se H0)) as (h0 & ent1 & Hh0 & Sh0 & Sent1).
  destruct (embedding_forward_shape _ d_r r0 (column1 batch) Sr0
              (ids_in_below _ _ _ _ Sr0 H1)) as (r & rel1 & Hr1 & Sr & Srel1).
  destruct (embedding_forward_shape _ _ p0 (column1 batch) Sp
              (ids_in_below _ _ _ _ Sp H1)) as (m0 & proj1 & Hm0 & Sm0 & Sproj1).
  exists r, rel1. eexists. split; [exact Hr1|].
  rewrite Hh0. cbn [bind].
  rewrite <- (Nat.mul_1_l d_e) in Sh0 at 1.
  destruct (view3_shape _ 1 d_e h0 ltac:(lia) Hde Sh0) as (h & Hh & Sh).
  rewrite Hh. cbn [bind]. rewrite Hr1. cbn [bind].
  rewrite (embedding_forward_again _ _ _ _ Hh0 Ne). cbn [bind].
  rewrite Hh. cbn [bind]. rewrite Hm0. cbn [bind].
  destruct (view3_shape _ d_e d_r m0 Hde Hdr Sm0) as (m_r & Hm_r & Sm_r).
  rewrite Hm_r. cbn [bind].
  unfold column0, column1 in *. rewrite !length_map in *.
  destruct (bmm_shape_zip _ 1 d_e d_r h m_r Hde Sh Sm_r) as (hm & Hhm & Shm).
  rewrite Hhm. cbn [bind].
  destruct (view2_flat3_shape 1 _ d_r hm Hdr Shm) as (h_bot & Hh_bot & Sh_bot).
  rewrite Hh_bot. cbn [bind].
  destruct (add2_sub2_cancel _ d_r h_bot r Sh_bot Sr) as (s & Hs & Hres).
  rewrite Hs. cbn [bind]. rewrite Hres. cbn [bind].
  rewrite neg_sq_norm2_sum_sq. reflexivity.
Qed.

Lemma transr_same_head_and_tail_scores_witness :
  transr_ready example_model
  /\ exists r rel1 m,
       call_embedding (TransR.relation_embeddings example_model)
         (column1 [(1, 0, 1)%nat]) = Ok (r, rel1)
       /\ TransR.score_hrt example_model [(1, 0, 1)%nat]
          = Ok (map (fun v => [- sum_sq v]) r, m).
Proof.
  assert (Hr : transr_ready example_model) by ready_transr_example.
  split; [exact Hr|].
  apply (transr_same_head_and_tail_scores example_model [(1, 0, 1)%nat] Hr).
  - unfold transr_max_norms_nonneg, example_model. cbn.
    unfold max_norm_nonneg. cbn. repeat split; lra.
  - repeat (apply Forall_cons; [cbn; lia|]); apply Forall_nil.
  - repeat (apply Forall_cons; [cbn; lia|]); apply Forall_nil.
  - reflexivity.
Defined.

(** ** RESCAL: sums of relation matrices *)

Lemma nth_reshape (cnt n i j : nat) (l : list R) :
  (i < cnt)%nat -> (j < n)%nat ->
  nth j (nth i (reshape cnt n l) []) 0 = nth (i * n + j) l 0.
Proof.
  intros Hi Hj. unfold reshape.
  rewrite (nth_indep _ [] (firstn n (skipn (0 * n) l)))
    by now rewrite length_map, length_seq.
  rewrite (map_nth (fun i => firstn n (skipn (i * n) l))).
  rewrite seq_nth by exact Hi. cbn [Nat.add].
  rewrite nth_firstn. apply Nat.ltb_lt in Hj. rewrite Hj.
  now rewrite nth_skipn.
Qed.

Lemma bilinear_form_plus (d : nat) (h t : T1) (M1 M2 M3 : T2) :
  (forall i j, (i < d)%nat -> (j < d)%nat ->
               nth j (nth i M3 []) 0 = nth j (nth i M1 []) 0 + nth j (nth i M2 []) 0) ->
  bilinear_form d h M3 t = bilinear_form d h M1 t + bilinear_form d h M2 t.
Proof.
  intros H. unfold bilinear_form. rewrite <- sum_n_plus.
  apply sum_n_ext. intros i Hi. rewrite <- sum_n_plus.
  apply sum_n_ext. intros j Hj. rewrite (H i j Hi Hj). lra.
Qed.

(** X19. RESCAL's score is additive in the relation matrix: when the row of
    relation [r3] in the relation table is the entrywise sum of the rows of
    [r1] and [r2], the score of (h, r3, t) is the sum of the scores of
    (h, r1, t) and (h, r2, t), for all entities h and t of the model. *)
Theorem rescal_score_additive_in_relation
    (self : RESCAL.model) (E Rl : T2) (h r1 r2 r3 t : nat) :
  rescal_ready self E Rl ->
  (h < length E)%nat -> (t < length E)%nat ->
  (r1 < length Rl)%nat -> (r2 < length Rl)%nat -> (r3 < length Rl)%nat ->
  let d := RESCAL.embedding_dim self in
  (forall k, (k < d * d)%nat ->
             nth k (row Rl r3) 0 = nth k (row Rl r1) 0 + nth k (row Rl r2) 0) ->
  exists s1 s2 m1 m2 m3,
    RESCAL.score_hrt self [(h, r1, t)] = Ok ([[s1]], m1)
    /\ RESCAL.score_hrt self [(h, r2, t)] = Ok ([[s2]], m2)
    /\ RESCAL.score_hrt self [(h, r3, t)] = Ok ([[s1 + s2]], m3).
Proof.
  intros Hready Hh Ht Hr1 Hr2 Hr3 d Hsum.
  pose proof Hready as (Hd & HeE & HeR & Hn & HE & HR).
  do 5 eexists.
  rewrite !(rescal_score_hrt_eval self E Rl) by
      (try exact Hready; unfold ids_in; now repeat constructor).
  cbn [map fst snd]. fold d.
  split; [reflexivity|]. split; [reflexivity|].
  do 4 f_equal.
  rewrite !(dot_vecmat_bilinear d);
    try (apply row_length; assumption);
    try apply reshape_length;
    try (apply ncols_reshape; [exact Hd | apply row_length; assumption]).
  apply bilinear_form_plus. intros i j Hi Hj.
  rewrite !nth_reshape by assumption. apply Hsum. nia.
Qed.

Lemma rescal_score_additive_in_relation_witness :
  rescal_ready rescal_three_relations [[2]; [3]] [[5]; [7]; [12]]
  /\ exists s1 s2 m1 m2 m3,
       RESCAL.score_hrt rescal_three_relations [(0, 0, 1)%nat] = Ok ([[s1]], m1)
       /\ RESCAL.score_hrt rescal_three_relations [(0, 1, 1)%nat] = Ok ([[s2]], m2)
       /\ RESCAL.score_hrt rescal_three_relations [(0, 2, 1)%nat]
          = Ok ([[s1 + s2]], m3).
Proof.
  assert (Hr : rescal_ready rescal_three_relations [[2]; [3]] [[5]; [7]; [12]]).
  { unfold rescal_ready, rescal_three_relations; cbn.
    repeat split; try lia;
      repeat (apply Forall_cons; [reflexivity|]); apply Forall_nil. }
  split; [exact Hr|].
  apply (rescal_score_additive_in_relation rescal_three_relations
           [[2]; [3]] [[5]; [7]; [12]] 0 0 1 2 1 Hr); try (cbn; lia).
  intros k Hk. cbn in Hk. assert (k = 0%nat) by lia. subst. cbn. lra.
Defined.
